(** * py4dlib.objects: object-manager traversal, hierarchy snapshot and path queries

    A shallow embedding of [ObjectIterator], [ObjectHierarchy] and
    [getNextObject] / [findObjects] / [getActiveObjects] of
    [py4dlib/objects.py], with the properties of the traversal, of the
    path index and of the path queries.

    The host's scene graph ([c4d.BaseObject] with [GetUp], [GetDown],
    [GetNext], [GetName], [GetType]) is modelled by positions in a forest of
    named trees; Python's [re.match] is modelled for the fragment of the
    pattern language made of literal characters, [.], [^], [$], [|] and the
    repeat operators [*], [+], [?] with their lazy forms. *)

From Stdlib Require Import List String Ascii ZArith Arith Bool Lia DecimalString.
Import ListNotations.

Local Open Scope string_scope.
Local Open Scope list_scope.

(** ** Outcomes of Python code *)

(** The exceptions the modelled code can raise. *)
Inductive exn : Type :=
| StopIteration
| TypeError
| AttributeError
| IndexError
| ReError.

(** [Ok a]: normal return.  [Raise e]: the exception [e] propagates.
    [OutOfFuel]: a loop of the model was cut before the Python loop ends.
    [Unmodelled]: the pattern leaves the modelled fragment of [re]. *)
Inductive result (A : Type) : Type :=
| Ok (a : A)
| Raise (e : exn)
| OutOfFuel
| Unmodelled.

Arguments Ok {A} a.
Arguments Raise {A} e.
Arguments OutOfFuel {A}.
Arguments Unmodelled {A}.

Definition bind {A B : Type} (r : result A) (k : A -> result B) : result B :=
  match r with
  | Ok a => k a
  | Raise e => Raise e
  | OutOfFuel => OutOfFuel
  | Unmodelled => Unmodelled
  end.

Notation "x <- c ;; k" := (bind c (fun x => k))
  (at level 61, c at next level, right associativity).

(** ** The scene graph *)

(** An object of the object manager: its name, its type id and its children
    in next-sibling order. *)
#[local] Unset Elimination Schemes.
Inductive tree : Type :=
| Node (name : string) (typ : Z) (children : list tree).
#[local] Set Elimination Schemes.

(** Structural induction on trees, with the hypothesis for all children. *)

Section TreeInduction.
Variable P : tree -> Prop.
Hypothesis HNode : forall n y cs, Forall P cs -> P (Node n y cs).

Fixpoint tree_ind (t : tree) : P t :=
  match t with
  | Node n y cs =>
      HNode n y cs
        ((fix children_ind (ts : list tree) : Forall P ts :=
            match ts with
            | [] => Forall_nil P
            | c :: ts' => Forall_cons c (tree_ind c) (children_ind ts')
            end) cs)
  end.
End TreeInduction.

Definition tree_name (t : tree) : string := let 'Node n _ _ := t in n.
Definition tree_type (t : tree) : Z := let 'Node _ y _ := t in y.
Definition tree_children (t : tree) : list tree := let 'Node _ _ cs := t in cs.

(** A document is the list of its top-level objects. *)
Definition document : Type := list tree.

(** One level of context above a position: the parent's name and type and
    the parent's own earlier (nearest first) and later siblings. *)
Record frame : Type := Frame {
  f_name : string;
  f_type : Z;
  f_left : list tree;
  f_right : list tree
}.

(** A [c4d.BaseObject] handle: a position in a document.  [lefts] are the
    earlier siblings, nearest first; [rights] the later siblings; [above] the
    chain of parents, nearest first.  Two handles are equal exactly when they
    denote the same position of the same document. *)
Record obj : Type := Obj {
  lefts : list tree;
  focus : tree;
  rights : list tree;
  above : list frame
}.

Definition GetName (o : obj) : string := tree_name (focus o).
Definition GetType (o : obj) : Z := tree_type (focus o).

Definition GetUp (o : obj) : option obj :=
  match above o with
  | [] => None
  | fr :: ab =>
      Some (Obj (f_left fr)
                (Node (f_name fr) (f_type fr) (rev (lefts o) ++ focus o :: rights o))
                (f_right fr) ab)
  end.

Definition GetDown (o : obj) : option obj :=
  match focus o with
  | Node _ _ [] => None
  | Node n y (c :: cs) => Some (Obj [] c cs (Frame n y (lefts o) (rights o) :: above o))
  end.

Definition GetNext (o : obj) : option obj :=
  match rights o with
  | [] => None
  | r :: rs => Some (Obj (focus o :: lefts o) r rs (above o))
  end.

(** [doc.GetFirstObject()] *)
Definition GetFirstObject (doc : document) : option obj :=
  match doc with
  | [] => None
  | t :: ts => Some (Obj [] t ts [])
  end.

(** *** Identity comparison of handles *)

Fixpoint tree_eqb (t1 t2 : tree) {struct t1} : bool :=
  match t1, t2 with
  | Node n1 y1 cs1, Node n2 y2 cs2 =>
      String.eqb n1 n2 && Z.eqb y1 y2 &&
      (fix forest_eqb (l1 l2 : list tree) {struct l1} : bool :=
         match l1, l2 with
         | [], [] => true
         | a :: l1', b :: l2' => tree_eqb a b && forest_eqb l1' l2'
         | _, _ => false
         end) cs1 cs2
  end.

Fixpoint forest_eqb (l1 l2 : list tree) : bool :=
  match l1, l2 with
  | [], [] => true
  | a :: l1', b :: l2' => tree_eqb a b && forest_eqb l1' l2'
  | _, _ => false
  end.

Definition frame_eqb (f1 f2 : frame) : bool :=
  String.eqb (f_name f1) (f_name f2) && Z.eqb (f_type f1) (f_type f2) &&
  forest_eqb (f_left f1) (f_left f2) && forest_eqb (f_right f1) (f_right f2).

Fixpoint frames_eqb (l1 l2 : list frame) : bool :=
  match l1, l2 with
  | [], [] => true
  | a :: l1', b :: l2' => frame_eqb a b && frames_eqb l1' l2'
  | _, _ => false
  end.

Definition obj_eqb (o1 o2 : obj) : bool :=
  forest_eqb (lefts o1) (lefts o2) && tree_eqb (focus o1) (focus o2) &&
  forest_eqb (rights o1) (rights o2) && frames_eqb (above o1) (above o2).

(** [a == b] on values that are an object or [None]. *)
Definition py_eqb (a b : option obj) : bool :=
  match a, b with
  | None, None => true
  | Some x, Some y => obj_eqb x y
  | _, _ => false
  end.

(** [x in l] for a list [l] of objects (or [None]s). *)
Definition py_in (x : option obj) (l : list (option obj)) : bool :=
  existsb (py_eqb x) l.

(** ** ObjectIterator *)

(** The [stopobj] argument: absent, one object, or a list. *)
Inductive stoparg : Type :=
| StopNone
| StopObj (o : obj)
| StopList (l : list (option obj)).

Record ObjectIterator : Type := MkIter {
  curobj : option obj;
  curlvl : Z;
  childrenonly : bool;
  stopobjs : list (option obj);
  init : bool
}.

(** [while op: startlvl += 1; op = op.GetUp()] *)
Fixpoint level_loop (fuel : nat) (op : option obj) (startlvl : Z) : result Z :=
  match op with
  | None => Ok startlvl
  | Some o =>
      match fuel with
      | O => OutOfFuel
      | S fuel' => level_loop fuel' (GetUp o) (startlvl + 1)%Z
      end
  end.

(** [ObjectIterator.__init__(startobj, stopobj, children_only, startlvl)] *)
Definition ObjectIterator_init (fuel : nat) (startobj : option obj)
    (stopobj : stoparg) (children_only : bool) (startlvl : Z)
  : result ObjectIterator :=
  lvl <- level_loop fuel startobj startlvl ;;
  let stop0 := if children_only then [startobj] else [] in
  let stop :=
    match stopobj with
    | StopNone => stop0
    | StopObj o => stop0 ++ [Some o]
    | StopList [] => stop0
    | StopList l => stop0 ++ l
    end in
  Ok (MkIter startobj lvl children_only stop (negb children_only)).

(** The ascent loop of [next]:
    [while not op.GetNext() and op.GetUp(): ...].  It returns the level
    reached (the loop writes [self.curlvl] as it goes) and either the object
    it stopped at or the exception raised.  [self.stopobjs] is always a list,
    so the branch for [self.stopobjs is None] is never taken. *)
Fixpoint ascend (fuel : nat) (stop : list (option obj)) (op : obj) (lvl : Z)
  : Z * result obj :=
  match GetNext op, GetUp op with
  | None, Some up =>
      match fuel with
      | O => (lvl, OutOfFuel)
      | S fuel' =>
          if py_in (Some op) stop || py_in (Some up) stop
          then (lvl, Raise StopIteration)
          else ascend fuel' stop up (lvl - 1)%Z
      end
  | _, _ => (lvl, Ok op)
  end.

Definition set_cur (self : ObjectIterator) (o : option obj) (lvl : Z) : ObjectIterator :=
  MkIter o lvl (childrenonly self) (stopobjs self) (init self).

(** [ObjectIterator.next()]: the iterator after the call and what the call
    returned or raised. *)
Definition next (fuel : nat) (self : ObjectIterator)
  : ObjectIterator * result (option obj * Z) :=
  if init self then
    (MkIter (curobj self) (curlvl self) (childrenonly self) (stopobjs self) false,
     Ok (curobj self, curlvl self))
  else
    match curobj self with
    | None => (self, Raise StopIteration)
    | Some op =>
        match GetDown op with
        | Some down =>
            if py_in (GetNext op) (stopobjs self) || py_in (Some down) (stopobjs self)
            then (self, Raise StopIteration)
            else (set_cur self (Some down) (curlvl self + 1)%Z,
                  Ok (Some down, (curlvl self + 1)%Z))
        | None =>
            if py_in (Some op) (stopobjs self) then (self, Raise StopIteration)
            else
              let '(lvl, r) := ascend fuel (stopobjs self) op (curlvl self) in
              let self' := set_cur self (curobj self) lvl in
              match r with
              | Ok op' =>
                  match GetNext op' with
                  | Some nxt =>
                      if py_in (Some nxt) (stopobjs self)
                      then (self', Raise StopIteration)
                      else (set_cur self (Some nxt) lvl, Ok (Some nxt, lvl))
                  | None => (self', Raise StopIteration)
                  end
              | Raise e => (self', Raise e)
              | OutOfFuel => (self', OutOfFuel)
              | Unmodelled => (self', Unmodelled)
              end
        end
    end.

(** [for op, lvl in it]: the pairs produced until [next] raises
    [StopIteration]. *)
Fixpoint iterate_loop (steps fuel : nat) (it : ObjectIterator)
  : result (list (option obj * Z)) :=
  match steps with
  | O => OutOfFuel
  | S steps' =>
      match next fuel it with
      | (it', Ok p) => ps <- iterate_loop steps' fuel it' ;; Ok (p :: ps)
      | (_, Raise StopIteration) => Ok []
      | (_, Raise e) => Raise e
      | (_, OutOfFuel) => OutOfFuel
      | (_, Unmodelled) => Unmodelled
      end
  end.

Definition iterate (fuel : nat) (it : ObjectIterator) : result (list (option obj * Z)) :=
  iterate_loop fuel fuel it.

(** [list(ObjectIterator(startobj, stopobj, children_only, startlvl))] *)
Definition traverse (fuel : nat) (startobj : option obj) (stopobj : stoparg)
    (children_only : bool) (startlvl : Z) : result (list (option obj * Z)) :=
  it <- ObjectIterator_init fuel startobj stopobj children_only startlvl ;;
  iterate fuel it.

(** ** Pre-order listing of positions *)

Definition depth (o : obj) : nat := List.length (above o).

(** The positions of the tree [t] standing between the siblings [l] and [r]
    under the context [ab]: the position of [t] itself, then those of each
    child's tree, children taken in sibling order. *)
Fixpoint objs_tree (t : tree) (l r : list tree) (ab : list frame) {struct t} : list obj :=
  match t with
  | Node n y cs =>
      Obj l t r ab ::
      (fix objs_children (ts l' : list tree) {struct ts} : list obj :=
         match ts with
         | [] => []
         | c :: ts' =>
             objs_tree c l' ts' (Frame n y l r :: ab) ++ objs_children ts' (c :: l')
         end) cs []
  end.

Fixpoint objs_forest (ts l : list tree) (ab : list frame) : list obj :=
  match ts with
  | [] => []
  | c :: ts' => objs_tree c l ts' ab ++ objs_forest ts' (c :: l) ab
  end.

(** An object followed by all its descendants, in pre-order. *)
Definition subtree (o : obj) : list obj :=
  objs_tree (focus o) (lefts o) (rights o) (above o).

(** The proper descendants of an object, in pre-order. *)
Definition descendants (o : obj) : list obj := tl (subtree o).

(** The later siblings of an object with their descendants. *)
Definition later_siblings (o : obj) : list obj :=
  objs_forest (rights o) (focus o :: lefts o) (above o).

(** What follows the subtree at [Obj l t r ab] in the pre-order of the
    document, cut at the ancestors of depth less than [d]: the later
    siblings with their subtrees, then the same for the parent, and so on
    upwards.  With [d = 0] nothing is cut. *)
Fixpoint after_from (d : nat) (ab : list frame) (l : list tree) (t : tree) (r : list tree)
  : list obj :=
  if (List.length ab <? d)%nat then []
  else
    objs_forest r (t :: l) ab ++
    match ab with
    | [] => []
    | fr :: ab' =>
        after_from d ab' (f_left fr)
          (Node (f_name fr) (f_type fr) (rev l ++ t :: r)) (f_right fr)
    end.

Definition after_below (d : nat) (o : obj) : list obj :=
  after_from d (above o) (lefts o) (focus o) (rights o).

(** Everything after the subtree of [o] in the document's pre-order. *)
Definition after (o : obj) : list obj := after_below 0 o.

(** The pair the iterator produces for an object: its depth, counted from
    [startlvl + 1] at the top level. *)
Definition with_level (startlvl : Z) (o : obj) : option obj * Z :=
  (Some o, (startlvl + 1 + Z.of_nat (depth o))%Z).

(** *** Sizes and document order *)

Fixpoint tree_size (t : tree) : nat :=
  match t with
  | Node _ _ cs =>
      S ((fix children_size (ts : list tree) : nat :=
            match ts with
            | [] => O
            | c :: ts' => (tree_size c + children_size ts')%nat
            end) cs)
  end.

Fixpoint forest_size (ts : list tree) : nat :=
  match ts with
  | [] => O
  | c :: ts' => (tree_size c + forest_size ts')%nat
  end.

(** The document a position belongs to, rebuilt from the position. *)
Fixpoint document_from (ab : list frame) (l : list tree) (t : tree) (r : list tree)
  : document :=
  match ab with
  | [] => rev l ++ t :: r
  | fr :: ab' =>
      document_from ab' (f_left fr)
        (Node (f_name fr) (f_type fr) (rev l ++ t :: r)) (f_right fr)
  end.

Definition document_of (o : obj) : document :=
  document_from (above o) (lefts o) (focus o) (rights o).

(** The number of objects of the document [o] lives in. *)
Definition doc_size (o : obj) : nat := forest_size (document_of o).

(** The number of objects that come before a position in the pre-order of
    its document. *)
Fixpoint index_from (ab : list frame) (l : list tree) : nat :=
  (forest_size l +
   match ab with
   | [] => O
   | fr :: ab' => S (index_from ab' (f_left fr))
   end)%nat.

Definition index (o : obj) : nat := index_from (above o) (lefts o).

(** [up_n k o]: the [k]-th ancestor of [o] ([o] itself for [k = 0]). *)
Fixpoint up_n (k : nat) (o : obj) : option obj :=
  match k with
  | O => Some o
  | S k' =>
      match GetUp o with
      | Some u => up_n k' u
      | None => None
      end
  end.

(** [under s q]: parent links lead from [q] to [s] in zero or more steps. *)
Definition under (s q : obj) : Prop := exists k, up_n k q = Some s.

(** What a traversal that is cut below depth [d] still has to produce once
    it stands on [o]. *)
Definition following (d : nat) (o : obj) : list obj :=
  descendants o ++ after_below d o.

(** The level of [q] for an iterator that holds [o] at level [lvl]. *)
Definition level_at (lvl : Z) (o q : obj) : Z :=
  (lvl + Z.of_nat (depth q) - Z.of_nat (depth o))%Z.

(** ** getNextObject and the loops built on it *)

(** [x in stopobjs] where [stopobjs] may be [None]: membership in [None]
    raises [TypeError]. *)
Definition py_in_opt (x : option obj) (stopobjs : option (list (option obj)))
  : result bool :=
  match stopobjs with
  | None => Raise TypeError
  | Some l => Ok (py_in x l)
  end.

(** The ascent loop of [getNextObject] for [stopobjs is None]:
    [while not obj.GetNext() and obj.GetUp(): obj = obj.GetUp()]. *)
Fixpoint up_while_last (fuel : nat) (o : obj) : result obj :=
  match GetNext o, GetUp o with
  | None, Some up =>
      match fuel with
      | O => OutOfFuel
      | S fuel' => up_while_last fuel' up
      end
  | _, _ => Ok o
  end.

(** The ascent loop of [getNextObject] for a list of stop objects.
    [Ok (Some o)]: the loop ended on [o]; [Ok None]: [return None] was
    reached inside the loop. *)
Fixpoint up_while_last_stop (fuel : nat) (stop : list (option obj)) (o : obj)
  : result (option obj) :=
  match GetNext o, GetUp o with
  | None, Some up =>
      if py_in (Some up) stop then Ok (Some o)
      else
        match fuel with
        | O => OutOfFuel
        | S fuel' =>
            if py_in (Some o) stop || py_in (Some up) stop then Ok None
            else up_while_last_stop fuel' stop up
        end
  | _, _ => Ok (Some o)
  end.

(** [getNextObject(obj, stopobjs)] *)
Definition getNextObject (fuel : nat) (o : option obj) (stopobjs : stoparg)
  : result (option obj) :=
  let stopobjs : option (list (option obj)) :=
    match stopobjs with
    | StopNone => None
    | StopObj s => Some [Some s]
    | StopList l => Some l
    end in
  match o with
  | None => Ok None
  | Some o =>
      match GetDown o with
      | Some down =>
          b1 <- py_in_opt (GetNext o) stopobjs ;;
          if b1 then Ok None
          else
            b2 <- py_in_opt (Some down) stopobjs ;;
            if b2 then Ok None else Ok (Some down)
      | None =>
          b <- py_in_opt (Some o) stopobjs ;;
          if b then Ok None
          else
            r <- match stopobjs with
                 | None => o' <- up_while_last fuel o ;; Ok (Some o')
                 | Some l => up_while_last_stop fuel l o
                 end ;;
            match r with
            | None => Ok None
            | Some o' =>
                match GetNext o' with
                | Some nxt =>
                    b' <- py_in_opt (Some nxt) stopobjs ;;
                    if b' then Ok None else Ok (Some nxt)
                | None => Ok None
                end
            end
      end
  end.

(** The loop of [getActiveObjects]; [active o] stands for
    [o.GetBit(c4d.BIT_ACTIVE)]. *)
Fixpoint getActiveObjects_loop (steps fuel : nat) (active : obj -> bool)
    (o : option obj) (lst : list obj) : result (list obj) :=
  match o with
  | None => Ok lst
  | Some o' =>
      match steps with
      | O => OutOfFuel
      | S steps' =>
          let lst' := if active o' then lst ++ [o'] else lst in
          nxt <- getNextObject fuel (Some o') StopNone ;;
          getActiveObjects_loop steps' fuel active nxt lst'
      end
  end.

(** [getActiveObjects(doc)] *)
Definition getActiveObjects (fuel : nat) (active : obj -> bool) (doc : document)
  : result (list obj) :=
  getActiveObjects_loop fuel fuel active (GetFirstObject doc) [].

(** The loop of [findObjects]. *)
Fixpoint findObjects_loop (steps fuel : nat) (name : string)
    (o : option obj) (res : list obj) : result (list obj) :=
  match o with
  | None => Ok res
  | Some o' =>
      match steps with
      | O => OutOfFuel
      | S steps' =>
          let res' := if String.eqb (GetName o') name then res ++ [o'] else res in
          nxt <- getNextObject fuel (Some o') StopNone ;;
          findObjects_loop steps' fuel name nxt res'
      end
  end.

(** [findObjects(name)] for a string [name]; [doc] is the active document,
    [None] when there is none (the function then returns [None]). *)
Definition findObjects (fuel : nat) (doc : option document) (name : string)
  : result (option (list obj)) :=
  match doc with
  | None => Ok None
  | Some d =>
      match GetFirstObject d with
      | None => Ok (Some [])
      | Some o =>
          res <- findObjects_loop fuel fuel name (Some o) [] ;;
          Ok (Some res)
      end
  end.

(** All objects of a document, in pre-order. *)
Definition doc_objs (doc : document) : list obj := objs_forest doc [] [].

(** ** ObjectHierarchy *)

(** [sep.join(l)] *)
Definition join (sep : string) (l : list string) : string := String.concat sep l.

(** The index: a dictionary from parent path to the objects filed under it,
    kept as an association list in order of first insertion. *)
Definition dict : Type := list (string * list obj).

Record ObjectHierarchy : Type := MkHierarchy {
  root : option obj;
  maxlvl : Z;
  sep : ascii;
  entries : dict
}.

(** The path separator ['/'], a one-character string. *)
Definition slash : ascii := "/"%char.

Definition sep_string (c : ascii) : string := String c EmptyString.

(** [if k not in h: h[k] = []] followed by [h[k].append(v)]. *)
Fixpoint dict_append (k : string) (v : obj) (h : dict) : dict :=
  match h with
  | [] => [(k, [v])]
  | (k', vs) :: h' =>
      if String.eqb k' k then (k', vs ++ [v]) :: h'
      else (k', vs) :: dict_append k v h'
  end.

(** [h.get(k)], with the empty list for an absent key. *)
Fixpoint dict_get (k : string) (h : dict) : list obj :=
  match h with
  | [] => []
  | (k', vs) :: h' => if String.eqb k' k then vs else dict_get k h'
  end.

Definition dict_keys (h : dict) : list string := map fst h.

(** The walk over the parents of an indexed object:
    [while opp: opp = opp.GetUp(); if opp: plist.append(opp.GetName())]. *)
Fixpoint parents_loop (fuel : nat) (opp : option obj) (plist : list string)
  : result (list string) :=
  match opp with
  | None => Ok plist
  | Some o =>
      match fuel with
      | O => OutOfFuel
      | S fuel' =>
          match GetUp o with
          | Some up => parents_loop fuel' (Some up) (plist ++ [GetName up])
          | None => parents_loop fuel' None plist
          end
      end
  end.

(** The key computed for [op] in the body of the constructor's loop.
    [GetName] on [None] raises [AttributeError]. *)
Definition parent_path (fuel : nat) (sp : ascii) (op : option obj) : result string :=
  plist <- parents_loop fuel op [] ;;
  plist' <- match plist with
            | [] =>
                match op with
                | Some o => Ok [GetName o]
                | None => Raise AttributeError
                end
            | _ => Ok plist
            end ;;
  Ok (join (sep_string sp) (rev plist')).

(** [filtertype is None or (filtertype and op.GetType() == filtertype)] *)
Definition passes_filter (filtertype : option Z) (op : option obj) : result bool :=
  match filtertype with
  | None => Ok true
  | Some ft =>
      if (ft =? 0)%Z then Ok false
      else
        match op with
        | Some o => Ok (GetType o =? ft)%Z
        | None => Raise AttributeError
        end
  end.

(** The body of the constructor's loop, on the pair [(op, lvl)]; the state
    is the dictionary under construction and [self.maxlvl]. *)
Definition index_step (fuel : nat) (sp : ascii) (filtertype : option Z)
    (st : dict * Z) (p : option obj * Z) : result (dict * Z) :=
  let '(hierarchy, mx) := st in
  let '(op, lvl) := p in
  pass <- passes_filter filtertype op ;;
  hierarchy' <-
    (if pass then
       key <- parent_path fuel sp op ;;
       match op with
       | Some o => Ok (dict_append key o hierarchy)
       | None => Raise AttributeError
       end
     else Ok hierarchy) ;;
  Ok (hierarchy', if (lvl >? mx)%Z then lvl else mx).

(** [for p in it: body], the body threading a state. *)
Fixpoint for_each {S : Type} (steps fuel : nat) (it : ObjectIterator)
    (body : S -> option obj * Z -> result S) (st : S) : result S :=
  match steps with
  | O => OutOfFuel
  | Datatypes.S steps' =>
      match next fuel it with
      | (it', Ok p) => st' <- body st p ;; for_each steps' fuel it' body st'
      | (_, Raise StopIteration) => Ok st
      | (_, Raise e) => Raise e
      | (_, OutOfFuel) => OutOfFuel
      | (_, Unmodelled) => Unmodelled
      end
  end.

(** The object the constructor starts from and its [children_only] flag. *)
Definition snapshot_start (doc : document) (rootobj : option obj) : option obj * bool :=
  match rootobj with
  | None => (GetFirstObject doc, false)
  | Some r => (Some r, true)
  end.

(** [ObjectHierarchy.__init__(rootobj, filtertype)]; [doc] is the active
    document. *)
Definition ObjectHierarchy_init (fuel : nat) (doc : document)
    (rootobj : option obj) (filtertype : option Z) : result ObjectHierarchy :=
  let '(rootobj', children_only) := snapshot_start doc rootobj in
  it <- ObjectIterator_init fuel rootobj' StopNone children_only (-1) ;;
  st <- for_each fuel fuel it (index_step fuel slash filtertype) (([] : dict), (-1)%Z) ;;
  Ok (MkHierarchy rootobj' (snd st) slash (fst st)).

(** *** The index, described independently of the loop *)

(** The names of all ancestors of an object, from the top of the document
    down to its parent. *)
Definition ancestor_names (o : obj) : list string := rev (map f_name (above o)).

(** The key an object is filed under. *)
Definition path_key (o : obj) : string :=
  join (sep_string slash)
    (match ancestor_names o with
     | [] => [GetName o]
     | ns => ns
     end).

(** Filing a list of objects, one after the other, each under its key. *)
Definition file_all (key : obj -> string) (os : list obj) : dict :=
  fold_left (fun h o => dict_append (key o) o h) os [].

Definition total_filed (h : dict) : nat :=
  fold_right (fun e n => (List.length (snd e) + n)%nat) O h.

(** C4 as worded: the walk from the node upward stops at the snapshot root
    and leaves it out. *)
Fixpoint names_below_root (fuel : nat) (snapshot_root o : obj) : list string :=
  match fuel with
  | O => []
  | S fuel' =>
      match GetUp o with
      | None => []
      | Some up =>
          if obj_eqb up snapshot_root then []
          else GetName up :: names_below_root fuel' snapshot_root up
      end
  end.

Definition worded_parent_path (snapshot_root o : obj) : string :=
  join (sep_string slash)
    (match rev (names_below_root (S (depth o)) snapshot_root o) with
     | [] => [GetName o]
     | ns => ns
     end).

(** Running a loop body over a list of produced elements. *)
Fixpoint fold_result {S A : Type} (body : S -> A -> result S) (l : list A) (st : S)
  : result S :=
  match l with
  | [] => Ok st
  | a :: l' => st' <- body st a ;; fold_result body l' st'
  end.

(** The objects a snapshot's constructor walks over. *)
Definition snapshot_objs (start : obj) (children_only : bool) : list obj :=
  if children_only then descendants start else subtree start ++ after start.

(** Whether an object passes the constructor's type filter. *)
Definition type_passes (filtertype : option Z) (o : obj) : bool :=
  match filtertype with
  | None => true
  | Some ft => negb (ft =? 0)%Z && (GetType o =? ft)%Z
  end.

(** ** Strings, as [ObjectHierarchy.get] uses them *)

(** The characters [str.strip()] removes: space, tab, newline, carriage
    return, vertical tab, form feed. *)
Definition is_space (c : ascii) : bool :=
  match nat_of_ascii c with
  | 32 | 9 | 10 | 13 | 11 | 12 => true
  | _ => false
  end%nat.

Fixpoint lstrip (s : string) : string :=
  match s with
  | EmptyString => EmptyString
  | String c s' => if is_space c then lstrip s' else s
  end.

Fixpoint rstrip (s : string) : string :=
  match s with
  | EmptyString => EmptyString
  | String c s' =>
      match rstrip s' with
      | EmptyString => if is_space c then EmptyString else String c EmptyString
      | r => String c r
      end
  end.

(** [s.strip()] *)
Definition strip (s : string) : string := rstrip (lstrip s).

(** [sub in s] *)
Fixpoint contains (sub s : string) : bool :=
  String.prefix sub s ||
  match s with
  | EmptyString => false
  | String _ s' => contains sub s'
  end.

(** [s.split(sp)] for a one-character separator. *)
Fixpoint split (sp : ascii) (s : string) : list string :=
  match s with
  | EmptyString => [EmptyString]
  | String c s' =>
      if Ascii.eqb c sp then EmptyString :: split sp s'
      else
        match split sp s' with
        | w :: ws => String c w :: ws
        | [] => [String c EmptyString]
        end
  end.

(** [s.replace(c, by)] for a one-character [c]. *)
Fixpoint replace (c : ascii) (by_ : string) (s : string) : string :=
  match s with
  | EmptyString => EmptyString
  | String x s' =>
      if Ascii.eqb x c then by_ ++ replace c by_ s'
      else String x (replace c by_ s')
  end.

(** ** Resolution of '..' segments *)

(** The loop [for comp in reversed(comps)] of [get], run over the reversed
    segment list: the state is the [skip] flag and [resolved_comps]. *)
Fixpoint resolve_scan (comps : list string) (skip : bool) (resolved : list string)
  : bool * list string :=
  match comps with
  | [] => (skip, resolved)
  | comp :: rest =>
      if String.eqb comp ".." then resolve_scan rest true resolved
      else if skip then resolve_scan rest false resolved
      else resolve_scan rest false (resolved ++ [comp])
  end.

(** The body of [if '..' in path:]: split, scan, reverse, join. *)
Definition resolve_dotdot (sp : ascii) (path : string) : string :=
  join (sep_string sp) (rev (snd (resolve_scan (rev (split sp path)) false []))).

(** The path [get] goes on with after [strip] and the '..' step. *)
Definition resolved_path (sp : ascii) (path : string) : string :=
  let path := strip path in
  if contains ".." path then resolve_dotdot sp path else path.

(** The resolution as worded: a segment stays when it is not '..' and the
    segment right after it is not '..'. *)
Fixpoint drop_dotdot (comps : list string) : list string :=
  match comps with
  | [] => []
  | c :: rest =>
      if String.eqb c ".." then drop_dotdot rest
      else
        match rest with
        | d :: _ => if String.eqb d ".." then drop_dotdot rest else c :: drop_dotdot rest
        | [] => [c]
        end
  end.

(** Whether the first segment is '..'. *)
Definition starts_with_dotdot (comps : list string) : bool :=
  match comps with
  | c :: _ => String.eqb c ".."
  | [] => false
  end.

Definition count_dotdot (comps : list string) : nat :=
  List.length (filter (fun c => String.eqb c "..") comps).

Definition count_other (comps : list string) : nat :=
  List.length (filter (fun c => negb (String.eqb c "..")) comps).

(** ** Regular expressions: the modelled fragment of [re] *)

Inductive charset : Type :=
| Lit (c : ascii)
| AnyButNewline.

Inductive repeat : Type := One | Opt | Star | Plus.

(** [Bol] is [^], [Eol] is [$], [Rep r greedy cs] a character or [.] with
    its repeat operator ([greedy = false] for the lazy forms [*?], [+?],
    [??]). *)
Inductive item : Type :=
| Bol
| Eol
| Rep (r : repeat) (greedy : bool) (cs : charset).

(** A pattern is a list of alternatives, each a sequence of items. *)
Definition pattern : Type := list (list item).

Definition repeat_of (c : ascii) : option repeat :=
  match c with
  | "*"%char => Some Star
  | "+"%char => Some Plus
  | "?"%char => Some Opt
  | _ => None
  end.

(** The parser.  [cur] is the current alternative, reversed; [done] the
    finished alternatives, reversed.  A repeat operator with nothing to
    repeat (at the start of an alternative or after an anchor) and a repeat
    of a repeat are errors of [re]; brackets, braces, parentheses and
    backslash are outside the fragment. *)
Fixpoint re_parse (s : string) (cur : list item) (done : list (list item))
  : result pattern :=
  match s with
  | EmptyString => Ok (rev (rev cur :: done))
  | String c s' =>
      match repeat_of c with
      | Some r =>
          match cur with
          | Rep One true cs :: cur' =>
              match s' with
              | String "?"%char s'' => re_parse s'' (Rep r false cs :: cur') done
              | _ => re_parse s' (Rep r true cs :: cur') done
              end
          | _ => Raise ReError
          end
      | None =>
          match c with
          | "|"%char => re_parse s' [] (rev cur :: done)
          | "."%char => re_parse s' (Rep One true AnyButNewline :: cur) done
          | "^"%char => re_parse s' (Bol :: cur) done
          | "$"%char => re_parse s' (Eol :: cur) done
          | "["%char | "]"%char | "{"%char | "}"%char
          | "("%char | ")"%char | "\"%char => Unmodelled
          | _ => re_parse s' (Rep One true (Lit c) :: cur) done
          end
      end
  end.

(** [re.compile(pat)] *)
Definition re_compile (pat : string) : result pattern := re_parse pat [] [].

Definition newline : ascii := "010"%char.

Definition in_charset (cs : charset) (c : ascii) : bool :=
  match cs with
  | Lit x => Ascii.eqb c x
  | AnyButNewline => negb (Ascii.eqb c newline)
  end.

(** [$]: at the end of the string, or just before a newline that ends it. *)
Definition at_end (s : string) : bool :=
  match s with
  | EmptyString => true
  | String c EmptyString => Ascii.eqb c newline
  | _ => false
  end.

(** Zero or more characters of [cs], then [k] on what is left. *)
Fixpoint match_star (cs : charset) (k : nat -> string -> bool) (pos : nat) (s : string)
  : bool :=
  k pos s ||
  match s with
  | EmptyString => false
  | String c s' => in_charset cs c && match_star cs k (S pos) s'
  end.

(** Whether the items can match a prefix of [s], which starts at offset
    [pos] of the subject.  Lazy and greedy repeats differ in which match is
    found first, not in whether there is one. *)
Fixpoint match_items (items : list item) (pos : nat) (s : string) : bool :=
  match items with
  | [] => true
  | Bol :: rest => (pos =? 0)%nat && match_items rest pos s
  | Eol :: rest => at_end s && match_items rest pos s
  | Rep One _ cs :: rest =>
      match s with
      | String c s' => in_charset cs c && match_items rest (S pos) s'
      | EmptyString => false
      end
  | Rep Opt _ cs :: rest =>
      match_items rest pos s ||
      match s with
      | String c s' => in_charset cs c && match_items rest (S pos) s'
      | EmptyString => false
      end
  | Rep Star _ cs :: rest => match_star cs (match_items rest) pos s
  | Rep Plus _ cs :: rest =>
      match s with
      | String c s' => in_charset cs c && match_star cs (match_items rest) (S pos) s'
      | EmptyString => false
      end
  end.

(** [bool(re.match(pat, s))]: a match anchored at the start of [s]. *)
Definition re_match (pat : string) (s : string) : result bool :=
  p <- re_compile pat ;;
  Ok (existsb (fun alt => match_items alt 0 s) p).

(** ** ObjectHierarchy.get *)

(** [path.replace('?', '.').replace('*', '.*?')] *)
Definition wildcard_to_re (path : string) : string :=
  replace "*"%char ".*?" (replace "?"%char "." path).

(** The pattern [get] builds from its argument: [strip], the '..' step, the
    choice between verbatim and wildcard, and the anchors.  [path[0]] on the
    empty string raises [IndexError]. *)
Definition pattern_of (sp : ascii) (path : string) : result string :=
  match resolved_path sp path with
  | EmptyString => Raise IndexError
  | String c rest as path' =>
      let pat :=
        if Ascii.eqb c "!"%char then rest
        else wildcard_to_re path' in
      Ok ("^" ++ pat ++ "$")%string
  end.

Section Matcher.
(** [re.match(pat, key)] as a truth value, or the exception [re] raises.
    What [get] does with the answers is the same for every such function;
    [re_match] above is the one for the modelled fragment of [re]. *)
Variable rematch : string -> string -> result bool.

(** [[key for key in keys if re.match(pat, key)]] *)
Fixpoint matching_keys (pat : string) (keys : list string) : result (list string) :=
  match keys with
  | [] => Ok []
  | key :: keys' =>
      b <- rematch pat key ;;
      rest <- matching_keys pat keys' ;;
      Ok (if b then key :: rest else rest)
  end.

(** [ObjectHierarchy.get(path)], with [rematch] for [re.match]. *)
Definition get_with (h : ObjectHierarchy) (path : string) : result (list obj) :=
  pat <- pattern_of (sep h) path ;;
  keys <- matching_keys pat (dict_keys (entries h)) ;;
  Ok (flat_map (fun key => dict_get key (entries h)) keys).

End Matcher.

(** [ObjectHierarchy.get(path)] *)
Definition get (h : ObjectHierarchy) (path : string) : result (list obj) :=
  get_with re_match h path.

(** Whether [get] counts [key] as a match for [path]. *)
Definition path_matches (path key : string) : result bool :=
  pat <- pattern_of slash path ;;
  re_match pat key.

(** A snapshot with the given keys, one placeholder object under each. *)
Definition snapshot_with_keys (keys : list string) : ObjectHierarchy :=
  MkHierarchy None 0 slash
    (map (fun k => (k, [Obj [] (Node k 0 []) [] []])) keys).

(** *** The wildcard language as worded *)

(** ['?'] is one character, ['*'] any run of characters, every other
    character itself; the whole key has to be used up. *)
Fixpoint wildcard_match (expr key : string) : bool :=
  match expr with
  | EmptyString =>
      match key with
      | EmptyString => true
      | _ => false
      end
  | String e expr' =>
      if Ascii.eqb e "?"%char then
        match key with
        | String _ key' => wildcard_match expr' key'
        | EmptyString => false
        end
      else if Ascii.eqb e "*"%char then
        (fix any_run (k : string) : bool :=
           wildcard_match expr' k ||
           match k with
           | String _ k' => any_run k'
           | EmptyString => false
           end) key
      else
        match key with
        | String c key' => Ascii.eqb c e && wildcard_match expr' key'
        | EmptyString => false
        end
  end.

(** The characters [re] gives a meaning of their own. *)
Definition is_special (c : ascii) : bool :=
  match c with
  | "."%char | "^"%char | "$"%char | "*"%char | "+"%char | "?"%char
  | "{"%char | "}"%char | "["%char | "]"%char | "\"%char | "|"%char
  | "("%char | ")"%char => true
  | _ => false
  end.

(** An expression made of ['?'], ['*'] and characters without a meaning of
    their own in [re]. *)
Fixpoint plain_wildcard (expr : string) : bool :=
  match expr with
  | EmptyString => true
  | String c expr' =>
      (Ascii.eqb c "?"%char || Ascii.eqb c "*"%char || negb (is_special c)) &&
      plain_wildcard expr'
  end.

Fixpoint no_newline (s : string) : bool :=
  match s with
  | EmptyString => true
  | String c s' => negb (Ascii.eqb c newline) && no_newline s'
  end.

(** The items a wildcard expression is compiled to. *)
Definition item_of (c : ascii) : item :=
  if Ascii.eqb c "?"%char then Rep One true AnyButNewline
  else if Ascii.eqb c "*"%char then Rep Star false AnyButNewline
  else Rep One true (Lit c).

Fixpoint items_of (expr : string) : list item :=
  match expr with
  | EmptyString => []
  | String c expr' => item_of c :: items_of expr'
  end.

(** ** A sample document: R with children A (child A1) and B, then S *)

Definition tA1 : tree := Node "A1" 5100 [].
Definition tA : tree := Node "A" 5140 [tA1].
Definition tB : tree := Node "B" 5100 [].
Definition tR : tree := Node "R" 5140 [tA; tB].
Definition tS : tree := Node "S" 5100 [].
Definition sample_doc : document := [tR; tS].

Definition oR : obj := Obj [] tR [tS] [].
Definition oS : obj := Obj [tR] tS [] [].
Definition oA : obj := Obj [] tA [tB] [Frame "R" 5140 [] [tS]].
Definition oB : obj := Obj [tA] tB [] [Frame "R" 5140 [] [tS]].
Definition oA1 : obj := Obj [] tA1 [] [Frame "A" 5140 [] [tB]; Frame "R" 5140 [] [tS]].

(** ** Helpers for statements about iterators *)

(** The iterator [it] after [n] calls of [next], whatever they returned. *)
Fixpoint call_next (n fuel : nat) (it : ObjectIterator) : ObjectIterator :=
  match n with
  | O => it
  | S n' => call_next n' fuel (fst (next fuel it))
  end.


(** [it] with another stop list. *)
Definition set_stop (it : ObjectIterator) (stop : list (option obj)) : ObjectIterator :=
  MkIter (curobj it) (curlvl it) (childrenonly it) stop (init it).


(** [it] with its level moved by [k], and a result of [next] likewise. *)
Definition shift_level (k : Z) (it : ObjectIterator) : ObjectIterator :=
  MkIter (curobj it) (curlvl it + k)%Z (childrenonly it) (stopobjs it) (init it).

Definition shift_yield (k : Z) (r : result (option obj * Z)) : result (option obj * Z) :=
  match r with
  | Ok (o, lvl) => Ok (o, (lvl + k)%Z)
  | other => other
  end.


(** ** findObject *)

(** The [start] argument: absent, the name of an object, or an object. *)
Inductive startarg : Type :=
| StartNone
| StartName (n : string)
| StartObj (o : obj).

(** [matchfunc and matchfunc(curname, name, ...)] or else [curname == name];
    [matchfunc] is [None] when no function is given. *)
Definition name_matches (matchfunc : option (string -> string -> bool))
    (name curname : string) : bool :=
  match matchfunc with
  | Some f => f curname name || String.eqb curname name
  | None => String.eqb curname name
  end.

(** The loop [while obj: ...; obj = getNextObject(obj, startop)]. *)
Fixpoint findObject_loop (steps fuel : nat)
    (matchfunc : option (string -> string -> bool)) (name : string)
    (startop : obj) (o : option obj) : result (option obj) :=
  match o with
  | None => Ok None
  | Some o' =>
      match steps with
      | O => OutOfFuel
      | S steps' =>
          if name_matches matchfunc name (GetName o') then Ok (Some o')
          else
            nxt <- getNextObject fuel (Some o') (StopObj startop) ;;
            findObject_loop steps' fuel matchfunc name startop nxt
      end
  end.

Section FindObject.
(** [doc.SearchObject(name)], a service of the host. *)
Variable SearchObject : document -> string -> option obj.

(** The object the search starts from. *)
Definition find_start (d : document) (start : startarg) : option obj :=
  match start with
  | StartNone => GetFirstObject d
  | StartName n => SearchObject d n
  | StartObj o => Some o
  end.

(** [findObject(name, start, matchfunc)]; [doc] is the active document,
    [None] when there is none; [name] may be [None]. *)
Definition findObject (fuel : nat) (doc : option document) (name : option string)
    (start : startarg) (matchfunc : option (string -> string -> bool))
  : result (option obj) :=
  match name with
  | None => Ok None
  | Some name' =>
      match doc with
      | None => Ok None
      | Some d =>
          match find_start d start with
          | None => Ok None
          | Some startop =>
              if name_matches matchfunc name' (GetName startop) then Ok (Some startop)
              else
                o <- getNextObject fuel (Some startop) (StopObj startop) ;;
                findObject_loop fuel fuel matchfunc name' startop o
          end
      end
  end.
End FindObject.


(** ** ObjectEntry *)

(** [c * n] for a string [c] and an integer [n]: [n] copies, none for
    [n <= 0]. *)
Fixpoint repeat_string (c : string) (n : nat) : string :=
  match n with
  | O => EmptyString
  | S n' => (c ++ repeat_string c n')%string
  end.

Definition str_times (c : string) (n : Z) : string := repeat_string c (Z.to_nat n).

Module ObjectEntry.

Record t : Type := Make {
  op : obj;
  name : string;
  curlvl : Z;
  lvl : Z;
  parents : option (list obj)
}.

(** [ObjectEntry.__init__(op, lvl, parents)]; [GetName] on [None] raises
    [AttributeError]. *)
Definition init (fuel : nat) (o : option obj) (level : Z) (ps : option (list obj))
  : result t :=
  match o with
  | None => Raise AttributeError
  | Some o' =>
      cur <- (if (level <? 0)%Z then level_loop fuel (Some o') level else Ok level) ;;
      Ok (Make o' (GetName o') cur cur ps)
  end.

(** [ObjectEntry.__str__] *)
Definition str (e : t) : string :=
  (str_times (str_times " " 4) (lvl e) ++ name e)%string.

End ObjectEntry.


(** An expression without any character that has a meaning of its own in
    [re] (so without wildcards too). *)
Fixpoint literal (expr : string) : bool :=
  match expr with
  | EmptyString => true
  | String c expr' => negb (is_special c) && literal expr'
  end.

(** Whether [key] is [e] or [e] followed by one newline. *)
Definition is_key_or_newline (e key : string) : bool :=
  String.eqb key e || String.eqb key (e ++ String newline EmptyString).


(** The characters of an expression that, translated, still stand for
    themselves among others: ['.'], ['?'], ['*'] and the characters without
    a meaning of their own in [re]. *)
Definition matches_itself (c : ascii) : bool :=
  Ascii.eqb c "."%char || Ascii.eqb c "?"%char || Ascii.eqb c "*"%char ||
  negb (is_special c).

Fixpoint self_matching (expr : string) : bool :=
  match expr with
  | EmptyString => true
  | String c expr' => matches_itself c && self_matching expr'
  end.

(** The items such an expression is compiled to. *)
Definition re_item_of (c : ascii) : item :=
  if Ascii.eqb c "."%char then Rep One true AnyButNewline else item_of c.

Fixpoint re_items_of (expr : string) : list item :=
  match expr with
  | EmptyString => []
  | String c expr' => re_item_of c :: re_items_of expr'
  end.


(** ** ObjectHierarchy.pprint *)








(** ** recurseBranch *)

(** [recurseBranch(obj)].  The [return] inside the loop ends it in its first
    round: with a first child the function calls itself on that child's next
    sibling, without one it returns [None].  [obj.GetDown()] on [None]
    raises [AttributeError]. *)
Fixpoint recurseBranch (fuel : nat) (o : option obj) : result unit :=
  match o with
  | None => Raise AttributeError
  | Some o' =>
      match GetDown o' with
      | None => Ok tt
      | Some child =>
          match fuel with
          | O => OutOfFuel
          | S fuel' => recurseBranch fuel' (GetNext child)
          end
      end
  end.

(** Whether the chain of second children that starts at [t] ends at an
    object without children (and not at one with a single child). *)
Fixpoint second_children_end_childless (t : tree) : bool :=
  match t with
  | Node _ _ [] => true
  | Node _ _ [_] => false
  | Node _ _ (_ :: t2 :: _) => second_children_end_childless t2
  end.


(** ** ObjectHierarchy._strxform *)

(** [s[:-2]] *)
Definition chop2 (s : string) : string := substring 0 (String.length s - 2) s.

Section StrXform.
(** Python's [repr] of a string. *)
Variable repr : string -> string.

(** [for op in v: result += "%r, " % op.GetName()] *)
Definition strxform_names (v : list obj) (result : string) : string :=
  fold_left (fun res o => (res ++ repr (GetName o) ++ ", ")%string) v result.

(** The body of the loop over [self.entries.items()]. *)
Definition strxform_entry (result : string) (e : string * list obj) : string :=
  (chop2 (strxform_names (snd e) (result ++ repr (fst e) ++ ": [")) ++ "], ")%string.

(** [ObjectHierarchy._strxform()], which [__str__] returns. *)
Definition _strxform (h : ObjectHierarchy) : string :=
  (chop2 (fold_left strxform_entry (entries h) "{") ++ "}")%string.

(** An entry written as in a dictionary display: the key, then the names
    filed under it as a list. *)
Definition entry_text (e : string * list obj) : string :=
  (repr (fst e) ++ ": [" ++
   join ", " (map (fun o => repr (GetName o)) (snd e)) ++ "]")%string.

End StrXform.


(** * Properties *)

(** ** Equality of handles is decided by [obj_eqb] *)

Lemma tree_eqb_unfold n1 y1 cs1 n2 y2 cs2 :
  tree_eqb (Node n1 y1 cs1) (Node n2 y2 cs2) =
  String.eqb n1 n2 && Z.eqb y1 y2 && forest_eqb cs1 cs2.
Proof.
  reflexivity.
Qed.

Lemma tree_eqb_eq t1 : forall t2, tree_eqb t1 t2 = true <-> t1 = t2.
Proof.
  induction t1 as [n1 y1 cs1 IH] using tree_ind. intros [n2 y2 cs2].
  rewrite tree_eqb_unfold, !andb_true_iff, String.eqb_eq, Z.eqb_eq.
  assert (Hf : forest_eqb cs1 cs2 = true <-> cs1 = cs2).
  { revert cs2. induction IH as [|a cs1 Ha _ IHcs]; intros [|b cs2]; simpl;
      try (split; intros; (reflexivity || discriminate)).
    rewrite andb_true_iff, Ha, IHcs. split.
    - intros [-> ->]. reflexivity.
    - intros E. injection E as -> ->. auto. }
  rewrite Hf. split.
  - intros [[-> ->] ->]. reflexivity.
  - intros E. injection E as -> -> ->. auto.
Qed.

Lemma forest_eqb_eq l1 : forall l2, forest_eqb l1 l2 = true <-> l1 = l2.
Proof.
  induction l1 as [|a l1 IH]; intros [|b l2]; simpl;
    try (split; intros; (reflexivity || discriminate)).
  rewrite andb_true_iff, tree_eqb_eq, IH. split.
  - intros [-> ->]. reflexivity.
  - intros E. injection E as -> ->. auto.
Qed.

Lemma frame_eqb_eq f1 f2 : frame_eqb f1 f2 = true <-> f1 = f2.
Proof.
  destruct f1 as [n1 y1 l1 r1], f2 as [n2 y2 l2 r2]. unfold frame_eqb. simpl.
  rewrite !andb_true_iff, String.eqb_eq, Z.eqb_eq, !forest_eqb_eq. split.
  - intros [[[-> ->] ->] ->]. reflexivity.
  - intros E. injection E as -> -> -> ->. auto.
Qed.

Lemma frames_eqb_eq l1 : forall l2, frames_eqb l1 l2 = true <-> l1 = l2.
Proof.
  induction l1 as [|a l1 IH]; intros [|b l2]; simpl;
    try (split; intros; (reflexivity || discriminate)).
  rewrite andb_true_iff, frame_eqb_eq, IH. split.
  - intros [-> ->]. reflexivity.
  - intros E. injection E as -> ->. auto.
Qed.

Lemma obj_eqb_eq o1 o2 : obj_eqb o1 o2 = true <-> o1 = o2.
Proof.
  destruct o1 as [l1 t1 r1 a1], o2 as [l2 t2 r2 a2]. unfold obj_eqb. simpl.
  rewrite !andb_true_iff, !forest_eqb_eq, tree_eqb_eq, frames_eqb_eq. split.
  - intros [[[-> ->] ->] ->]. reflexivity.
  - intros E. injection E as -> -> -> ->. auto.
Qed.

(** ** Navigation *)

Lemma GetUp_GetDown o c : GetDown o = Some c -> GetUp c = Some o.
Proof.
  destruct o as [l [n y cs] r ab]. unfold GetDown. simpl.
  destruct cs as [|c0 cs]; [discriminate|]. intros E. injection E as <-.
  reflexivity.
Qed.

Lemma GetUp_GetNext o n : GetNext o = Some n -> GetUp n = GetUp o.
Proof.
  destruct o as [l t r ab]. unfold GetNext. simpl.
  destruct r as [|r0 rs]; [discriminate|]. intros E. injection E as <-.
  unfold GetUp. simpl. destruct ab as [|fr ab]; [reflexivity|].
  now rewrite <- app_assoc.
Qed.

Lemma depth_GetDown o c : GetDown o = Some c -> depth c = S (depth o).
Proof.
  destruct o as [l [n y cs] r ab]. unfold GetDown. simpl.
  destruct cs; [discriminate|]. intros E. injection E as <-. reflexivity.
Qed.

Lemma depth_GetNext o n : GetNext o = Some n -> depth n = depth o.
Proof.
  destruct o as [l t r ab]. unfold GetNext. simpl.
  destruct r; [discriminate|]. intros E. injection E as <-. reflexivity.
Qed.

Lemma depth_GetUp o u : GetUp o = Some u -> depth o = S (depth u).
Proof.
  destruct o as [l t r ab]. unfold GetUp. simpl.
  destruct ab; [discriminate|]. intros E. injection E as <-. reflexivity.
Qed.

Lemma GetUp_None_depth o : GetUp o = None <-> depth o = 0%nat.
Proof.
  destruct o as [l t r ab]. unfold GetUp, depth. simpl.
  destruct ab; split; intros; try reflexivity; discriminate.
Qed.

(** ** The pre-order listing, unfolded along the navigation *)

Lemma objs_tree_unfold n y cs l r ab :
  objs_tree (Node n y cs) l r ab =
  Obj l (Node n y cs) r ab :: objs_forest cs [] (Frame n y l r :: ab).
Proof.
  simpl. f_equal. generalize (@nil tree).
  induction cs as [|c cs IH]; intros l'; simpl; [reflexivity|].
  now rewrite IH.
Qed.

Lemma subtree_GetDown o c :
  GetDown o = Some c -> subtree o = o :: subtree c ++ later_siblings c.
Proof.
  destruct o as [l [n y cs] r ab]. unfold GetDown, subtree, later_siblings. simpl focus.
  destruct cs as [|c0 cs]; [discriminate|]. intros E. injection E as <-.
  rewrite objs_tree_unfold. reflexivity.
Qed.

Lemma subtree_leaf o : GetDown o = None -> subtree o = [o].
Proof.
  destruct o as [l [n y cs] r ab]. unfold GetDown, subtree. simpl focus.
  destruct cs; [|discriminate]. intros _. rewrite objs_tree_unfold. reflexivity.
Qed.

Lemma subtree_head o : exists ds, subtree o = o :: ds.
Proof.
  destruct o as [l [n y cs] r ab]. unfold subtree. simpl focus.
  rewrite objs_tree_unfold. eauto.
Qed.

Lemma subtree_descendants o : subtree o = o :: descendants o.
Proof. unfold descendants. destruct (subtree_head o) as [ds ->]. reflexivity. Qed.

Lemma later_siblings_GetNext o n :
  GetNext o = Some n -> later_siblings o = subtree n ++ later_siblings n.
Proof.
  destruct o as [l t r ab]. unfold GetNext, later_siblings, subtree. simpl.
  destruct r as [|r0 rs]; [discriminate|]. intros E. injection E as <-.
  reflexivity.
Qed.

Lemma later_siblings_last o : GetNext o = None -> later_siblings o = [].
Proof.
  destruct o as [l t r ab]. unfold GetNext, later_siblings. simpl.
  destruct r; [reflexivity|discriminate].
Qed.

Lemma after_below_unfold d o :
  after_below d o =
  if (depth o <? d)%nat then []
  else later_siblings o ++
       match GetUp o with Some u => after_below d u | None => [] end.
Proof.
  destruct o as [l t r ab]. unfold after_below, depth, later_siblings, GetUp. simpl.
  destruct ab as [|fr ab]; simpl; reflexivity.
Qed.

Lemma after_below_cut d o : (depth o < d)%nat -> after_below d o = [].
Proof.
  intros H. rewrite after_below_unfold.
  apply Nat.ltb_lt in H. now rewrite H.
Qed.

Lemma after_below_GetNext d o n :
  (d <= depth o)%nat -> GetNext o = Some n ->
  after_below d o = subtree n ++ after_below d n.
Proof.
  intros Hd E. rewrite (after_below_unfold d o), (after_below_unfold d n).
  rewrite (depth_GetNext _ _ E), (GetUp_GetNext _ _ E).
  apply Nat.ltb_ge in Hd. rewrite Hd.
  now rewrite (later_siblings_GetNext _ _ E), <- app_assoc.
Qed.

Lemma after_below_GetUp d o u :
  (d <= depth o)%nat -> GetNext o = None -> GetUp o = Some u ->
  after_below d o = after_below d u.
Proof.
  intros Hd E Eu. rewrite (after_below_unfold d o), Eu.
  apply Nat.ltb_ge in Hd. rewrite Hd.
  now rewrite (later_siblings_last _ E).
Qed.

Lemma after_below_top d o :
  GetNext o = None -> GetUp o = None -> after_below d o = [].
Proof.
  intros E Eu. rewrite after_below_unfold, Eu, (later_siblings_last _ E).
  now destruct (depth o <? d)%nat.
Qed.

Lemma after_below_GetDown d o c :
  (d <= depth c)%nat -> GetDown o = Some c ->
  after_below d c = later_siblings c ++ after_below d o.
Proof.
  intros Hd E. rewrite (after_below_unfold d c), (GetUp_GetDown _ _ E).
  apply Nat.ltb_ge in Hd. now rewrite Hd.
Qed.

(** ** One step of the iterator follows the pre-order

    The traversal is analysed once for both scoping modes.  [stop] is the
    stop list, [inside] the region the traversal stays in and [d] the depth
    below which the ascent meets a stop object. *)

Lemma py_in_single x s : py_in x [Some s] = true <-> x = Some s.
Proof.
  unfold py_in. simpl. rewrite orb_false_r. destruct x as [o|]; simpl.
  - rewrite obj_eqb_eq. split; [intros ->; reflexivity | intros E; now injection E].
  - split; discriminate.
Qed.

Section Traversal.
Variable stop : list (option obj).
Variable d : nat.
Variable inside : obj -> Prop.

Hypothesis stop_None : py_in None stop = false.
Hypothesis stop_out :
  forall q, inside q -> (d <= depth q)%nat -> py_in (Some q) stop = false.
Hypothesis stop_in :
  forall q u, inside q -> (d <= depth q)%nat -> GetUp q = Some u ->
              (depth u < d)%nat -> py_in (Some u) stop = true.
Hypothesis inside_up :
  forall q u, inside q -> GetUp q = Some u -> (d <= depth u)%nat -> inside u.
Hypothesis inside_next :
  forall q n, inside q -> (d <= depth q)%nat -> GetNext q = Some n -> inside n.
Hypothesis inside_down :
  forall q c, inside q -> (d <= depth q)%nat -> GetDown q = Some c -> inside c.

Lemma ascend_spec fuel : forall op lvl,
  inside op -> (d <= depth op)%nat -> (depth op < fuel)%nat ->
  (exists lvl', ascend fuel stop op lvl = (lvl', Raise StopIteration) /\
                after_below d op = []) \/
  (exists op', ascend fuel stop op lvl = (level_at lvl op op', Ok op') /\
               inside op' /\ (d <= depth op')%nat /\ (depth op' <= depth op)%nat /\
               after_below d op' = after_below d op /\
               (GetNext op' = None -> GetUp op' = None)).
Proof.
  induction fuel as [|fuel IH]; intros op lvl Hin Hd Hf; [lia|].
  simpl. destruct (GetNext op) as [n|] eqn:En.
  - right. exists op. unfold level_at. repeat split; auto; try lia; try congruence.
    f_equal. lia.
  - destruct (GetUp op) as [u|] eqn:Eu.
    + rewrite (stop_out _ Hin Hd). simpl.
      pose proof (depth_GetUp _ _ Eu) as Hdu.
      destruct (Nat.lt_ge_cases (depth u) d) as [Hlt|Hge].
      * rewrite (stop_in _ _ Hin Hd Eu Hlt). left. eexists. split; [reflexivity|].
        rewrite (after_below_GetUp _ _ _ Hd En Eu). now apply after_below_cut.
      * rewrite (stop_out _ (inside_up _ _ Hin Eu Hge) Hge).
        destruct (IH u (lvl - 1)%Z (inside_up _ _ Hin Eu Hge) Hge) as [[lvl' [E1 E2]]|[op' H]];
          [lia| |].
        -- left. exists lvl'. split; [exact E1|].
           now rewrite (after_below_GetUp _ _ _ Hd En Eu).
        -- destruct H as (E1 & H1 & H2 & H3 & H4 & H5). right. exists op'.
           rewrite E1. unfold level_at. repeat split; auto; try lia.
           ++ f_equal. lia.
           ++ now rewrite (after_below_GetUp _ _ _ Hd En Eu).
    + right. exists op. unfold level_at. repeat split; auto; try lia.
      f_equal. lia.
Qed.

Lemma following_GetDown o c :
  (d <= depth o)%nat -> GetDown o = Some c -> following d o = c :: following d c.
Proof.
  intros Hd E. unfold following, descendants.
  rewrite (subtree_GetDown _ _ E). simpl.
  rewrite (subtree_descendants c). simpl.
  rewrite (after_below_GetDown d o c); [|rewrite (depth_GetDown _ _ E); lia|exact E].
  now rewrite <- !app_assoc.
Qed.

Lemma following_leaf o : GetDown o = None -> following d o = after_below d o.
Proof.
  intros E. unfold following, descendants. now rewrite (subtree_leaf _ E).
Qed.

Lemma following_GetNext o n :
  (d <= depth o)%nat -> GetNext o = Some n -> after_below d o = n :: following d n.
Proof.
  intros Hd E. rewrite (after_below_GetNext _ _ _ Hd E), (subtree_descendants n).
  reflexivity.
Qed.

(** A call of [next] on a started iterator standing on [o] either finds
    nothing left and raises [StopIteration], or moves to the head of
    [following d o]. *)
Lemma next_spec fuel o lvl co :
  inside o -> (d <= depth o)%nat -> (depth o < fuel)%nat ->
  (following d o = [] /\
   exists it', next fuel (MkIter (Some o) lvl co stop false) = (it', Raise StopIteration)) \/
  (exists q, following d o = q :: following d q /\ inside q /\
             (d <= depth q)%nat /\ (depth q <= S (depth o))%nat /\
             next fuel (MkIter (Some o) lvl co stop false) =
             (MkIter (Some q) (level_at lvl o q) co stop false,
              Ok (Some q, level_at lvl o q))).
Proof.
  intros Hin Hd Hf. unfold next. simpl.
  destruct (GetDown o) as [c|] eqn:Ec.
  - assert (Hn : py_in (GetNext o) stop = false).
    { destruct (GetNext o) as [n|] eqn:En; [|exact stop_None].
      apply stop_out; [now apply (inside_next _ _ Hin Hd En)|].
      rewrite (depth_GetNext _ _ En). exact Hd. }
    pose proof (depth_GetDown _ _ Ec) as Hdc.
    rewrite Hn, (stop_out _ (inside_down _ _ Hin Hd Ec)) by lia. simpl.
    right. exists c.
    split; [now apply following_GetDown|].
    split; [now apply (inside_down _ _ Hin Hd Ec)|].
    split; [lia|]. split; [lia|].
    replace (level_at lvl o c) with (lvl + 1)%Z
      by (unfold level_at; rewrite Hdc; lia).
    reflexivity.
  - rewrite (stop_out _ Hin Hd), (following_leaf _ Ec).
    destruct (ascend_spec _ _ lvl Hin Hd Hf) as [[lvl' [E1 E2]]|[op' H]].
    + rewrite E1. left. split; [exact E2|]. eexists. reflexivity.
    + destruct H as (E1 & H1 & H2 & H3 & H4 & H5). rewrite E1, <- H4.
      destruct (GetNext op') as [n|] eqn:En.
      * pose proof (depth_GetNext _ _ En) as Hdn.
        rewrite (stop_out _ (inside_next _ _ H1 H2 En)) by lia.
        right. exists n.
        split; [now apply following_GetNext|].
        split; [now apply (inside_next _ _ H1 H2 En)|].
        split; [lia|]. split; [lia|].
        replace (level_at lvl o n) with (level_at lvl o op')
          by (unfold level_at; rewrite Hdn; reflexivity).
        reflexivity.
      * left. split; [|eexists; reflexivity].
        apply after_below_top; auto.
Qed.

Lemma iterate_loop_spec steps fuel : forall o lvl co,
  inside o -> (d <= depth o)%nat ->
  (depth o + List.length (following d o) < fuel)%nat ->
  (List.length (following d o) < steps)%nat ->
  iterate_loop steps fuel (MkIter (Some o) lvl co stop false) =
  Ok (map (fun q => (Some q, level_at lvl o q)) (following d o)).
Proof.
  induction steps as [|steps IH]; intros o lvl co Hin Hd Hf Hs; [lia|].
  simpl iterate_loop.
  destruct (next_spec fuel o lvl co Hin Hd) as [[E [it' En]]|[q H]]; [lia| |].
  - rewrite En, E. reflexivity.
  - destruct H as (E & H1 & H2 & H3 & En). rewrite En.
    rewrite E in Hf, Hs. simpl in Hf, Hs.
    rewrite (IH q (level_at lvl o q) co H1 H2) by lia.
    rewrite E. simpl. f_equal. f_equal. apply map_ext. intros a.
    unfold level_at. f_equal. lia.
Qed.
End Traversal.

(** ** Sizes, document order and absence of repetitions *)

Lemma tree_size_unfold n y cs : tree_size (Node n y cs) = S (forest_size cs).
Proof. reflexivity. Qed.

Lemma forest_size_app l1 l2 :
  forest_size (l1 ++ l2) = (forest_size l1 + forest_size l2)%nat.
Proof. induction l1 as [|a l1 IH]; simpl; [reflexivity|]. rewrite IH. lia. Qed.

Lemma forest_size_rev l : forest_size (rev l) = forest_size l.
Proof.
  induction l as [|a l IH]; simpl; [reflexivity|].
  rewrite forest_size_app, IH. simpl. lia.
Qed.

Lemma index_from_cons ab t l :
  index_from ab (t :: l) = (tree_size t + index_from ab l)%nat.
Proof. destruct ab; simpl; lia. Qed.

Lemma index_objs_forest_with
    (IH : forall c l r ab, map index (objs_tree c l r ab) = seq (index_from ab l) (tree_size c))
    ts : forall l ab,
  map index (objs_forest ts l ab) = seq (index_from ab l) (forest_size ts).
Proof.
  induction ts as [|c ts IHts]; intros l ab; simpl; [reflexivity|].
  rewrite map_app, IH, IHts, index_from_cons, seq_app.
  f_equal. f_equal. lia.
Qed.

Lemma index_objs_tree t : forall l r ab,
  map index (objs_tree t l r ab) = seq (index_from ab l) (tree_size t).
Proof.
  induction t as [n y cs IH] using tree_ind. intros l r ab.
  rewrite objs_tree_unfold, tree_size_unfold. simpl map. simpl seq. f_equal.
  assert (H : forall ts l' ab',
             Forall (fun c => forall l r ab,
                         map index (objs_tree c l r ab) = seq (index_from ab l) (tree_size c)) ts ->
             map index (objs_forest ts l' ab') = seq (index_from ab' l') (forest_size ts)).
  { induction ts as [|c ts IHts]; intros l' ab' Hts; simpl; [reflexivity|].
    inversion Hts as [|? ? Hc Hts']; subst.
    rewrite map_app, Hc, IHts, index_from_cons, seq_app by assumption.
    f_equal. f_equal. lia. }
  rewrite (H cs [] _ IH). simpl. f_equal; lia.
Qed.

Lemma index_objs_forest ts : forall l ab,
  map index (objs_forest ts l ab) = seq (index_from ab l) (forest_size ts).
Proof. apply index_objs_forest_with. intros. apply index_objs_tree. Qed.

Lemma length_objs_tree t l r ab : List.length (objs_tree t l r ab) = tree_size t.
Proof.
  rewrite <- (length_map index), index_objs_tree. apply length_seq.
Qed.

Lemma length_objs_forest ts l ab : List.length (objs_forest ts l ab) = forest_size ts.
Proof.
  rewrite <- (length_map index), index_objs_forest. apply length_seq.
Qed.

Lemma index_after_from ab : forall l t r,
  map index (after_from 0 ab l t r) =
  seq (index_from ab l + tree_size t) (List.length (after_from 0 ab l t r)).
Proof.
  induction ab as [|fr ab IH]; intros l t r.
  - simpl. rewrite !app_nil_r, index_objs_forest, length_objs_forest, index_from_cons.
    simpl. f_equal. lia.
  - simpl after_from. rewrite map_app, length_app, seq_app, IH.
    rewrite index_objs_forest, length_objs_forest, index_from_cons.
    f_equal; [f_equal; simpl; lia|]. f_equal.
    rewrite tree_size_unfold, forest_size_app, forest_size_rev. simpl. lia.
Qed.

Lemma index_traversal o :
  map index (subtree o ++ after o) =
  seq (index o) (List.length (subtree o ++ after o)).
Proof.
  unfold subtree, after, after_below, index.
  rewrite map_app, length_app, seq_app, index_objs_tree, index_after_from.
  now rewrite length_objs_tree.
Qed.

Lemma NoDup_traversal o : NoDup (subtree o ++ after o).
Proof.
  apply (NoDup_map_inv index). rewrite index_traversal. apply seq_NoDup.
Qed.

Lemma doc_size_split ab : forall l t r,
  forest_size (document_from ab l t r) =
  (index_from ab l + tree_size t + List.length (after_from 0 ab l t r))%nat.
Proof.
  induction ab as [|fr ab IH]; intros l t r.
  - simpl. rewrite app_nil_r, length_objs_forest, forest_size_app, forest_size_rev.
    simpl. lia.
  - simpl document_from. rewrite IH. simpl after_from.
    rewrite length_app, length_objs_forest, tree_size_unfold, forest_size_app,
      forest_size_rev. simpl. lia.
Qed.

Lemma depth_le_index_from ab : forall l, (List.length ab <= index_from ab l)%nat.
Proof.
  induction ab as [|fr ab IH]; intros l; simpl; [lia|].
  specialize (IH (f_left fr)). lia.
Qed.

(** The objects from [o] on, plus the depth of [o], fit in the document. *)
Lemma traversal_bound o :
  (depth o + List.length (subtree o ++ after o) <= doc_size o)%nat.
Proof.
  unfold doc_size, document_of, subtree, after, after_below, depth.
  rewrite doc_size_split, length_app, length_objs_tree.
  pose proof (depth_le_index_from (above o) (lefts o)). lia.
Qed.

(** ** The level computed by the constructor *)

Lemma level_loop_None fuel lvl : level_loop fuel None lvl = Ok lvl.
Proof. destruct fuel; reflexivity. Qed.

Lemma level_loop_spec fuel : forall o lvl,
  (depth o < fuel)%nat ->
  level_loop fuel (Some o) lvl = Ok (lvl + 1 + Z.of_nat (depth o))%Z.
Proof.
  induction fuel as [|fuel IH]; intros o lvl H; [lia|].
  simpl. destruct (GetUp o) as [u|] eqn:E.
  - pose proof (depth_GetUp _ _ E) as Hd.
    rewrite IH by lia. f_equal. lia.
  - apply GetUp_None_depth in E. rewrite level_loop_None, E. f_equal. lia.
Qed.

(** ** FullSubtree mode: [children_only=False], no stop objects *)

Lemma iterate_full fuel o lvl co :
  (depth o + List.length (subtree o ++ after o) < fuel)%nat ->
  iterate fuel (MkIter (Some o) lvl co [] true) =
  Ok (map (fun q => (Some q, level_at lvl o q)) (subtree o ++ after o)).
Proof.
  intros Hf. unfold iterate. destruct fuel as [|steps]; [lia|].
  rewrite subtree_descendants in *. simpl in Hf. rewrite length_app in Hf.
  simpl iterate_loop.
  unfold after in *.
  rewrite (iterate_loop_spec [] 0 (fun _ => True)); unfold following; auto;
    try (intros; lia); try (rewrite length_app; lia).
  simpl. do 3 f_equal. unfold level_at. lia.
Qed.

Lemma with_level_level_at startlvl o q :
  (Some q, level_at (startlvl + 1 + Z.of_nat (depth o))%Z o q) = with_level startlvl q.
Proof. unfold with_level, level_at. f_equal. lia. Qed.

Lemma traverse_full fuel o startlvl :
  (doc_size o < fuel)%nat ->
  traverse fuel (Some o) StopNone false startlvl =
  Ok (map (with_level startlvl) (subtree o ++ after o)).
Proof.
  intros Hf. pose proof (traversal_bound o) as Hb.
  unfold traverse, ObjectIterator_init.
  rewrite level_loop_spec by lia. simpl.
  rewrite iterate_full by lia. f_equal. apply map_ext. intros q.
  apply with_level_level_at.
Qed.

(** ** ChildrenOnly mode: [children_only=True], no stop objects *)

Lemma depth_up_n k : forall q a, up_n k q = Some a -> depth q = (depth a + k)%nat.
Proof.
  induction k as [|k IH]; intros q a E; simpl in E.
  - injection E as <-. lia.
  - destruct (GetUp q) as [u|] eqn:Eu; [|discriminate].
    rewrite (depth_GetUp _ _ Eu), (IH _ _ E). lia.
Qed.

Lemma up_n_self k o : up_n k o = Some o -> k = 0%nat.
Proof. intros E. apply depth_up_n in E. lia. Qed.

Lemma under_up s q u :
  under s q -> GetUp q = Some u -> (S (depth s) <= depth u)%nat -> under s u.
Proof.
  intros [k E] Eu H. destruct k as [|k].
  - simpl in E. injection E as ->. rewrite (depth_GetUp _ _ Eu) in H. lia.
  - simpl in E. rewrite Eu in E. now exists k.
Qed.

Lemma under_parent s q u :
  under s q -> (S (depth s) <= depth q)%nat -> GetUp q = Some u ->
  (depth u < S (depth s))%nat -> u = s.
Proof.
  intros [k E] Hq Eu Hu. pose proof (depth_up_n _ _ _ E) as Hk.
  pose proof (depth_GetUp _ _ Eu) as Hd.
  assert (k = 1%nat) as -> by lia.
  simpl in E. rewrite Eu in E. now injection E.
Qed.

Lemma under_next s q n :
  under s q -> (S (depth s) <= depth q)%nat -> GetNext q = Some n -> under s n.
Proof.
  intros [k E] Hq En. pose proof (depth_up_n _ _ _ E) as Hk.
  destruct k as [|k]; [lia|]. exists (S k). simpl in *.
  now rewrite (GetUp_GetNext _ _ En).
Qed.

Lemma under_down s q c : under s q -> GetDown q = Some c -> under s c.
Proof.
  intros [k E] Ec. exists (S k). simpl. now rewrite (GetUp_GetDown _ _ Ec).
Qed.

Lemma GetNext_neq o n : GetNext o = Some n -> n <> o.
Proof.
  destruct o as [l t r ab]. unfold GetNext. simpl.
  destruct r as [|r0 rs]; [discriminate|]. intros E. injection E as <-.
  intros H. injection H as Hl _ _.
  apply (f_equal (@List.length tree)) in Hl. simpl in Hl. lia.
Qed.

Lemma py_in_single_false x s : x <> Some s -> py_in x [Some s] = false.
Proof.
  intros H. destruct (py_in x [Some s]) eqn:E; [|reflexivity].
  apply py_in_single in E. contradiction.
Qed.

Lemma iterate_children fuel s lvl :
  (depth s + List.length (subtree s) < fuel)%nat ->
  iterate fuel (MkIter (Some s) lvl true [Some s] false) =
  Ok (map (fun q => (Some q, level_at lvl s q)) (descendants s)).
Proof.
  intros Hf. unfold iterate. destruct fuel as [|steps]; [lia|].
  simpl iterate_loop. unfold next. cbn [init curobj stopobjs curlvl childrenonly].
  destruct (GetDown s) as [c|] eqn:Ec.
  - pose proof (depth_GetDown _ _ Ec) as Hdc.
    assert (Hn : py_in (GetNext s) [Some s] = false).
    { apply py_in_single_false. intros E. now apply (GetNext_neq s s). }
    assert (Hc : py_in (Some c) [Some s] = false).
    { apply py_in_single_false. intros E. injection E as ->. lia. }
    rewrite Hn, Hc. cbn [orb].
    assert (Hfol : descendants s = c :: following (S (depth s)) c).
    { unfold following, descendants. rewrite (subtree_GetDown _ _ Ec). simpl.
      rewrite (subtree_descendants c). simpl.
      rewrite (after_below_GetDown (S (depth s)) s c) by (auto; lia).
      rewrite (after_below_cut (S (depth s)) s) by lia.
      now rewrite app_nil_r. }
    assert (Hlen : List.length (subtree s) = S (S (List.length (following (S (depth s)) c)))).
    { rewrite subtree_descendants, Hfol. reflexivity. }
    unfold set_cur. cbn [init curobj stopobjs curlvl childrenonly].
    rewrite (iterate_loop_spec [Some s] (S (depth s)) (under s)); try lia.
    + rewrite Hfol. simpl. f_equal. f_equal.
      * f_equal. unfold level_at. lia.
      * apply map_ext. intros q. f_equal. unfold level_at. lia.
    + reflexivity.
    + intros q Hq Hd. apply py_in_single_false. intros E. injection E as ->. lia.
    + intros q u Hq Hd Eu Hu. apply py_in_single. f_equal.
      now apply (under_parent s q u).
    + intros q u. apply under_up.
    + intros q n. apply under_next.
    + intros q c' Hq _. now apply under_down.
    + exists 1%nat. simpl. now rewrite (GetUp_GetDown _ _ Ec).
  - rewrite (proj2 (py_in_single (Some s) s) eq_refl).
    unfold descendants. rewrite (subtree_leaf _ Ec). reflexivity.
Qed.

Lemma traverse_children fuel s startlvl :
  (doc_size s < fuel)%nat ->
  traverse fuel (Some s) StopNone true startlvl =
  Ok (map (with_level startlvl) (descendants s)).
Proof.
  intros Hf. pose proof (traversal_bound s) as Hb. rewrite length_app in Hb.
  unfold traverse, ObjectIterator_init.
  rewrite level_loop_spec by lia. simpl.
  rewrite iterate_children by lia. f_equal. apply map_ext. intros q.
  apply with_level_level_at.
Qed.

(** ** The listed subtree is the set of objects below the start

    [subtree s] holds exactly the objects from which parent links lead to
    [s]; [descendants s] those that need at least one link. *)

Lemma up_n_snoc k : forall q a b,
  up_n k q = Some a -> GetUp a = Some b -> up_n (S k) q = Some b.
Proof.
  induction k as [|k IH]; intros q a b E Eb.
  - simpl in E. injection E as ->. simpl. now rewrite Eb.
  - simpl in E. destruct (GetUp q) as [u|] eqn:Eu; [|discriminate].
    change (up_n (S (S k)) q) with
      (match GetUp q with Some u => up_n (S k) u | None => None end).
    rewrite Eu. now apply (IH u a b).
Qed.

Lemma in_objs_forest_split q ab ts : forall l0,
  In q (objs_forest ts l0 ab) ->
  exists pre c r, ts = pre ++ c :: r /\ In q (objs_tree c (rev pre ++ l0) r ab).
Proof.
  induction ts as [|c ts IH]; intros l0 H; simpl in H; [contradiction|].
  apply in_app_or in H. destruct H as [H|H].
  - exists [], c, ts. split; [reflexivity|exact H].
  - destruct (IH _ H) as (pre & c' & r & -> & Hin).
    exists (c :: pre), c', r. split; [reflexivity|].
    simpl. now rewrite <- app_assoc.
Qed.

Lemma objs_tree_in_forest t r ab pre : forall l0,
  incl (objs_tree t (rev pre ++ l0) r ab) (objs_forest (pre ++ t :: r) l0 ab).
Proof.
  induction pre as [|a pre IH]; intros l0; simpl.
  - apply incl_appl, incl_refl.
  - apply incl_appr. rewrite <- app_assoc. apply IH.
Qed.

Lemma in_objs_tree_under t : forall l r ab q,
  In q (objs_tree t l r ab) -> under (Obj l t r ab) q.
Proof.
  induction t as [n y cs IH] using tree_ind. intros l r ab q H.
  rewrite objs_tree_unfold in H. destruct H as [<-|H].
  - now exists 0%nat.
  - apply in_objs_forest_split in H. destruct H as (pre & c & r' & -> & H).
    rewrite Forall_forall in IH.
    destruct (IH c (in_elt c pre r') _ _ _ _ H) as [k E].
    exists (S k). apply (up_n_snoc k _ _ _ E).
    unfold GetUp. simpl. now rewrite app_nil_r, rev_involutive.
Qed.

Lemma subtree_incl t : forall l r ab u,
  In u (objs_tree t l r ab) -> incl (subtree u) (objs_tree t l r ab).
Proof.
  induction t as [n y cs IH] using tree_ind. intros l r ab u H.
  rewrite objs_tree_unfold in H. destruct H as [<-|H].
  - apply incl_refl.
  - rewrite objs_tree_unfold. apply incl_tl.
    apply in_objs_forest_split in H. destruct H as (pre & c & r' & -> & H).
    rewrite Forall_forall in IH.
    eapply incl_tran; [apply (IH c (in_elt c pre r') _ _ _ _ H)|].
    apply objs_tree_in_forest.
Qed.

Lemma child_in_subtree q u : GetUp q = Some u -> In q (subtree u).
Proof.
  destruct q as [l t r ab]. unfold GetUp. simpl.
  destruct ab as [|[n y fl fr] ab]; [discriminate|]. intros E. injection E as <-.
  unfold subtree. cbn [focus lefts rights above]. rewrite objs_tree_unfold. right.
  apply (objs_tree_in_forest t r (Frame n y fl fr :: ab) (rev l) []).
  rewrite app_nil_r, rev_involutive. destruct t as [n' y' cs'].
  rewrite objs_tree_unfold. now left.
Qed.

Lemma in_subtree_iff s q : In q (subtree s) <-> under s q.
Proof.
  split.
  - destruct s as [l t r ab]. apply in_objs_tree_under.
  - intros [k E]. revert q E. induction k as [|k IH]; intros q E; simpl in E.
    + injection E as ->. rewrite subtree_descendants. now left.
    + destruct (GetUp q) as [u|] eqn:Eu; [|discriminate].
      apply (subtree_incl (focus s) (lefts s) (rights s) (above s) u (IH u E)).
      now apply child_in_subtree.
Qed.

Lemma NoDup_subtree s : NoDup (subtree s).
Proof. apply (NoDup_app_remove_r _ _ (NoDup_traversal s)). Qed.

Lemma start_not_descendant s : ~ In s (descendants s).
Proof.
  pose proof (NoDup_subtree s) as H. rewrite subtree_descendants in H.
  now inversion H.
Qed.

Lemma in_descendants_iff s q :
  In q (descendants s) <-> exists k, up_n (S k) q = Some s.
Proof.
  split.
  - intros H. assert (Hs : In q (subtree s)) by (rewrite subtree_descendants; now right).
    apply in_subtree_iff in Hs. destruct Hs as [[|k] E].
    + simpl in E. injection E as ->. now apply start_not_descendant in H.
    + now exists k.
  - intros [k E]. assert (Hs : In q (subtree s)) by (apply in_subtree_iff; now exists (S k)).
    rewrite subtree_descendants in Hs. destruct Hs as [<-|Hs]; [|exact Hs].
    apply up_n_self in E. discriminate.
Qed.

(** Document order: a parent comes before its children and an object before
    its next sibling. *)
Lemma index_GetUp q u : GetUp q = Some u -> (index u < index q)%nat.
Proof.
  destruct q as [l t r ab]. unfold GetUp, index. simpl.
  destruct ab as [|fr ab]; [discriminate|]. intros E. injection E as <-. simpl. lia.
Qed.

Lemma index_GetNext q n : GetNext q = Some n -> (index q < index n)%nat.
Proof.
  destruct q as [l t r ab]. unfold GetNext, index. simpl.
  destruct r as [|r0 rs]; [discriminate|]. intros E. injection E as <-. simpl.
  rewrite index_from_cons. destruct t. rewrite tree_size_unfold. lia.
Qed.

Lemma after_nil_of_last_chain n : forall o,
  depth o = n ->
  (forall k a, up_n k o = Some a -> GetNext a = None) ->
  after o = [].
Proof.
  induction n as [|n IH]; intros o Hd H; unfold after in *;
    rewrite after_below_unfold; simpl;
    rewrite (later_siblings_last o (H 0%nat o eq_refl)); simpl.
  - apply GetUp_None_depth in Hd. now rewrite Hd.
  - destruct (GetUp o) as [u|] eqn:Eu; [|reflexivity].
    apply IH.
    + rewrite (depth_GetUp _ _ Eu) in Hd. lia.
    + intros k a E. apply (H (S k)). simpl. now rewrite Eu.
Qed.

(** ** Main results on ObjectIterator *)

(** C1 (as stated, refuted).  In the sample document, started at A (one
    descendant, A1) with [children_only=False] and no stop objects, the
    iterator yields four pairs: A, A1 and then B and S, which are not in the
    subtree of A. *)
Lemma full_mode_leaves_subtree :
  traverse 10 (Some oA) StopNone false (-1) =
    Ok [(Some oA, 1%Z); (Some oA1, 2%Z); (Some oB, 1%Z); (Some oS, 0%Z)] /\
  subtree oA = [oA; oA1] /\
  ~ In oB (subtree oA) /\ ~ In oS (subtree oA).
Proof.
  split; [reflexivity|]. split; [reflexivity|].
  split; intros [H|[H|[]]]; discriminate H.
Qed.

(** C1 (amended).  With [children_only=False] and no stop objects the
    iterator yields the start object first, then its N descendants in
    depth-first pre-order, and then goes on with every object that follows
    the start's subtree in the pre-order of the document (later siblings of
    the start and of its ancestors, with their subtrees).  No object is
    yielded twice, the objects come in document order (in which a parent
    stands before its children and an object before its next sibling), each
    with its depth as level, and the descendants listed are exactly the
    objects below the start by parent links.  The sequence is the start's subtree alone, N + 1 pairs,
    when neither the start nor any of its ancestors has a next sibling. *)
Theorem full_mode_preorder (fuel : nat) (o : obj) (startlvl : Z) :
  (doc_size o < fuel)%nat ->
  traverse fuel (Some o) StopNone false startlvl =
    Ok (map (with_level startlvl) (o :: descendants o ++ after o)) /\
  NoDup (o :: descendants o ++ after o) /\
  (forall q, In q (descendants o) <-> exists k, up_n (S k) q = Some o) /\
  map index (o :: descendants o ++ after o) =
    seq (index o) (S (List.length (descendants o) + List.length (after o))) /\
  (forall q u, GetUp q = Some u -> (index u < index q)%nat) /\
  (forall q n, GetNext q = Some n -> (index q < index n)%nat) /\
  ((forall k a, up_n k o = Some a -> GetNext a = None) ->
   traverse fuel (Some o) StopNone false startlvl =
     Ok (map (with_level startlvl) (o :: descendants o))).
Proof.
  intros Hf.
  pose proof (traverse_full fuel o startlvl Hf) as Ht.
  pose proof (NoDup_traversal o) as Hn.
  pose proof (index_traversal o) as Hi.
  rewrite subtree_descendants in Ht, Hn, Hi.
  rewrite <- app_comm_cons in Ht, Hn, Hi. simpl List.length in Hi.
  rewrite length_app in Hi.
  split; [exact Ht|]. split; [exact Hn|].
  split; [intros q; apply in_descendants_iff|].
  split; [exact Hi|].
  split; [exact index_GetUp|]. split; [exact index_GetNext|].
  intros H. rewrite Ht, (after_nil_of_last_chain (depth o) o eq_refl H).
  now rewrite app_nil_r.
Qed.

Lemma full_mode_preorder_witness :
  (doc_size oA < 10)%nat /\
  traverse 10 (Some oA) StopNone false (-1) =
    Ok (map (with_level (-1)) (oA :: descendants oA ++ after oA)).
Proof.
  assert (H : (doc_size oA < 10)%nat) by (vm_compute; lia).
  split; [exact H|]. exact (proj1 (full_mode_preorder 10 oA (-1) H)).
Defined.

(** C2.  With [children_only=True] and no stop objects the iterator yields
    the descendants of the start object in pre-order and nothing else: the
    start itself is not among them, each is yielded once, and they are the
    objects below the start by parent links, the same descendants that the
    [children_only=False] traversal yields right after the start (there
    followed by what comes after the subtree). *)
Theorem children_only_descendants (fuel : nat) (s : obj) (startlvl : Z) :
  (doc_size s < fuel)%nat ->
  traverse fuel (Some s) StopNone true startlvl =
    Ok (map (with_level startlvl) (descendants s)) /\
  ~ In s (descendants s) /\
  NoDup (descendants s) /\
  (forall q, In q (descendants s) <-> exists k, up_n (S k) q = Some s) /\
  traverse fuel (Some s) StopNone false startlvl =
    Ok (with_level startlvl s ::
        map (with_level startlvl) (descendants s) ++
        map (with_level startlvl) (after s)).
Proof.
  intros Hf. split; [now apply traverse_children|].
  split; [apply start_not_descendant|].
  split.
  { pose proof (NoDup_subtree s) as H. rewrite subtree_descendants in H.
    now inversion H. }
  split; [intros q; apply in_descendants_iff|].
  rewrite traverse_full by assumption.
  now rewrite subtree_descendants, <- app_comm_cons, map_cons, map_app.
Qed.

Lemma children_only_descendants_witness :
  (doc_size oR < 10)%nat /\
  traverse 10 (Some oR) StopNone true (-1) =
    Ok (map (with_level (-1)) (descendants oR)).
Proof.
  assert (H : (doc_size oR < 10)%nat) by (vm_compute; lia).
  split; [exact H|]. exact (proj1 (children_only_descendants 10 oR (-1) H)).
Defined.

(** C9 (what the code does).  For a null start object the iterator built
    with [children_only=True] produces nothing, but the one built with
    [children_only=False] produces one pair, [(None, startlvl)], before it
    stops: [next] returns the pending first element before it tests the
    current object for [None].  The constructor of [ObjectHierarchy], which
    iterates that way from the first object of the document, fails with
    [AttributeError] on an empty document. *)
Theorem null_start_sequences (fuel : nat) (stopobj : stoparg) (startlvl : Z) :
  traverse (S fuel) None stopobj true startlvl = Ok [] /\
  traverse (S (S fuel)) None stopobj false startlvl = Ok [(None, startlvl)] /\
  ObjectHierarchy_init (S (S fuel)) [] None None = Raise AttributeError.
Proof.
  split; [|split]; destruct stopobj as [|o|[|x l]]; reflexivity.
Qed.

(** ** getNextObject without stop objects *)

Lemma getNextObject_no_stop_raises fuel o :
  getNextObject fuel (Some o) StopNone = Raise TypeError.
Proof. unfold getNextObject. destruct (GetDown o); reflexivity. Qed.

Lemma doc_objs_nonempty doc o :
  In o (doc_objs doc) -> exists first, GetFirstObject doc = Some first.
Proof.
  destruct doc as [|t ts]; [intros []|]. intros _. simpl. eauto.
Qed.

(** C10.  For an object with a first child, [getNextObject(obj)] called
    without stop objects raises [TypeError] and does not return the child;
    and on every document that holds an object with a child, [findObjects]
    and [getActiveObjects], which call it that way, raise [TypeError]. *)
Theorem getNextObject_default_stopobjs_raises
    (fuel : nat) (o down : obj) (doc : document) (name : string)
    (active : obj -> bool) :
  GetDown o = Some down ->
  getNextObject fuel (Some o) StopNone = Raise TypeError /\
  getNextObject fuel (Some o) StopNone <> Ok (Some down) /\
  (In o (doc_objs doc) ->
   findObjects (S fuel) (Some doc) name = Raise TypeError /\
   getActiveObjects (S fuel) active doc = Raise TypeError).
Proof.
  intros Hd. split; [apply getNextObject_no_stop_raises|].
  split; [rewrite getNextObject_no_stop_raises; discriminate|].
  intros Hin. destruct (doc_objs_nonempty doc o Hin) as [first Hf].
  unfold findObjects, getActiveObjects. rewrite Hf.
  cbn [findObjects_loop getActiveObjects_loop].
  rewrite !getNextObject_no_stop_raises. split; reflexivity.
Qed.

Lemma getNextObject_default_stopobjs_raises_witness :
  GetDown oR = Some oA /\
  getNextObject 10 (Some oR) StopNone = Raise TypeError /\
  findObjects 11 (Some sample_doc) "A" = Raise TypeError.
Proof.
  assert (H : GetDown oR = Some oA) by reflexivity.
  destruct (getNextObject_default_stopobjs_raises 10 oR oA sample_doc "A"
              (fun _ => true) H) as (H1 & _ & H3).
  split; [exact H|]. split; [exact H1|].
  apply H3. simpl. now left.
Defined.

(** ** The constructor of ObjectHierarchy *)

Lemma for_each_iterate {S : Type} (body : S -> option obj * Z -> result S)
    steps fuel : forall it ys st,
  iterate_loop steps fuel it = Ok ys ->
  for_each steps fuel it body st = fold_result body ys st.
Proof.
  induction steps as [|steps IH]; intros it ys st H; simpl in H; [discriminate|].
  simpl. destruct (next fuel it) as [it' [p|e| |]]; try discriminate.
  - destruct (iterate_loop steps fuel it') as [ps|e| |] eqn:E; try discriminate.
    simpl in H. injection H as <-. simpl.
    destruct (body st p) as [st'|e| |]; simpl; try reflexivity.
    now apply IH.
  - destruct e; try discriminate. injection H as <-. reflexivity.
Qed.

Lemma parents_loop_None fuel plist : parents_loop fuel None plist = Ok plist.
Proof. destruct fuel; reflexivity. Qed.

Lemma parents_loop_spec fuel : forall o plist,
  (depth o < fuel)%nat ->
  parents_loop fuel (Some o) plist = Ok (plist ++ map f_name (above o)).
Proof.
  induction fuel as [|fuel IH]; intros o plist H; [lia|].
  simpl. destruct o as [l t r ab]. unfold GetUp, depth in *. simpl in *.
  destruct ab as [|fr ab].
  - now rewrite parents_loop_None, app_nil_r.
  - rewrite IH by (unfold depth; simpl in *; lia).
    simpl. unfold GetName. simpl. now rewrite <- app_assoc.
Qed.

Lemma parent_path_spec fuel o :
  (depth o < fuel)%nat -> parent_path fuel slash (Some o) = Ok (path_key o).
Proof.
  intros H. unfold parent_path, path_key, ancestor_names.
  rewrite parents_loop_spec by assumption. simpl.
  destruct (map f_name (above o)) as [|n ns] eqn:E; simpl; [reflexivity|].
  destruct (rev ns ++ [n]) eqn:E'; [|reflexivity].
  now apply app_eq_nil in E'.
Qed.

Lemma index_step_spec fuel ft o lvl h mx :
  (depth o < fuel)%nat ->
  index_step fuel slash ft (h, mx) (Some o, lvl) =
  Ok (if type_passes ft o then dict_append (path_key o) o h else h,
      if (lvl >? mx)%Z then lvl else mx).
Proof.
  intros H. unfold index_step, passes_filter, type_passes.
  destruct ft as [ft|]; [destruct (ft =? 0)%Z; [reflexivity|]|];
    cbn [bind negb andb]; [destruct (GetType o =? ft)%Z|];
    cbn [bind]; try rewrite parent_path_spec by assumption; reflexivity.
Qed.

Lemma fold_index_step fuel ft startlvl objs : forall h mx,
  (forall q, In q objs -> (depth q < fuel)%nat) ->
  exists mx',
    fold_result (index_step fuel slash ft) (map (with_level startlvl) objs) (h, mx) =
    Ok (fold_left (fun h o => dict_append (path_key o) o h)
          (filter (type_passes ft) objs) h, mx').
Proof.
  induction objs as [|o objs IH]; intros h mx H; cbn [map fold_result filter].
  - now exists mx.
  - unfold with_level at 1. rewrite index_step_spec by (apply H; now left).
    cbn [bind]. destruct (type_passes ft o); cbn [fold_left];
      apply IH; intros q Hq; apply H; now right.
Qed.

Lemma doc_size_index o :
  doc_size o = (index o + List.length (subtree o ++ after o))%nat.
Proof.
  unfold doc_size, document_of, index, subtree, after, after_below.
  rewrite doc_size_split, length_app, length_objs_tree. lia.
Qed.

Lemma depth_le_index q : (depth q <= index q)%nat.
Proof. apply depth_le_index_from. Qed.

Lemma traversal_depth_bound o q :
  In q (subtree o ++ after o) -> (depth q < doc_size o)%nat.
Proof.
  intros H. apply (in_map index) in H. rewrite index_traversal in H.
  apply in_seq in H. pose proof (depth_le_index q). rewrite doc_size_index. lia.
Qed.

Lemma snapshot_objs_bound start co q :
  In q (snapshot_objs start co) -> (depth q < doc_size start)%nat.
Proof.
  intros H. apply (traversal_depth_bound start). destruct co; simpl in H; [|exact H].
  apply in_or_app. left. rewrite subtree_descendants. now right.
Qed.

Lemma traverse_snapshot fuel start co :
  (doc_size start < fuel)%nat ->
  traverse fuel (Some start) StopNone co (-1) =
  Ok (map (with_level (-1)) (snapshot_objs start co)).
Proof.
  intros H. destruct co; [now apply traverse_children|now apply traverse_full].
Qed.

Lemma NoDup_snapshot_objs start co : NoDup (snapshot_objs start co).
Proof.
  destruct co; simpl; [|apply NoDup_traversal].
  pose proof (NoDup_subtree start) as H. rewrite subtree_descendants in H.
  now inversion H.
Qed.

(** *** Filing into the dictionary *)

Lemma dict_get_append k k' v h :
  dict_get k (dict_append k' v h) =
  if String.eqb k' k then dict_get k h ++ [v] else dict_get k h.
Proof.
  induction h as [|[k0 vs] h IH]; simpl.
  - destruct (String.eqb k' k); reflexivity.
  - destruct (String.eqb k0 k') eqn:E0; simpl.
    + apply String.eqb_eq in E0. subst k0.
      destruct (String.eqb k' k); reflexivity.
    + destruct (String.eqb k0 k) eqn:E1; [|exact IH].
      apply String.eqb_eq in E1. subst k0.
      rewrite String.eqb_sym in E0. now rewrite E0.
Qed.

Lemma total_filed_append k v h : total_filed (dict_append k v h) = S (total_filed h).
Proof.
  induction h as [|[k0 vs] h IH]; simpl; [reflexivity|].
  destruct (String.eqb k0 k); simpl.
  - rewrite length_app. simpl. lia.
  - rewrite IH. lia.
Qed.

Lemma dict_keys_append k v h :
  dict_keys (dict_append k v h) =
  if existsb (fun k0 => String.eqb k0 k) (dict_keys h) then dict_keys h
  else dict_keys h ++ [k].
Proof.
  induction h as [|[k0 vs] h IH]; simpl; [reflexivity|].
  destruct (String.eqb k0 k); simpl; [reflexivity|].
  rewrite IH. now destruct (existsb _ (dict_keys h)).
Qed.

Lemma NoDup_keys_append k v h :
  NoDup (dict_keys h) -> NoDup (dict_keys (dict_append k v h)).
Proof.
  intros H. rewrite dict_keys_append.
  destruct (existsb _ (dict_keys h)) eqn:E; [exact H|].
  apply NoDup_app; [exact H|repeat constructor; intros []|].
  intros x Hx [Ex|[]]. subst x.
  assert (existsb (fun k0 => String.eqb k0 k) (dict_keys h) = true).
  { apply existsb_exists. exists k. split; [exact Hx|apply String.eqb_refl]. }
  congruence.
Qed.

Lemma file_onto_spec (key : obj -> string) os : forall h,
  let h' := fold_left (fun h o => dict_append (key o) o h) os h in
  (forall k, dict_get k h' =
             dict_get k h ++ filter (fun o => String.eqb (key o) k) os) /\
  total_filed h' = (total_filed h + List.length os)%nat /\
  (NoDup (dict_keys h) -> NoDup (dict_keys h')).
Proof.
  induction os as [|o os IH]; intros h; simpl.
  - split; [intros k; now rewrite app_nil_r|]. split; [lia|auto].
  - destruct (IH (dict_append (key o) o h)) as (H1 & H2 & H3).
    split; [|split].
    + intros k. rewrite H1, dict_get_append.
      destruct (String.eqb (key o) k); [now rewrite <- app_assoc|reflexivity].
    + rewrite H2, total_filed_append. lia.
    + intros Hn. apply H3. now apply NoDup_keys_append.
Qed.

Lemma ObjectHierarchy_init_spec fuel doc rootobj ft start :
  fst (snapshot_start doc rootobj) = Some start ->
  (doc_size start < fuel)%nat ->
  exists mx,
    ObjectHierarchy_init fuel doc rootobj ft =
    Ok (MkHierarchy (Some start) mx slash
          (file_all path_key
             (filter (type_passes ft)
                (snapshot_objs start (snd (snapshot_start doc rootobj)))))).
Proof.
  intros Hs Hf. unfold ObjectHierarchy_init.
  destruct (snapshot_start doc rootobj) as [r co]. simpl in Hs. subst r.
  cbn [snd].
  pose proof (traverse_snapshot fuel start co Hf) as Ht. unfold traverse in Ht.
  destruct (ObjectIterator_init fuel (Some start) StopNone co (-1)) as [it|e| |];
    try discriminate Ht.
  cbn [bind] in *. unfold iterate in Ht.
  rewrite (for_each_iterate (index_step fuel slash ft) fuel fuel it _ _ Ht).
  destruct (fold_index_step fuel ft (-1) (snapshot_objs start co) [] (-1)%Z) as [mx E].
  { intros q Hq. apply snapshot_objs_bound in Hq. lia. }
  exists mx. rewrite E. reflexivity.
Qed.

Lemma GetUp_above o u :
  GetUp o = Some u -> exists fr, above o = fr :: above u /\ f_name fr = GetName u.
Proof.
  destruct o as [l t r ab]. unfold GetUp. simpl.
  destruct ab as [|fr ab]; [discriminate|]. intros E. injection E as <-.
  exists fr. split; reflexivity.
Qed.

Lemma nth_ancestor_name k : forall o a,
  up_n (S k) o = Some a -> nth_error (map f_name (above o)) k = Some (GetName a).
Proof.
  induction k as [|k IH]; intros o a E;
    change (up_n (S ?n) o) with
      (match GetUp o with Some u => up_n n u | None => None end) in E;
    destruct (GetUp o) as [u|] eqn:Eu; try discriminate;
    destruct (GetUp_above o u Eu) as (fr & -> & Hn).
  - simpl in E. injection E as <-. simpl. now rewrite Hn.
  - simpl. now apply IH.
Qed.

Lemma path_key_child c p :
  GetUp c = Some p ->
  path_key c = join (sep_string slash) (ancestor_names p ++ [GetName p]).
Proof.
  destruct c as [l t r ab]. unfold GetUp. simpl.
  destruct ab as [|fr ab]; [discriminate|]. intros E. injection E as <-.
  unfold path_key, ancestor_names, GetName. simpl.
  destruct (rev (map f_name ab) ++ [f_name fr]) eqn:E; [|reflexivity].
  now apply app_eq_nil in E.
Qed.

(** ** Main results on the index *)

(** C3.  A snapshot built without a type filter files every object its
    traversal yields: the index is the result of filing the yielded objects
    one by one under their keys, so the list kept for a key is the yielded
    objects with that key, in the order they were yielded; a yielded object
    is in the list of its own key and of no other; no key or object occurs
    twice; and the lengths of all the lists add up to the number of pairs
    the traversal yields. *)
Theorem index_files_each_yielded_object
    (fuel : nat) (doc : document) (rootobj : option obj) (start : obj) :
  fst (snapshot_start doc rootobj) = Some start ->
  (doc_size start < fuel)%nat ->
  let children_only := snd (snapshot_start doc rootobj) in
  let objs := snapshot_objs start children_only in
  exists h,
    ObjectHierarchy_init fuel doc rootobj None = Ok h /\
    traverse fuel (Some start) StopNone children_only (-1) =
      Ok (map (with_level (-1)) objs) /\
    entries h = file_all path_key objs /\
    (forall k, dict_get k (entries h) =
               filter (fun o => String.eqb (path_key o) k) objs) /\
    (forall o k, In o objs -> (In o (dict_get k (entries h)) <-> k = path_key o)) /\
    NoDup (dict_keys (entries h)) /\
    NoDup objs /\
    total_filed (entries h) = List.length (map (with_level (-1)) objs).
Proof.
  intros Hs Hf children_only objs.
  destruct (ObjectHierarchy_init_spec fuel doc rootobj None start Hs Hf) as [mx E].
  eexists. split; [exact E|]. cbn [entries type_passes].
  assert (Hall : filter (fun _ : obj => true) objs = objs).
  { clear. induction objs as [|o os IH]; simpl; [reflexivity|now rewrite IH]. }
  fold children_only objs. unfold type_passes. rewrite Hall.
  destruct (file_onto_spec path_key objs []) as (H1 & H2 & H3).
  split; [now apply traverse_snapshot|].
  split; [reflexivity|].
  split; [intros k; apply H1|].
  split.
  { intros o k Ho. unfold file_all. rewrite H1. simpl. rewrite filter_In, String.eqb_eq.
    split; [intros [_ <-]; reflexivity|intros ->; now split]. }
  split; [apply H3; constructor|].
  split; [apply NoDup_snapshot_objs|].
  unfold file_all. rewrite H2, length_map. reflexivity.
Qed.

Lemma index_files_each_yielded_object_witness :
  exists h,
    ObjectHierarchy_init 10 sample_doc (Some oR) None = Ok h /\
    entries h = [("R", [oA; oB]); ("R/A", [oA1])].
Proof.
  assert (Hs : fst (snapshot_start sample_doc (Some oR)) = Some oR) by reflexivity.
  assert (Hf : (doc_size oR < 10)%nat) by (vm_compute; lia).
  destruct (index_files_each_yielded_object 10 sample_doc (Some oR) oR Hs Hf)
    as (h & H1 & _ & H3 & _).
  exists h. split; [exact H1|]. rewrite H3. reflexivity.
Defined.

(** C4 (as stated, refuted).  The snapshot taken from R files A and B under
    the key "R" and A1 under "R/A": the snapshot root's own name is part of
    the key.  A walk that stops at the snapshot root and leaves it out would
    give "A" for A1 and, A having no ancestor below the root, A's own name
    for A.  For the snapshot taken from A, A1 is filed under "R/A", not
    under its own name. *)
Lemma index_key_includes_snapshot_root :
  (exists h, ObjectHierarchy_init 10 sample_doc (Some oR) None = Ok h /\
             entries h = [("R", [oA; oB]); ("R/A", [oA1])]) /\
  worded_parent_path oR oA1 = "A" /\
  worded_parent_path oR oA = "A" /\
  (exists h, ObjectHierarchy_init 10 sample_doc (Some oA) None = Ok h /\
             entries h = [("R/A", [oA1])]) /\
  worded_parent_path oA oA1 = "A1".
Proof.
  split; [eexists; split; reflexivity|].
  split; [reflexivity|]. split; [reflexivity|].
  split; [eexists; split; reflexivity|reflexivity].
Qed.

(** C4 (amended).  Every object the constructor files is filed under the key
    computed by walking its parent links to the top of the document,
    whatever the snapshot root: the names of all its ancestors, the snapshot
    root and the root's own ancestors included, from the top of the document
    down to its parent, joined with '/'.  An object without a parent is
    keyed by its own name; a child of the snapshot root is keyed by the
    root's ancestors' names followed by the root's name. *)
Theorem index_key_is_path_from_top
    (fuel : nat) (doc : document) (rootobj : option obj) (filtertype : option Z)
    (start : obj) :
  fst (snapshot_start doc rootobj) = Some start ->
  (doc_size start < fuel)%nat ->
  exists h,
    ObjectHierarchy_init fuel doc rootobj filtertype = Ok h /\
    (forall k o, In o (dict_get k (entries h)) ->
                 parent_path fuel (sep h) (Some o) = Ok k /\
                 k = join "/" (match ancestor_names o with
                               | [] => [GetName o]
                               | ns => ns
                               end)) /\
    (forall o, List.length (ancestor_names o) = depth o) /\
    (forall o k a, up_n (S k) o = Some a ->
                   nth_error (rev (ancestor_names o)) k = Some (GetName a)) /\
    (forall o, GetUp o = None -> path_key o = GetName o) /\
    (forall c, GetUp c = Some start ->
               path_key c = join "/" (ancestor_names start ++ [GetName start])).
Proof.
  intros Hs Hf.
  destruct (ObjectHierarchy_init_spec fuel doc rootobj filtertype start Hs Hf) as [mx E].
  eexists. split; [exact E|]. cbn [entries sep].
  split; [|split; [|split; [|split]]].
  - intros k o Ho. unfold file_all in Ho.
    destruct (file_onto_spec path_key
                (filter (type_passes filtertype)
                   (snapshot_objs start (snd (snapshot_start doc rootobj)))) [])
      as (H1 & _). rewrite H1 in Ho. simpl in Ho.
    apply filter_In in Ho. destruct Ho as [Ho Hk]. apply String.eqb_eq in Hk.
    apply filter_In in Ho. destruct Ho as [Ho _].
    apply snapshot_objs_bound in Ho. subst k.
    split; [apply parent_path_spec; lia|reflexivity].
  - intros o. unfold ancestor_names, depth. now rewrite length_rev, length_map.
  - intros o k a H. unfold ancestor_names. rewrite rev_involutive.
    now apply nth_ancestor_name.
  - intros o H. apply GetUp_None_depth in H. unfold path_key, ancestor_names.
    unfold depth in H. apply length_zero_iff_nil in H. now rewrite H.
  - intros c H. now apply path_key_child.
Qed.

Lemma index_key_is_path_from_top_witness :
  exists h,
    ObjectHierarchy_init 10 sample_doc (Some oA) None = Ok h /\
    (forall k o, In o (dict_get k (entries h)) ->
                 parent_path 10 (sep h) (Some o) = Ok k /\
                 k = join "/" (match ancestor_names o with
                               | [] => [GetName o]
                               | ns => ns
                               end)).
Proof.
  assert (Hs : fst (snapshot_start sample_doc (Some oA)) = Some oA) by reflexivity.
  assert (Hf : (doc_size oA < 10)%nat) by (vm_compute; lia).
  destruct (index_key_is_path_from_top 10 sample_doc (Some oA) None oA Hs Hf)
    as (h & H1 & H2 & _).
  exists h. split; [exact H1|exact H2].
Defined.

(** ** Resolution of '..' segments *)

Lemma resolve_scan_app l1 : forall l2 skip acc,
  resolve_scan (l1 ++ l2) skip acc =
  resolve_scan l2 (fst (resolve_scan l1 skip acc)) (snd (resolve_scan l1 skip acc)).
Proof.
  induction l1 as [|c l1 IH]; intros l2 skip acc; simpl; [reflexivity|].
  destruct (String.eqb c ".."); [apply IH|]. destruct skip; apply IH.
Qed.

Lemma resolve_scan_rev comps :
  resolve_scan (rev comps) false [] =
  (starts_with_dotdot comps, rev (drop_dotdot comps)).
Proof.
  induction comps as [|c comps IH]; [reflexivity|].
  simpl rev. rewrite resolve_scan_app, IH. cbn [fst snd resolve_scan starts_with_dotdot].
  cbn [drop_dotdot]. destruct (String.eqb c "..") eqn:Ec; [reflexivity|].
  destruct comps as [|d comps']; [reflexivity|].
  cbn [starts_with_dotdot]. destruct (String.eqb d ".."); reflexivity.
Qed.

Lemma resolve_dotdot_spec sp path :
  resolve_dotdot sp path = join (sep_string sp) (drop_dotdot (split sp path)).
Proof.
  unfold resolve_dotdot. rewrite resolve_scan_rev. cbn [snd].
  now rewrite rev_involutive.
Qed.

Lemma drop_dotdot_cons c comps :
  drop_dotdot (c :: comps) =
  if String.eqb c ".." || starts_with_dotdot comps then drop_dotdot comps
  else c :: drop_dotdot comps.
Proof.
  cbn [drop_dotdot]. destruct (String.eqb c ".."); [reflexivity|].
  destruct comps as [|d comps']; [reflexivity|].
  cbn [orb starts_with_dotdot]. now destruct (String.eqb d "..").
Qed.

Lemma count_other_cons c comps :
  count_other (c :: comps) =
  ((if String.eqb c ".." then 0 else 1) + count_other comps)%nat.
Proof. unfold count_other. cbn [filter]. now destruct (String.eqb c ".."). Qed.

Lemma count_dotdot_cons c comps :
  count_dotdot (c :: comps) =
  ((if String.eqb c ".." then 1 else 0) + count_dotdot comps)%nat.
Proof. unfold count_dotdot. cbn [filter]. now destruct (String.eqb c ".."). Qed.

Lemma drop_dotdot_counts comps :
  (List.length (drop_dotdot comps) <= count_other comps)%nat /\
  (count_other comps + (if starts_with_dotdot comps then 1 else 0) <=
   List.length (drop_dotdot comps) + count_dotdot comps)%nat.
Proof.
  induction comps as [|c comps IH]; [split; apply Nat.le_refl|].
  rewrite drop_dotdot_cons, count_other_cons, count_dotdot_cons.
  cbn [starts_with_dotdot].
  destruct (String.eqb c ".."); cbn [orb];
    [|destruct (starts_with_dotdot comps); cbn [List.length]];
    generalize dependent (count_other comps); generalize (count_dotdot comps);
    generalize (List.length (drop_dotdot comps)); intros; lia.
Qed.

(** Trimming neither adds nor removes a '..'. *)
Lemma prefix_dotdot_cons c s :
  String.prefix ".." (String c s) =
  Ascii.eqb c "."%char &&
  match s with
  | String d _ => Ascii.eqb d "."%char
  | EmptyString => false
  end.
Proof.
  assert (Hdec : forall x (A : Type) (a b : A),
             (if ascii_dec "."%char x then a else b) =
             (if Ascii.eqb x "."%char then a else b)).
  { intros x A a b. destruct (ascii_dec "."%char x) as [<-|Hx]; [reflexivity|].
    replace (Ascii.eqb x "."%char) with false; [reflexivity|].
    symmetry. apply Ascii.eqb_neq. congruence. }
  destruct s as [|d s']; cbn [String.prefix]; rewrite !Hdec.
  - now destruct (Ascii.eqb c "."%char).
  - destruct (Ascii.eqb c "."%char), (Ascii.eqb d "."%char); try reflexivity.
    now destruct s'.
Qed.

Lemma space_not_dot c : is_space c = true -> Ascii.eqb c "."%char = false.
Proof.
  intros H. apply Ascii.eqb_neq. intros ->. discriminate H.
Qed.

Lemma contains_lstrip s : contains ".." (lstrip s) = contains ".." s.
Proof.
  induction s as [|c s IH]; [reflexivity|].
  cbn [lstrip]. destruct (is_space c) eqn:Ec; [|reflexivity].
  rewrite IH. cbn [contains]. rewrite prefix_dotdot_cons, (space_not_dot c Ec).
  reflexivity.
Qed.

Lemma rstrip_cons c s :
  rstrip (String c s) =
  match rstrip s with
  | EmptyString => if is_space c then EmptyString else String c EmptyString
  | r => String c r
  end.
Proof. reflexivity. Qed.

Lemma rstrip_head s :
  match rstrip s with
  | EmptyString =>
      match s with
      | String d _ => is_space d = true
      | EmptyString => True
      end
  | String e _ =>
      match s with
      | String d _ => d = e
      | EmptyString => False
      end
  end.
Proof.
  destruct s as [|d s]; [exact I|].
  rewrite rstrip_cons. destruct (rstrip s); [|reflexivity].
  destruct (is_space d); reflexivity.
Qed.

Lemma contains_rstrip s : contains ".." (rstrip s) = contains ".." s.
Proof.
  induction s as [|c s IH]; [reflexivity|].
  rewrite rstrip_cons. pose proof (rstrip_head s) as Hh.
  cbn [contains]. rewrite <- IH, (prefix_dotdot_cons c s).
  destruct (rstrip s) as [|e r] eqn:Er.
  - assert (Hs : match s with String d _ => Ascii.eqb d "."%char | EmptyString => false end
                 = false).
    { destruct s as [|d s']; [reflexivity|]. now apply space_not_dot. }
    rewrite Hs, andb_false_r. cbn [contains orb String.prefix].
    destruct (is_space c); [reflexivity|].
    cbn [contains]. rewrite (prefix_dotdot_cons c EmptyString), andb_false_r.
    reflexivity.
  - cbn [contains]. rewrite (prefix_dotdot_cons c (String e r)).
    destruct s as [|d s']; [contradiction|]. now subst d.
Qed.

Lemma contains_strip s : contains ".." (strip s) = contains ".." s.
Proof. unfold strip. now rewrite contains_rstrip, contains_lstrip. Qed.

(** C5 (as stated, refuted).  'a/b/../../c' holds two '..' segments, but
    only one other segment, [b], is dropped with them: the expression
    resolves to 'a/c'. *)
Lemma consecutive_dotdot_pop_once :
  resolved_path slash "a/b/../../c" = "a/c" /\
  count_dotdot (split slash "a/b/../../c") = 2%nat /\
  (count_other (split slash "a/b/../../c") -
   List.length (split slash (resolved_path slash "a/b/../../c")) = 1)%nat.
Proof. repeat split; reflexivity. Qed.

(** C5 (amended).  For an expression that contains '..', [get] builds its
    pattern from the trimmed expression resolved as text: split on '/',
    drop every '..' segment and every segment that stands right before a
    '..' segment, keep the others in their order, join with '/'.  A segment
    is dropped for each run of consecutive '..' segments that has a segment
    before it, so never more segments than there are '..' segments.
    'a/b/../c' resolves to 'a/c'. *)
Theorem dotdot_resolved_as_text (path : string) :
  contains ".." path = true ->
  let comps := split slash (strip path) in
  resolved_path slash path = join "/" (drop_dotdot comps) /\
  pattern_of slash path =
    match join "/" (drop_dotdot comps) with
    | EmptyString => Raise IndexError
    | String c rest as p =>
        Ok ("^" ++ (if Ascii.eqb c "!"%char then rest else wildcard_to_re p) ++ "$")%string
    end /\
  (List.length (drop_dotdot comps) <= count_other comps)%nat /\
  (count_other comps - List.length (drop_dotdot comps) <= count_dotdot comps)%nat /\
  resolved_path slash "a/b/../c" = "a/c".
Proof.
  intros H comps. rewrite <- contains_strip in H.
  assert (E : resolved_path slash path = join "/" (drop_dotdot comps)).
  { unfold resolved_path. rewrite H. apply resolve_dotdot_spec. }
  split; [exact E|]. split.
  { unfold pattern_of. rewrite E. reflexivity. }
  pose proof (drop_dotdot_counts comps) as [H1 H2].
  split; [exact H1|]. split; [|reflexivity].
  generalize dependent (count_other comps). generalize (count_dotdot comps).
  generalize (List.length (drop_dotdot comps)).
  destruct (starts_with_dotdot comps); intros; lia.
Qed.

Lemma dotdot_resolved_as_text_witness :
  contains ".." "a/b/../c" = true /\
  resolved_path slash "a/b/../c" =
    join "/" (drop_dotdot (split slash (strip "a/b/../c"))).
Proof.
  assert (H : contains ".." "a/b/../c" = true) by reflexivity.
  split; [exact H|]. exact (proj1 (dotdot_resolved_as_text "a/b/../c" H)).
Defined.

(** ** Wildcard expressions and their patterns *)

Lemma wildcard_to_re_cons c e :
  wildcard_to_re (String c e) =
  if Ascii.eqb c "?"%char then String "."%char (wildcard_to_re e)
  else if Ascii.eqb c "*"%char then (".*?" ++ wildcard_to_re e)%string
  else String c (wildcard_to_re e).
Proof.
  unfold wildcard_to_re. cbn [replace].
  destruct (Ascii.eqb_spec c "?"%char) as [->|Hq]; [reflexivity|].
  cbn [replace]. destruct (Ascii.eqb c "*"%char); reflexivity.
Qed.

Lemma re_parse_plain c s cur done :
  is_special c = false ->
  re_parse (String c s) cur done = re_parse s (Rep One true (Lit c) :: cur) done.
Proof.
  destruct c as [[|] [|] [|] [|] [|] [|] [|] [|]]; intros H;
    try discriminate H; reflexivity.
Qed.

Lemma re_parse_wildcard e : forall rest cur done,
  plain_wildcard e = true ->
  re_parse (wildcard_to_re e ++ rest) cur done =
  re_parse rest (rev (items_of e) ++ cur) done.
Proof.
  induction e as [|c e IH]; intros rest cur done H; [reflexivity|].
  cbn [plain_wildcard] in H. apply andb_true_iff in H. destruct H as [Hc He].
  rewrite wildcard_to_re_cons. cbn [items_of rev]. rewrite <- app_assoc.
  unfold item_of.
  destruct (Ascii.eqb_spec c "?"%char) as [->|Hq].
  - cbn [String.append]. change (re_parse (String "."%char ?s) ?c ?d)
      with (re_parse s (Rep One true AnyButNewline :: c) d).
    exact (IH _ _ _ He).
  - destruct (Ascii.eqb_spec c "*"%char) as [->|Hs].
    + change (re_parse (".*?" ++ ?s) ?c ?d)
        with (re_parse s (Rep Star false AnyButNewline :: c) d).
      exact (IH _ _ _ He).
    + cbn [String.append]. cbn [orb] in Hc. apply negb_true_iff in Hc.
      rewrite re_parse_plain by assumption. exact (IH _ _ _ He).
Qed.

Lemma no_special_no_dotdot e : plain_wildcard e = true -> contains ".." e = false.
Proof.
  induction e as [|c e IH]; intros H; [reflexivity|].
  cbn [plain_wildcard] in H. apply andb_true_iff in H. destruct H as [Hc He].
  cbn [contains]. rewrite (IH He), orb_false_r.
  cbn [String.prefix]. destruct (ascii_dec "."%char c) as [<-|Hn]; [|reflexivity].
  discriminate Hc.
Qed.

Lemma match_star_ext cs k1 k2 s : forall pos,
  (forall p s', no_newline s' = true -> k1 p s' = k2 s') ->
  no_newline s = true ->
  match_star cs k1 pos s =
  (fix any_run (k : string) : bool :=
     k2 k ||
     match k with
     | String c k' => in_charset cs c && any_run k'
     | EmptyString => false
     end) s.
Proof.
  induction s as [|c s IH]; intros pos Hk Hs; cbn [match_star].
  - now rewrite Hk.
  - cbn [no_newline] in Hs. apply andb_true_iff in Hs. destruct Hs as [Hc Hs].
    rewrite Hk by (cbn [no_newline]; now rewrite Hc). f_equal. f_equal.
    now apply IH.
Qed.

Lemma at_end_no_newline key :
  no_newline key = true ->
  at_end key = match key with EmptyString => true | _ => false end.
Proof.
  destruct key as [|c [|c' key']]; try reflexivity.
  cbn [no_newline at_end]. intros H. apply andb_true_iff in H.
  destruct H as [H _]. now apply negb_true_iff in H.
Qed.

Lemma match_items_wildcard e : forall pos key,
  no_newline key = true ->
  match_items (items_of e ++ [Eol]) pos key = wildcard_match e key.
Proof.
  induction e as [|c e IH]; intros pos key Hk.
  - cbn [items_of app match_items wildcard_match].
    rewrite at_end_no_newline by assumption. now destruct key.
  - cbn [items_of app wildcard_match]. unfold item_of.
    destruct (Ascii.eqb c "?"%char).
    + cbn [match_items]. destruct key as [|k key]; [reflexivity|].
      cbn [no_newline] in Hk. apply andb_true_iff in Hk. destruct Hk as [Hc Hk].
      cbn [in_charset]. rewrite Hc. cbn [andb]. now apply IH.
    + destruct (Ascii.eqb c "*"%char).
      * cbn [match_items].
        rewrite (match_star_ext AnyButNewline (match_items (items_of e ++ [Eol]))
                   (wildcard_match e) key pos) by (intros; auto).
        clear IH pos. induction key as [|k key IHk]; [reflexivity|].
        cbn [no_newline] in Hk. apply andb_true_iff in Hk. destruct Hk as [Hc Hk].
        cbn [in_charset]. rewrite Hc. cbn [andb]. f_equal. now apply IHk.
      * cbn [match_items]. destruct key as [|k key]; [reflexivity|].
        cbn [no_newline] in Hk. apply andb_true_iff in Hk. destruct Hk as [Hc Hk].
        cbn [in_charset]. f_equal. now apply IH.
Qed.

Lemma re_match_wildcard e key :
  plain_wildcard e = true -> no_newline key = true ->
  re_match ("^" ++ wildcard_to_re e ++ "$") key = Ok (wildcard_match e key).
Proof.
  intros He Hk. unfold re_match, re_compile.
  change (re_parse ("^" ++ ?s) [] []) with (re_parse s [Bol] []).
  rewrite re_parse_wildcard by assumption.
  change (re_parse "$" ?c ?d) with (Ok (rev (rev (Eol :: c) :: d))).
  cbn [bind rev app]. rewrite rev_app_distr, rev_involutive.
  cbn [rev app existsb match_items Nat.eqb andb]. rewrite orb_false_r.
  f_equal. now apply match_items_wildcard.
Qed.

Lemma re_compile_wildcard e :
  plain_wildcard e = true ->
  re_compile ("^" ++ wildcard_to_re e ++ "$") = Ok [Bol :: items_of e ++ [Eol]].
Proof.
  intros He. unfold re_compile.
  change (re_parse ("^" ++ ?s) [] []) with (re_parse s [Bol] []).
  rewrite re_parse_wildcard by assumption.
  change (re_parse "$" ?c ?d) with (Ok (rev (rev (Eol :: c) :: d))).
  cbn [rev app]. now rewrite rev_app_distr, rev_involutive.
Qed.

Lemma pattern_of_wildcard expr c rest :
  resolved_path slash expr = String c rest -> Ascii.eqb c "!"%char = false ->
  pattern_of slash expr =
  Ok ("^" ++ wildcard_to_re (resolved_path slash expr) ++ "$")%string.
Proof.
  intros Es Hc. unfold pattern_of. rewrite Es, Hc. reflexivity.
Qed.

(** ** Main results on the path queries *)

(** C6 (as stated, refuted).  The expression 'a.b' matches the key 'axb':
    the '.' is not taken literally, it is handed to [re] and matches any
    character.  Likewise 'a+' matches 'aa'. *)
Lemma wildcard_mode_keeps_re_syntax :
  path_matches "a.b" "axb" = Ok true /\
  wildcard_match "a.b" "axb" = false /\
  path_matches "a+" "aa" = Ok true /\
  wildcard_match "a+" "aa" = false.
Proof. repeat split; reflexivity. Qed.

(** C6 (amended).  For an expression that, trimmed and with its '..'
    segments resolved, is not empty and does not start with '!', [get]
    builds the pattern by replacing each '?' with '.' and each '*' with
    '.*?' and leaving every other character as it is.  When the expression
    holds, besides '?' and '*', only characters without a meaning of their
    own in regular expressions, the pattern is: start anchor, one item per
    character ('?' one character other than newline, '*' a lazy run of such
    characters, any other character itself), end anchor; on keys without
    newline it matches exactly as the wildcard language says.  So 'a/*'
    matches 'a/b', 'a/bc' and 'a/' but not 'ax/b', and 'a/?' matches 'a/b'
    but not 'a/bc'. *)
Theorem wildcard_translation (expr : string) (c : ascii) (rest : string) :
  resolved_path slash expr = String c rest ->
  Ascii.eqb c "!"%char = false ->
  let e := resolved_path slash expr in
  pattern_of slash expr =
    Ok ("^" ++ replace "*"%char ".*?" (replace "?"%char "." e) ++ "$")%string /\
  (plain_wildcard e = true ->
   re_compile ("^" ++ wildcard_to_re e ++ "$") = Ok [Bol :: items_of e ++ [Eol]] /\
   forall key, no_newline key = true ->
               path_matches expr key = Ok (wildcard_match e key)) /\
  map (path_matches "a/*") ["a/b"; "a/bc"; "a/"; "ax/b"] =
    [Ok true; Ok true; Ok true; Ok false] /\
  map (path_matches "a/?") ["a/b"; "a/bc"] = [Ok true; Ok false].
Proof.
  intros Es Hc e.
  pose proof (pattern_of_wildcard expr c rest Es Hc) as Hpat. fold e in Hpat.
  split; [exact Hpat|]. split; [|split; reflexivity].
  intros Hp. split; [now apply re_compile_wildcard|].
  intros key Hk. unfold path_matches. rewrite Hpat. cbn [bind].
  now apply re_match_wildcard.
Qed.

Lemma wildcard_translation_witness :
  resolved_path slash " a*c? " = String "a"%char "*c?" /\
  pattern_of slash " a*c? " = Ok "^a.*?c.$" /\
  path_matches " a*c? " "abcd" = Ok (wildcard_match "a*c?" "abcd").
Proof.
  assert (Es : resolved_path slash " a*c? " = String "a"%char "*c?") by reflexivity.
  destruct (wildcard_translation " a*c? " "a"%char "*c?" Es eq_refl)
    as (H1 & H2 & _).
  split; [exact Es|]. split; [exact H1|].
  exact (proj2 (H2 eq_refl) "abcd" eq_refl).
Defined.

(** C7 (what the code does).  [get] anchors the pattern with '^' and '$'
    around the text of the pattern.  The alternation in 'a|b' splits the
    anchored pattern into '^a' and 'b$', so the key 'ax' is counted as a
    match though only its prefix 'a' matched; and '$' also matches before a
    final newline, so 'a/b' matches the key made of 'a/b' and a newline.
    The keys 'a/bc' and 'xa/b' are not matched by 'a/b', and matching is
    case-sensitive. *)
Theorem anchored_pattern_matches_part_of_key :
  path_matches "a|b" "ax" = Ok true /\
  get (snapshot_with_keys ["ax"]) "a|b" = Ok [Obj [] (Node "ax" 0 []) [] []] /\
  path_matches "!a|b" "ax" = Ok true /\
  path_matches "a/b" (String.append "a/b" (String newline EmptyString)) = Ok true /\
  map (path_matches "a/b") ["a/bc"; "xa/b"; "a/b"; "A/B"] =
    [Ok false; Ok false; Ok true; Ok false].
Proof. repeat split; reflexivity. Qed.

Lemma matching_keys_none rematch pat keys :
  (forall key, In key keys -> rematch pat key = Ok false) ->
  matching_keys rematch pat keys = Ok [].
Proof.
  induction keys as [|k keys IH]; intros H; [reflexivity|].
  cbn [matching_keys]. rewrite (H k) by now left. cbn [bind].
  rewrite IH by (intros key Hk; apply H; now right). reflexivity.
Qed.

(** C8 (as stated, refuted).  On a snapshot with the key 'R' the expression
    '+' matches no key, and [get] raises the error of [re] for a pattern
    with nothing to repeat. *)
Lemma invalid_pattern_raises :
  get (snapshot_with_keys ["R"]) "+" = Raise ReError /\
  pattern_of slash "+" = Ok "^+$" /\
  re_compile "^+$" = Raise ReError.
Proof. repeat split; reflexivity. Qed.

(** C8 (amended).  When the expression gives a pattern (it is not empty
    once trimmed and resolved) and the pattern is a valid regular expression
    that matches none of the index keys, [get] raises nothing and returns
    the empty list; so it does on a snapshot without keys, whatever the
    pattern.  A pattern that [re] rejects makes [get] raise the error of
    [re] as soon as there is a key to test.  [re.match] is any function
    [rematch] here, so that the pattern may use all of the syntax of [re];
    the last part restates the error case for the modelled fragment. *)
Theorem unmatched_query_returns_empty
    (rematch : string -> string -> result bool)
    (h : ObjectHierarchy) (path pat : string) :
  pattern_of (sep h) path = Ok pat ->
  ((forall key, In key (dict_keys (entries h)) -> rematch pat key = Ok false) ->
   get_with rematch h path = Ok []) /\
  (entries h = [] -> get_with rematch h path = Ok []) /\
  (forall e, (forall key, rematch pat key = Raise e) -> entries h <> [] ->
             get_with rematch h path = Raise e) /\
  (re_compile pat = Raise ReError -> entries h <> [] -> get h path = Raise ReError).
Proof.
  intros Hp. unfold get, get_with. rewrite Hp. cbn [bind]. split; [|split; [|split]].
  - intros H. now rewrite matching_keys_none.
  - intros ->. reflexivity.
  - intros e He Hne. destruct (entries h) as [|[k vs] es]; [contradiction|].
    cbn [dict_keys map fst matching_keys]. rewrite He. reflexivity.
  - intros Hc Hne. destruct (entries h) as [|[k vs] es]; [contradiction|].
    cbn [dict_keys map fst matching_keys]. unfold re_match. rewrite Hc. reflexivity.
Qed.

Lemma unmatched_query_returns_empty_witness :
  pattern_of slash "Z" = Ok "^Z$" /\
  get (snapshot_with_keys ["R"; "R/A"]) "Z" = Ok [].
Proof.
  assert (Hp : pattern_of (sep (snapshot_with_keys ["R"; "R/A"])) "Z" = Ok "^Z$")
    by reflexivity.
  split; [exact Hp|].
  apply (proj1 (unmatched_query_returns_empty re_match
                  (snapshot_with_keys ["R"; "R/A"]) "Z" "^Z$" Hp)).
  intros key [<-|[<-|[]]]; reflexivity.
Defined.

(** * Further properties of the code *)

(** ** ObjectIterator with arbitrary stop objects *)

Lemma next_yield_state fuel o l co stop i it1 p :
  next fuel (MkIter o l co stop i) = (it1, Ok p) ->
  it1 = MkIter (fst p) (snd p) co stop false.
Proof.
  unfold next. cbn [init curobj curlvl childrenonly stopobjs]. destruct i.
  - intros E. injection E as <- <-. reflexivity.
  - destruct o as [op|]; [|discriminate].
    destruct (GetDown op) as [down|].
    + destruct (py_in (GetNext op) stop || py_in (Some down) stop); [discriminate|].
      intros E. injection E as <- <-. reflexivity.
    + destruct (py_in (Some op) stop); [discriminate|].
      destruct (ascend fuel stop op l) as [lvl [op'|e| |]]; try discriminate.
      destruct (GetNext op') as [nxt|]; [|discriminate].
      destruct (py_in (Some nxt) stop); [discriminate|].
      intros E. injection E as <- <-. reflexivity.
Qed.

Lemma next_yield_not_stopped fuel o l co stop it1 p :
  next fuel (MkIter o l co stop false) = (it1, Ok p) ->
  py_in (fst p) stop = false /\ exists q, fst p = Some q.
Proof.
  unfold next. cbn [init curobj curlvl childrenonly stopobjs].
  destruct o as [op|]; [|discriminate].
  destruct (GetDown op) as [down|].
  - destruct (py_in (GetNext op) stop || py_in (Some down) stop) eqn:E; [discriminate|].
    apply orb_false_iff in E. destruct E as [_ E].
    intros H. injection H as <- <-. cbn [fst]. split; [exact E|now exists down].
  - destruct (py_in (Some op) stop); [discriminate|].
    destruct (ascend fuel stop op l) as [lvl [op'|e| |]]; try discriminate.
    destruct (GetNext op') as [nxt|]; [|discriminate].
    destruct (py_in (Some nxt) stop) eqn:E; [discriminate|].
    intros H. injection H as <- <-. cbn [fst]. split; [exact E|now exists nxt].
Qed.

Lemma iterate_loop_not_stopped steps fuel : forall o l co stop ys,
  iterate_loop steps fuel (MkIter o l co stop false) = Ok ys ->
  Forall (fun p => py_in (fst p) stop = false /\ exists q, fst p = Some q) ys.
Proof.
  induction steps as [|steps IH]; intros o l co stop ys H; [discriminate|].
  cbn [iterate_loop] in H.
  destruct (next fuel (MkIter o l co stop false)) as [it1 [p|e| |]] eqn:En;
    try discriminate.
  - pose proof (next_yield_state _ _ _ _ _ _ _ _ En) as ->.
    destruct (iterate_loop steps fuel _) as [ps|e| |] eqn:Ei; try discriminate.
    cbn [bind] in H. injection H as <-. constructor.
    + exact (next_yield_not_stopped _ _ _ _ _ _ _ En).
    + exact (IH _ _ _ _ _ Ei).
  - destruct e; try discriminate. injection H as <-. constructor.
Qed.

(** The stop list the constructor builds. *)
Lemma ObjectIterator_init_fields fuel startobj stopobj co startlvl it :
  ObjectIterator_init fuel startobj stopobj co startlvl = Ok it ->
  curobj it = startobj /\ childrenonly it = co /\ init it = negb co /\
  (co = true -> py_in startobj (stopobjs it) = true \/ startobj = None) /\
  (forall d, stopobj = StopObj d -> py_in (Some d) (stopobjs it) = true) /\
  (forall ds d, stopobj = StopList ds -> In (Some d) ds ->
                py_in (Some d) (stopobjs it) = true).
Proof.
  unfold ObjectIterator_init.
  destruct (level_loop fuel startobj startlvl) as [lvl|e| |]; try discriminate.
  cbn [bind]. intros E. injection E as <-.
  cbn [curobj childrenonly init stopobjs].
  assert (Hin : forall (x : obj) l, In (Some x) l -> py_in (Some x) l = true).
  { intros x l Hx. unfold py_in. apply existsb_exists. exists (Some x).
    split; [exact Hx|]. cbn [py_eqb]. now apply obj_eqb_eq. }
  repeat split.
  - intros ->. destruct startobj as [s|]; [left|now right].
    destruct stopobj as [|d|[|x ds]]; apply Hin; cbn [app]; now left.
  - intros d ->. apply Hin. apply in_or_app. right. now left.
  - intros ds d -> Hd. destruct ds as [|x ds]; [contradiction|].
    apply Hin. apply in_or_app. now right.
Qed.

Lemma iterate_avoids_stop
    (fuel : nat) (startobj : option obj) (stopobj : stoparg) (co : bool)
    (startlvl : Z) (it : ObjectIterator) (ys : list (option obj * Z)) :
  ObjectIterator_init fuel startobj stopobj co startlvl = Ok it ->
  iterate fuel it = Ok ys ->
  Forall (fun p => py_in (fst p) (stopobjs it) = false /\ exists q, fst p = Some q)
         (if co then ys else tl ys) /\
  (co = true -> forall s, startobj = Some s -> ~ In (Some s) (map fst ys)) /\
  (forall d, stopobj = StopObj d -> ~ In (Some d) (map fst (if co then ys else tl ys))).
Proof.
  intros Hi Hy.
  destruct (ObjectIterator_init_fields _ _ _ _ _ _ Hi) as (Hc & Hco & Hin & Hs & Hd & _).
  assert (Hall : Forall (fun p => py_in (fst p) (stopobjs it) = false /\
                                  exists q, fst p = Some q)
                        (if co then ys else tl ys)).
  { destruct it as [o l c stop i]. cbn [curobj childrenonly init stopobjs] in *.
    subst o c i. unfold iterate in Hy. destruct co; cbn [negb] in Hy.
    - exact (iterate_loop_not_stopped _ _ _ _ _ _ _ Hy).
    - destruct fuel as [|steps]; [discriminate|]. cbn [iterate_loop] in Hy.
      unfold next at 1 in Hy. cbn [init curobj curlvl childrenonly stopobjs] in Hy.
      destruct (iterate_loop steps (S steps) _) as [ps|e| |] eqn:Ei; try discriminate.
      cbn [bind] in Hy. injection Hy as <-. cbn [tl].
      exact (iterate_loop_not_stopped _ _ _ _ _ _ _ Ei). }
  assert (Hnot : forall x, py_in (Some x) (stopobjs it) = true ->
                           ~ In (Some x) (map fst (if co then ys else tl ys))).
  { intros x Hx Hm. apply in_map_iff in Hm. destruct Hm as (p & Hp & Hm).
    rewrite Forall_forall in Hall. destruct (Hall p Hm) as [Hn _].
    rewrite Hp in Hn. congruence. }
  split; [exact Hall|]. split.
  - intros -> s ->. destruct (Hs eq_refl) as [H|H]; [|discriminate].
    now apply Hnot.
  - intros d ->. apply Hnot. now apply Hd.
Qed.

(** X1.  Whatever stop objects are given, the iterator never yields one of
    them, and in [children_only] mode it never yields the start object:
    every pair produced after the pending first element holds an object that
    is not in the stop list. *)
Theorem iterator_never_yields_stop_object
    (fuel : nat) (startobj : option obj) (stopobj : stoparg) (co : bool)
    (startlvl : Z) (it : ObjectIterator) (ys : list (option obj * Z)) :
  ObjectIterator_init fuel startobj stopobj co startlvl = Ok it ->
  iterate fuel it = Ok ys ->
  Forall (fun p => py_in (fst p) (stopobjs it) = false /\ exists q, fst p = Some q)
         (if co then ys else tl ys) /\
  (co = true -> forall s, startobj = Some s -> ~ In (Some s) (map fst ys)) /\
  (forall d, stopobj = StopObj d -> ~ In (Some d) (map fst (if co then ys else tl ys))).
Proof. apply iterate_avoids_stop. Qed.

Lemma iterator_never_yields_stop_object_witness :
  exists it ys,
    ObjectIterator_init 10 (Some oR) (StopObj oB) true (-1) = Ok it /\
    iterate 10 it = Ok ys /\
    ~ In (Some oB) (map fst ys).
Proof.
  assert (Hi : ObjectIterator_init 10 (Some oR) (StopObj oB) true (-1) =
               Ok (MkIter (Some oR) 0 true [Some oR; Some oB] false)) by reflexivity.
  assert (Hy : iterate 10 (MkIter (Some oR) 0 true [Some oR; Some oB] false) =
               Ok [(Some oA, 1%Z)]) by reflexivity.
  eexists. eexists. split; [exact Hi|]. split; [exact Hy|].
  exact (proj2 (proj2 (iterator_never_yields_stop_object
                         10 (Some oR) (StopObj oB) true (-1) _ _ Hi Hy)) oB eq_refl).
Defined.

(** *** A longer stop list only cuts the sequence short *)

Section WeakerStopList.
Variables L L' : list (option obj).
Hypothesis Hsub : forall x, py_in x L' = true -> py_in x L = true.

Lemma py_in_weaker x : py_in x L = false -> py_in x L' = false.
Proof.
  intros H. destruct (py_in x L') eqn:E; [|reflexivity].
  apply Hsub in E. congruence.
Qed.

Lemma ascend_weaken fuel : forall op lvl,
  ascend fuel L op lvl = ascend fuel L' op lvl \/
  exists l2, ascend fuel L op lvl = (l2, Raise StopIteration).
Proof.
  induction fuel as [|fuel IH]; intros op lvl; cbn [ascend].
  - left. reflexivity.
  - destruct (GetNext op); [now left|]. destruct (GetUp op) as [up|]; [|now left].
    destruct (py_in (Some op) L || py_in (Some up) L) eqn:E.
    + right. now exists lvl.
    + apply orb_false_iff in E. destruct E as [E1 E2].
      rewrite (py_in_weaker _ E1), (py_in_weaker _ E2). cbn [orb]. apply IH.
Qed.

Lemma next_weaken fuel o l co i :
  next fuel (MkIter o l co L i) =
    (set_stop (fst (next fuel (MkIter o l co L' i))) L,
     snd (next fuel (MkIter o l co L' i))) \/
  exists it2, next fuel (MkIter o l co L i) = (it2, Raise StopIteration).
Proof.
  unfold next. cbn [init curobj curlvl childrenonly stopobjs]. destruct i.
  - left. reflexivity.
  - destruct o as [op|]; [|right; eexists; reflexivity].
    destruct (GetDown op) as [down|].
    + destruct (py_in (GetNext op) L || py_in (Some down) L) eqn:E;
        [right; eexists; reflexivity|].
      apply orb_false_iff in E. destruct E as [E1 E2].
      rewrite (py_in_weaker _ E1), (py_in_weaker _ E2). left. reflexivity.
    + destruct (py_in (Some op) L) eqn:E; [right; eexists; reflexivity|].
      rewrite (py_in_weaker _ E).
      destruct (ascend_weaken fuel op l) as [Ea|[l2 Ea]]; rewrite Ea;
        [|right; eexists; reflexivity].
      destruct (ascend fuel L' op l) as [lvl [op'|e| |]]; try (left; reflexivity).
      destruct (GetNext op') as [nxt|]; [|left; reflexivity].
      destruct (py_in (Some nxt) L) eqn:En; [right; eexists; reflexivity|].
      rewrite (py_in_weaker _ En). left. reflexivity.
Qed.

Lemma iterate_loop_weaken steps fuel : forall o l co i zs,
  iterate_loop steps fuel (MkIter o l co L' i) = Ok zs ->
  exists ys rest,
    iterate_loop steps fuel (MkIter o l co L i) = Ok ys /\ zs = ys ++ rest.
Proof.
  induction steps as [|steps IH]; intros o l co i zs H; [discriminate|].
  cbn [iterate_loop] in *.
  destruct (next_weaken fuel o l co i) as [E|[it2 E]]; rewrite E;
    [|exists [], zs; split; reflexivity].
  destruct (next fuel (MkIter o l co L' i)) as [it1 [p|e| |]] eqn:En;
    cbn [fst snd]; try discriminate.
  - pose proof (next_yield_state _ _ _ _ _ _ _ _ En) as ->.
    destruct (iterate_loop steps fuel (MkIter (fst p) (snd p) co L' false))
      as [ps|e| |] eqn:Ei; try discriminate.
    cbn [bind] in H. injection H as <-.
    destruct (IH _ _ _ _ _ Ei) as (ys & rest & Ey & ->).
    unfold set_stop. cbn [curobj curlvl childrenonly init]. rewrite Ey.
    exists (p :: ys), rest. split; reflexivity.
  - destruct e; try discriminate. injection H as <-.
    exists [], []. split; reflexivity.
Qed.
End WeakerStopList.

Lemma py_in_app_l x l1 l2 : py_in x l1 = true -> py_in x (l1 ++ l2) = true.
Proof. unfold py_in. rewrite existsb_app. intros ->. reflexivity. Qed.

Lemma traverse_weaken fuel startobj stopobj co startlvl zs :
  traverse fuel startobj StopNone co startlvl = Ok zs ->
  exists ys rest,
    traverse fuel startobj stopobj co startlvl = Ok ys /\ zs = ys ++ rest.
Proof.
  unfold traverse, ObjectIterator_init.
  destruct (level_loop fuel startobj startlvl) as [lvl|e| |]; try discriminate.
  cbn [bind]. unfold iterate. intros H.
  destruct stopobj as [|d|[|x ds]];
    try (exists zs, []; split; [exact H|now rewrite app_nil_r]);
    apply (iterate_loop_weaken _ _ (fun y => py_in_app_l y _ _) _ _ _ _ _ _ _ H).
Qed.

(** X2.  With any stop objects the traversal ends, and what it yields is an
    initial part of what the traversal without stop objects yields from the
    same start in the same mode: the start's descendants in pre-order for
    [children_only=True]; the start, its descendants and the rest of the
    document for [children_only=False].  Stop objects only cut the sequence
    short, they never change or reorder it. *)
Theorem stop_objects_cut_the_sequence_short
    (fuel : nat) (s : obj) (stopobj : stoparg) (co : bool) (startlvl : Z) :
  (doc_size s < fuel)%nat ->
  exists ys rest,
    traverse fuel (Some s) stopobj co startlvl = Ok ys /\
    map (with_level startlvl) (snapshot_objs s co) = ys ++ rest.
Proof.
  intros Hf. apply traverse_weaken. unfold snapshot_objs.
  destruct co; [now apply traverse_children|now apply traverse_full].
Qed.

Lemma stop_objects_cut_the_sequence_short_witness :
  exists ys rest,
    traverse 10 (Some oR) (StopObj oB) true (-1) = Ok ys /\
    map (with_level (-1)) (snapshot_objs oR true) = ys ++ rest.
Proof.
  assert (Hf : (doc_size oR < 10)%nat) by (vm_compute; lia).
  exact (stop_objects_cut_the_sequence_short 10 oR (StopObj oB) true (-1) Hf).
Defined.

Lemma prefix_firstn {A B : Type} (f : A -> B) (l : list A) (ys rest : list B) :
  map f l = ys ++ rest -> ys = map f (firstn (List.length ys) l).
Proof.
  intros H. rewrite <- firstn_map, H, firstn_app, Nat.sub_diag, firstn_all.
  cbn [firstn]. now rewrite app_nil_r.
Qed.

(** X3.  A stop object other than the start bounds the traversal: what is
    yielded is the first [n] objects of the sequence without stop objects,
    for some [n], and the stop object is not among them; so neither the stop
    object nor anything after it is yielded. *)
Theorem stop_object_bounds_traversal
    (fuel : nat) (s d : obj) (co : bool) (startlvl : Z) :
  (doc_size s < fuel)%nat ->
  d <> s ->
  exists n,
    traverse fuel (Some s) (StopObj d) co startlvl =
      Ok (map (with_level startlvl) (firstn n (snapshot_objs s co))) /\
    ~ In d (firstn n (snapshot_objs s co)).
Proof.
  intros Hf Hd.
  destruct (traverse_weaken fuel (Some s) (StopObj d) co startlvl
              (map (with_level startlvl) (snapshot_objs s co))) as (ys & rest & Hy & Hp).
  { unfold snapshot_objs.
    destruct co; [now apply traverse_children|now apply traverse_full]. }
  pose proof (prefix_firstn _ _ _ _ Hp) as Hys.
  exists (List.length ys). rewrite <- Hys. split; [exact Hy|].
  unfold traverse in Hy.
  destruct (ObjectIterator_init fuel (Some s) (StopObj d) co startlvl) as [it|e| |] eqn:Hi;
    try discriminate.
  cbn [bind] in Hy.
  destruct (iterate_avoids_stop _ _ _ _ _ _ _ Hi Hy) as (_ & _ & Hnd).
  specialize (Hnd d eq_refl). intros Hin. apply Hnd.
  set (m := List.length ys) in *.
  assert (Hfst : map fst ys = map Some (firstn m (snapshot_objs s co))).
  { rewrite Hys, map_map. reflexivity. }
  destruct co.
  - rewrite Hfst. now apply in_map.
  - destruct (firstn m (snapshot_objs s false)) as [|a l] eqn:El; [contradiction|].
    assert (a = s) as ->.
    { unfold snapshot_objs in El. rewrite subtree_descendants in El.
      destruct m; [discriminate|]. cbn [firstn app] in El. now injection El. }
    destruct Hin as [Hin|Hin]; [congruence|].
    destruct ys as [|y ys']; [discriminate|]. cbn [tl map] in *.
    injection Hfst as _ Hfst. rewrite Hfst. now apply in_map.
Qed.

Lemma stop_object_bounds_traversal_witness :
  exists n,
    traverse 10 (Some oR) (StopObj oB) false (-1) =
      Ok (map (with_level (-1)) (firstn n (snapshot_objs oR false))) /\
    ~ In oB (firstn n (snapshot_objs oR false)).
Proof.
  assert (Hf : (doc_size oR < 10)%nat) by (vm_compute; lia).
  assert (Hd : oB <> oR) by discriminate.
  exact (stop_object_bounds_traversal 10 oR oB false (-1) Hf Hd).
Defined.

(** *** Exhaustion *)

Lemma ascend_level_shift fuel stop : forall op lvl k,
  ascend fuel stop op (lvl + k)%Z =
  ((fst (ascend fuel stop op lvl) + k)%Z, snd (ascend fuel stop op lvl)).
Proof.
  induction fuel as [|fuel IH]; intros op lvl k; cbn [ascend].
  - destruct (GetNext op); [reflexivity|]. destruct (GetUp op); reflexivity.
  - destruct (GetNext op); [reflexivity|]. destruct (GetUp op) as [up|]; [|reflexivity].
    destruct (py_in (Some op) stop || py_in (Some up) stop); [reflexivity|].
    replace (lvl + k - 1)%Z with (lvl - 1 + k)%Z by lia. apply IH.
Qed.

Lemma next_level_shift fuel o l co stop k :
  next fuel (MkIter o (l + k)%Z co stop false) =
  (shift_level k (fst (next fuel (MkIter o l co stop false))),
   shift_yield k (snd (next fuel (MkIter o l co stop false)))).
Proof.
  unfold next. cbn [init curobj curlvl childrenonly stopobjs].
  destruct o as [op|]; [|reflexivity].
  destruct (GetDown op) as [down|].
  - destruct (py_in (GetNext op) stop || py_in (Some down) stop); [reflexivity|].
    unfold set_cur, shift_level, shift_yield.
    cbn [fst snd init curobj curlvl childrenonly stopobjs].
    replace (l + k + 1)%Z with (l + 1 + k)%Z by lia. reflexivity.
  - destruct (py_in (Some op) stop); [reflexivity|].
    rewrite ascend_level_shift.
    destruct (ascend fuel stop op l) as [lvl [op'|e| |]]; cbn [fst snd];
      try reflexivity.
    destruct (GetNext op') as [nxt|]; [|reflexivity].
    destruct (py_in (Some nxt) stop); reflexivity.
Qed.

Lemma next_raise_state fuel o l co stop it' e :
  next fuel (MkIter o l co stop false) = (it', Raise e) ->
  exists l', it' = MkIter o l' co stop false.
Proof.
  unfold next. cbn [init curobj curlvl childrenonly stopobjs].
  destruct o as [op|]; [|intros E; injection E as <- _; now exists l].
  destruct (GetDown op) as [down|].
  - destruct (py_in (GetNext op) stop || py_in (Some down) stop); [|discriminate].
    intros E. injection E as <- _. now exists l.
  - destruct (py_in (Some op) stop); [intros E; injection E as <- _; now exists l|].
    destruct (ascend fuel stop op l) as [lvl [op'|e'| |]]; try discriminate.
    + destruct (GetNext op') as [nxt|].
      * destruct (py_in (Some nxt) stop); [|discriminate].
        intros E. injection E as <- _. now exists lvl.
      * intros E. injection E as <- _. now exists lvl.
    + intros E. injection E as <- _. now exists lvl.
Qed.

Lemma next_stopped_again fuel it it' :
  next fuel it = (it', Raise StopIteration) ->
  curobj it' = curobj it /\ stopobjs it' = stopobjs it /\
  exists it'', next fuel it' = (it'', Raise StopIteration).
Proof.
  destruct it as [o l co stop i]. destruct i; [discriminate|]. intros H.
  destruct (next_raise_state _ _ _ _ _ _ _ H) as [l' ->].
  split; [reflexivity|]. split; [reflexivity|].
  replace l' with (l + (l' - l))%Z by lia.
  rewrite next_level_shift, H. cbn [fst snd shift_yield]. eexists. reflexivity.
Qed.

Lemma call_next_stopped fuel n : forall it it',
  next fuel it = (it', Raise StopIteration) ->
  curobj (call_next n fuel it) = curobj it /\
  exists it'', next fuel (call_next n fuel it) = (it'', Raise StopIteration).
Proof.
  induction n as [|n IH]; intros it it' H; cbn [call_next].
  - split; [reflexivity|]. now exists it'.
  - rewrite H. cbn [fst].
    destruct (next_stopped_again fuel it it' H) as (Hc & _ & it'' & H').
    destruct (IH it' it'' H') as [Hc' Hn]. split; [congruence|exact Hn].
Qed.

(** X4.  Exhaustion is permanent: once a call of [next] has raised
    [StopIteration], every later call raises [StopIteration] again, and the
    current object stays where it was. *)
Theorem exhausted_iterator_stays_exhausted
    (fuel n : nat) (it it' : ObjectIterator) :
  next fuel it = (it', Raise StopIteration) ->
  snd (next fuel (call_next n fuel it)) = Raise StopIteration /\
  curobj (call_next n fuel it) = curobj it.
Proof.
  intros H. destruct (call_next_stopped fuel n it it' H) as [Hc [it'' Hn]].
  rewrite Hn. split; [reflexivity|exact Hc].
Qed.

Lemma exhausted_iterator_stays_exhausted_witness :
  snd (next 10 (call_next 3 10 (MkIter (Some oA1) 2 true [Some oA] false))) =
    Raise StopIteration.
Proof.
  assert (H : next 10 (MkIter (Some oA1) 2 true [Some oA] false) =
              (MkIter (Some oA1) 2 true [Some oA] false, Raise StopIteration))
    by reflexivity.
  exact (proj1 (exhausted_iterator_stays_exhausted 10 3 _ _ H)).
Defined.

(** ** getNextObject with a list of stop objects *)

Section NextObject.
Variable stop : list (option obj).
Variable d : nat.
Variable inside : obj -> Prop.

Hypothesis stop_None : py_in None stop = false.
Hypothesis stop_out :
  forall q, inside q -> (d <= depth q)%nat -> py_in (Some q) stop = false.
Hypothesis stop_in :
  forall q u, inside q -> (d <= depth q)%nat -> GetUp q = Some u ->
              (depth u < d)%nat -> py_in (Some u) stop = true.
Hypothesis inside_up :
  forall q u, inside q -> GetUp q = Some u -> (d <= depth u)%nat -> inside u.
Hypothesis inside_next :
  forall q n, inside q -> (d <= depth q)%nat -> GetNext q = Some n -> inside n.
Hypothesis inside_down :
  forall q c, inside q -> (d <= depth q)%nat -> GetDown q = Some c -> inside c.

Lemma up_while_last_stop_spec fuel : forall op,
  inside op -> (d <= depth op)%nat -> (depth op < fuel)%nat ->
  exists op',
    up_while_last_stop fuel stop op = Ok (Some op') /\
    inside op' /\ (d <= depth op')%nat /\ (depth op' <= depth op)%nat /\
    ((GetNext op' = None /\ after_below d op = []) \/
     (exists n, GetNext op' = Some n /\ after_below d op = n :: following d n)).
Proof.
  induction fuel as [|fuel IH]; intros op Hin Hd Hf; [lia|].
  cbn [up_while_last_stop]. destruct (GetNext op) as [n|] eqn:En.
  - exists op. repeat split; auto. right. exists n. split; [exact En|].
    rewrite (after_below_GetNext _ _ _ Hd En), (subtree_descendants n). reflexivity.
  - destruct (GetUp op) as [u|] eqn:Eu.
    + pose proof (depth_GetUp _ _ Eu) as Hdu.
      destruct (Nat.lt_ge_cases (depth u) d) as [Hlt|Hge].
      * rewrite (stop_in _ _ Hin Hd Eu Hlt). exists op. repeat split; auto.
        left. split; [exact En|].
        rewrite (after_below_GetUp _ _ _ Hd En Eu). now apply after_below_cut.
      * pose proof (inside_up _ _ Hin Eu Hge) as Hu.
        rewrite (stop_out _ Hu Hge), (stop_out _ Hin Hd). cbn [orb].
        destruct (IH u Hu Hge) as (op' & E & H1 & H2 & H3 & H4); [lia|].
        exists op'. rewrite E. repeat split; auto; [lia|].
        now rewrite (after_below_GetUp _ _ _ Hd En Eu).
    + exists op. repeat split; auto. left. split; [exact En|].
      now apply after_below_top.
Qed.

(** Below the cut, [getNextObject] returns the head of what follows. *)
Lemma getNextObject_spec fuel o :
  inside o -> (d <= depth o)%nat -> (depth o < fuel)%nat ->
  getNextObject fuel (Some o) (StopList stop) = Ok (hd_error (following d o)) /\
  (forall q, hd_error (following d o) = Some q ->
             inside q /\ (d <= depth q)%nat /\ (depth q <= S (depth o))%nat /\
             following d o = q :: following d q).
Proof.
  intros Hin Hd Hf. unfold getNextObject. cbn [py_in_opt bind].
  destruct (GetDown o) as [c|] eqn:Ec.
  - assert (Hn : py_in (GetNext o) stop = false).
    { destruct (GetNext o) as [n|] eqn:En; [|exact stop_None].
      apply stop_out; [now apply (inside_next _ _ Hin Hd En)|].
      rewrite (depth_GetNext _ _ En). exact Hd. }
    pose proof (depth_GetDown _ _ Ec) as Hdc.
    rewrite Hn, (stop_out _ (inside_down _ _ Hin Hd Ec)) by lia.
    rewrite (following_GetDown d o c Hd Ec). cbn [hd_error]. split; [reflexivity|].
    intros q E. injection E as <-. repeat split; try lia.
    now apply (inside_down _ _ Hin Hd Ec).
  - rewrite (stop_out _ Hin Hd), (following_leaf d o Ec).
    destruct (up_while_last_stop_spec fuel o Hin Hd Hf)
      as (op' & E & H1 & H2 & H3 & [[En Ea]|[n [En Ea]]]);
      rewrite E; cbn [bind]; rewrite En, Ea; cbn [hd_error].
    + split; [reflexivity|discriminate].
    + pose proof (depth_GetNext _ _ En) as Hdn.
      rewrite (stop_out _ (inside_next _ _ H1 H2 En)) by lia.
      split; [reflexivity|]. intros q Eq. injection Eq as <-.
      repeat split; try lia. now apply (inside_next _ _ H1 H2 En).
Qed.
End NextObject.

(** *** The position of an object in its subtree and in its document *)

Lemma objs_forest_split t r ab pre : forall l0,
  exists before,
    objs_forest (pre ++ t :: r) l0 ab =
    before ++ objs_tree t (rev pre ++ l0) r ab ++
    objs_forest r (t :: rev pre ++ l0) ab.
Proof.
  induction pre as [|a pre IH]; intros l0.
  - exists []. reflexivity.
  - destruct (IH (a :: l0)) as [before E]. cbn [app objs_forest rev].
    rewrite E, <- !app_assoc. cbn [app].
    exists (objs_tree a l0 (pre ++ t :: r) ab ++ before).
    now rewrite <- app_assoc.
Qed.

Lemma subtree_of_parent o u :
  GetUp o = Some u ->
  exists before, subtree u = u :: before ++ subtree o ++ later_siblings o.
Proof.
  destruct o as [l t r ab]. unfold GetUp. cbn [above lefts focus rights].
  destruct ab as [|[n y fl fr] ab]; [discriminate|]. intros E. injection E as <-.
  unfold subtree, later_siblings. cbn [focus lefts rights above f_name f_type f_left f_right].
  rewrite objs_tree_unfold.
  destruct (objs_forest_split t r (Frame n y fl fr :: ab) (rev l) []) as [before E].
  rewrite app_nil_r, rev_involutive in E. exists before. now rewrite E.
Qed.

Lemma subtree_split_under s k : forall o,
  up_n k o = Some s ->
  exists pre, subtree s = pre ++ o :: following (S (depth s)) o.
Proof.
  unfold following. induction k as [|k IH]; intros o E.
  - cbn [up_n] in E. injection E as ->. exists [].
    rewrite (after_below_cut (S (depth s)) s) by lia.
    now rewrite app_nil_r, <- subtree_descendants.
  - pose proof (depth_up_n _ _ _ E) as Hd. cbn [up_n] in E.
    destruct (GetUp o) as [u|] eqn:Eu; [|discriminate].
    destruct (IH u E) as [pre Hs].
    destruct (subtree_of_parent o u Eu) as [before Hu].
    rewrite (after_below_unfold (S (depth s)) o), Eu.
    replace (depth o <? S (depth s))%nat with false
      by (symmetry; apply Nat.ltb_ge; lia).
    exists (pre ++ u :: before). rewrite Hs.
    change (u :: descendants u ++ after_below (S (depth s)) u)
      with ((u :: descendants u) ++ after_below (S (depth s)) u).
    rewrite <- subtree_descendants, Hu.
    change (o :: descendants o ++ later_siblings o ++ after_below (S (depth s)) u)
      with ((o :: descendants o) ++ later_siblings o ++ after_below (S (depth s)) u).
    rewrite <- subtree_descendants, <- !app_assoc. cbn [app].
    now rewrite <- !app_assoc.
Qed.

Lemma NoDup_split_unique {A : Type} (x : A) l : forall a b a' b',
  NoDup l -> l = a ++ x :: b -> l = a' ++ x :: b' -> b = b'.
Proof.
  induction l as [|y l IH]; intros a b a' b' Hn E E'.
  - destruct a; discriminate.
  - inversion Hn as [|? ? Hy Hn']; subst.
    destruct a as [|z a], a' as [|z' a']; cbn [app] in E, E'.
    + congruence.
    + exfalso. apply Hy. assert (y = x) by congruence. subst y.
      assert (l = a' ++ x :: b') by congruence. subst l. apply in_elt.
    + exfalso. apply Hy. assert (y = x) by congruence. subst y.
      assert (l = a ++ x :: b) by congruence. subst l. apply in_elt.
    + apply (IH a b a' b' Hn'); congruence.
Qed.

Lemma document_split ab : forall l t r,
  exists pre,
    doc_objs (document_from ab l t r) =
    pre ++ objs_tree t l r ab ++ after_from 0 ab l t r.
Proof.
  unfold doc_objs. induction ab as [|[n y fl fr] ab IH]; intros l t r.
  - cbn [document_from after_from List.length Nat.ltb Nat.leb].
    destruct (objs_forest_split t r [] (rev l) []) as [before E].
    rewrite app_nil_r, rev_involutive in E. exists before.
    now rewrite E, app_nil_r.
  - cbn [document_from f_name f_type f_left f_right].
    destruct (IH fl (Node n y (rev l ++ t :: r)) fr) as [pre E]. rewrite E.
    rewrite objs_tree_unfold.
    destruct (objs_forest_split t r (Frame n y fl fr :: ab) (rev l) []) as [before E'].
    rewrite app_nil_r, rev_involutive in E'. rewrite E'.
    exists (pre ++ Obj fl (Node n y (rev l ++ t :: r)) fr ab :: before).
    change (after_from 0 (Frame n y fl fr :: ab) l t r)
      with (objs_forest r (t :: l) (Frame n y fl fr :: ab) ++
            after_from 0 ab fl (Node n y (rev l ++ t :: r)) fr).
    rewrite <- !app_assoc. cbn [app]. now rewrite <- !app_assoc.
Qed.

Lemma document_split_at o :
  exists pre, doc_objs (document_of o) = pre ++ o :: following 0 o.
Proof.
  destruct (document_split (above o) (lefts o) (focus o) (rights o)) as [pre E].
  exists pre. unfold document_of. rewrite E. unfold following.
  change (objs_tree (focus o) (lefts o) (rights o) (above o)) with (subtree o).
  change (after_from 0 (above o) (lefts o) (focus o) (rights o)) with (after_below 0 o).
  now rewrite subtree_descendants.
Qed.

Lemma NoDup_doc_objs doc : NoDup (doc_objs doc).
Proof.
  apply (NoDup_map_inv index). unfold doc_objs. rewrite index_objs_forest.
  apply seq_NoDup.
Qed.

Lemma getNextObject_StopObj fuel o s :
  getNextObject fuel o (StopObj s) = getNextObject fuel o (StopList [Some s]).
Proof. reflexivity. Qed.

Lemma getNextObject_under fuel s o :
  under s o -> (depth o < fuel)%nat ->
  getNextObject fuel (Some o) (StopObj s) =
  Ok (hd_error (following (S (depth s)) o)) /\
  (forall q, hd_error (following (S (depth s)) o) = Some q ->
             under s q /\ (depth q <= S (depth o))%nat /\
             following (S (depth s)) o = q :: following (S (depth s)) q).
Proof.
  intros [k Hk] Hf. pose proof (depth_up_n _ _ _ Hk) as Hd.
  destruct k as [|k].
  - cbn [up_n] in Hk. injection Hk as ->. unfold following.
    rewrite (after_below_cut (S (depth s)) s), app_nil_r by lia.
    unfold getNextObject. cbn [py_in_opt bind].
    destruct (GetDown s) as [c|] eqn:Ec.
    + pose proof (depth_GetDown _ _ Ec) as Hdc.
      assert (Hn : py_in (GetNext s) [Some s] = false).
      { apply py_in_single_false. intros E. now apply (GetNext_neq s s). }
      assert (Hc : py_in (Some c) [Some s] = false).
      { apply py_in_single_false. intros E. injection E as ->. lia. }
      rewrite Hn, Hc. unfold descendants. rewrite (subtree_GetDown _ _ Ec).
      cbn [tl hd_error app]. rewrite (subtree_descendants c). cbn [app hd_error].
      split; [reflexivity|]. intros q E. injection E as <-.
      split; [exists 1%nat; cbn [up_n]; now rewrite (GetUp_GetDown _ _ Ec)|].
      split; [lia|].
      rewrite (after_below_GetDown (S (depth s)) s c) by (auto; lia).
      rewrite (after_below_cut (S (depth s)) s) by lia.
      now rewrite app_nil_r.
    + rewrite (proj2 (py_in_single (Some s) s) eq_refl).
      unfold descendants. rewrite (subtree_leaf _ Ec). cbn [tl hd_error].
      split; [reflexivity|discriminate].
  - rewrite getNextObject_StopObj.
    destruct (getNextObject_spec [Some s] (S (depth s)) (under s)) with (fuel := fuel) (o := o)
      as [E H]; try lia.
    + reflexivity.
    + intros q Hq Hdq. apply py_in_single_false. intros E. injection E as ->. lia.
    + intros q u Hq Hdq Eu Hu. apply py_in_single. f_equal.
      now apply (under_parent s q u).
    + intros q u. apply under_up.
    + intros q n. apply under_next.
    + intros q c' Hq _. now apply under_down.
    + now exists (S k).
    + split; [exact E|]. intros q Hq. destruct (H q Hq) as (H1 & _ & H3 & H4).
      repeat split; assumption.
Qed.

(** X5.  With a stop object [s], [getNextObject] walks the subtree of [s] in
    pre-order: called on an object of that subtree it returns the object
    that comes right after it in the pre-order listing of the subtree, and
    [None] on the last one; it never leaves the subtree. *)
Theorem getNextObject_steps_through_subtree
    (fuel : nat) (s o : obj) (pre post : list obj) :
  subtree s = pre ++ o :: post ->
  (depth o < fuel)%nat ->
  getNextObject fuel (Some o) (StopObj s) = Ok (hd_error post).
Proof.
  intros Hs Hf.
  assert (Hu : under s o).
  { apply in_subtree_iff. rewrite Hs. apply in_elt. }
  destruct (getNextObject_under fuel s o Hu Hf) as [E _]. rewrite E.
  destruct Hu as [k Hk]. destruct (subtree_split_under s k o Hk) as [pre' Hs'].
  now rewrite (NoDup_split_unique o (subtree s) pre' _ pre post (NoDup_subtree s) Hs' Hs).
Qed.

Lemma getNextObject_steps_through_subtree_witness :
  subtree oR = [oR; oA] ++ oA1 :: [oB] /\
  getNextObject 10 (Some oA1) (StopObj oR) = Ok (Some oB).
Proof.
  assert (Hs : subtree oR = [oR; oA] ++ oA1 :: [oB]) by reflexivity.
  assert (Hf : (depth oA1 < 10)%nat) by (vm_compute; lia).
  split; [exact Hs|].
  exact (getNextObject_steps_through_subtree 10 oR oA1 [oR; oA] [oB] Hs Hf).
Defined.

(** X6.  With an empty list of stop objects [getNextObject] is the
    successor in document order: it returns the object that comes right
    after the given one in the pre-order listing of the whole document, and
    [None] on the last object. *)
Theorem getNextObject_empty_list_is_document_successor
    (fuel : nat) (o : obj) (pre post : list obj) :
  doc_objs (document_of o) = pre ++ o :: post ->
  (depth o < fuel)%nat ->
  getNextObject fuel (Some o) (StopList []) = Ok (hd_error post).
Proof.
  intros Hs Hf.
  destruct (getNextObject_spec [] 0 (fun _ => True)) with (fuel := fuel) (o := o)
    as [E _]; auto; try lia; try (intros; lia).
  rewrite E. destruct (document_split_at o) as [pre' Hs'].
  now rewrite (NoDup_split_unique o _ pre' _ pre post (NoDup_doc_objs _) Hs' Hs).
Qed.

Lemma getNextObject_empty_list_is_document_successor_witness :
  doc_objs (document_of oB) = [oR; oA; oA1] ++ oB :: [oS] /\
  getNextObject 10 (Some oB) (StopList []) = Ok (Some oS).
Proof.
  assert (Hs : doc_objs (document_of oB) = [oR; oA; oA1] ++ oB :: [oS]) by reflexivity.
  assert (Hf : (depth oB < 10)%nat) by (vm_compute; lia).
  split; [exact Hs|].
  exact (getNextObject_empty_list_is_document_successor 10 oB [oR; oA; oA1] [oS] Hs Hf).
Defined.

(** ** findObject *)

Lemma findObject_loop_None steps fuel mf name s :
  findObject_loop steps fuel mf name s None = Ok None.
Proof. destruct steps; reflexivity. Qed.

Lemma findObject_loop_spec mf name s steps fuel : forall o,
  under s o ->
  (depth o + List.length (following (S (depth s)) o) < fuel)%nat ->
  (List.length (following (S (depth s)) o) < steps)%nat ->
  findObject_loop steps fuel mf name s (Some o) =
  Ok (find (fun q => name_matches mf name (GetName q))
           (o :: following (S (depth s)) o)).
Proof.
  induction steps as [|steps IH]; intros o Hu Hf Hs; [lia|].
  cbn [findObject_loop find].
  destruct (name_matches mf name (GetName o)); [reflexivity|].
  destruct (getNextObject_under fuel s o Hu) as [E H]; [lia|]. rewrite E. cbn [bind].
  destruct (hd_error (following (S (depth s)) o)) as [q|] eqn:Eh.
  - destruct (H q eq_refl) as (Hq & Hd & Ef). rewrite Ef in *.
    cbn [List.length] in Hf, Hs. apply IH; [exact Hq|lia|lia].
  - rewrite findObject_loop_None.
    destruct (following (S (depth s)) o); [reflexivity|discriminate].
Qed.

Lemma findObject_from SearchObject fuel d name start mf s :
  find_start SearchObject d start = Some s ->
  (doc_size s < fuel)%nat ->
  findObject SearchObject fuel (Some d) (Some name) start mf =
  Ok (find (fun q => name_matches mf name (GetName q)) (subtree s)).
Proof.
  intros Hs Hf. unfold findObject. rewrite Hs.
  rewrite subtree_descendants. cbn [find].
  destruct (name_matches mf name (GetName s)); [reflexivity|].
  pose proof (traversal_bound s) as Hb. rewrite length_app, subtree_descendants in Hb.
  cbn [List.length] in Hb.
  assert (Hu : under s s) by now exists 0%nat.
  destruct (getNextObject_under fuel s s Hu) as [E H]; [lia|]. rewrite E. cbn [bind].
  assert (Hfol : following (S (depth s)) s = descendants s).
  { unfold following. rewrite (after_below_cut (S (depth s)) s) by lia.
    apply app_nil_r. }
  rewrite Hfol in *.
  destruct (hd_error (descendants s)) as [q|] eqn:Eh.
  - destruct (H q eq_refl) as (Hq & Hd & Ef). rewrite Ef in *.
    cbn [List.length] in Hb.
    apply findObject_loop_spec; [exact Hq|clear - Hb Hf Hd; lia|clear - Hb Hf Hd; lia].
  - rewrite findObject_loop_None.
    destruct (descendants s); [reflexivity|discriminate].
Qed.

(** X7.  [findObject] returns the first object, in pre-order, of the
    subtree of the start object whose name matches (by [matchfunc], when one
    is given, or by equality), the start object itself included, and [None]
    when the subtree has no such object. *)
Theorem findObject_first_match_in_subtree
    (SearchObject : document -> string -> option obj)
    (fuel : nat) (d : document) (name : string) (start : startarg)
    (matchfunc : option (string -> string -> bool)) (s : obj) :
  find_start SearchObject d start = Some s ->
  (doc_size s < fuel)%nat ->
  findObject SearchObject fuel (Some d) (Some name) start matchfunc =
  Ok (find (fun q => name_matches matchfunc name (GetName q)) (subtree s)).
Proof. apply findObject_from. Qed.

Lemma findObject_first_match_in_subtree_witness :
  findObject (fun _ _ => None) 10 (Some sample_doc) (Some "B") (StartObj oR) None =
  Ok (Some oB).
Proof.
  assert (Hs : find_start (fun _ _ => None) sample_doc (StartObj oR) = Some oR)
    by reflexivity.
  assert (Hf : (doc_size oR < 10)%nat) by (vm_compute; lia).
  rewrite (findObject_first_match_in_subtree
             (fun _ _ => None) 10 sample_doc "B" (StartObj oR) None oR Hs Hf).
  reflexivity.
Defined.

(** X8.  Without a start object [findObject] searches only the hierarchy of
    the first top-level object of the document: an object that is not in
    that hierarchy is never returned, whatever its name.  In the sample
    document the second top-level object S is not found by its name. *)
Theorem findObject_default_start_skips_other_trees
    (SearchObject : document -> string -> option obj)
    (fuel : nat) (d : document) (name : string)
    (matchfunc : option (string -> string -> bool)) (first o : obj) :
  GetFirstObject d = Some first ->
  (doc_size first < fuel)%nat ->
  ~ under first o ->
  findObject SearchObject fuel (Some d) (Some name) StartNone matchfunc <> Ok (Some o) /\
  findObject SearchObject 10 (Some sample_doc) (Some "S") StartNone None = Ok None.
Proof.
  intros Hs Hf Hn. split; [|reflexivity].
  rewrite (findObject_from SearchObject fuel d name StartNone matchfunc first Hs Hf).
  intros E. injection E as E. apply find_some in E. destruct E as [E _].
  apply Hn. now apply in_subtree_iff.
Qed.

Lemma findObject_default_start_skips_other_trees_witness :
  findObject (fun _ _ => None) 10 (Some sample_doc) (Some "S") StartNone None <>
  Ok (Some oS).
Proof.
  assert (Hs : GetFirstObject sample_doc = Some oR) by reflexivity.
  assert (Hf : (doc_size oR < 10)%nat) by (vm_compute; lia).
  assert (Hn : ~ under oR oS).
  { intros [[|k] E]; [discriminate E|]. apply depth_up_n in E. cbn in E. lia. }
  exact (proj1 (findObject_default_start_skips_other_trees
                  (fun _ _ => None) 10 sample_doc "S" None oR oS Hs Hf Hn)).
Defined.

(** ** ObjectEntry *)

Lemma string_length_append s1 s2 :
  String.length (s1 ++ s2) = (String.length s1 + String.length s2)%nat.
Proof. induction s1 as [|c s1 IH]; cbn; [reflexivity|now rewrite IH]. Qed.

Lemma length_repeat_string c n :
  String.length (repeat_string c n) = (n * String.length c)%nat.
Proof.
  induction n as [|n IH]; [reflexivity|].
  cbn [repeat_string]. rewrite string_length_append, IH. lia.
Qed.

Lemma repeat_four_spaces n :
  repeat_string (repeat_string " " (Z.to_nat 4)) n =
  string_of_list_ascii (List.repeat " "%char (4 * n)).
Proof.
  induction n as [|n IH]; [reflexivity|].
  replace (4 * S n)%nat with (4 + 4 * n)%nat by lia.
  cbn [repeat_string]. rewrite IH. reflexivity.
Qed.

(** X9.  [ObjectEntry] stores a non-negative [lvl] argument as given and
    adds to a negative one the number of objects from [op] up to the top of
    the document; with the default [-1] the stored level is the depth of
    [op], which is the level [ObjectIterator] yields for [op] with its own
    default.  [str] is the name after four spaces per level (none for a
    negative level), and nothing else. *)
Theorem ObjectEntry_level
    (fuel : nat) (o : obj) (level : Z) (ps : option (list obj)) :
  (depth o < fuel)%nat ->
  exists e,
    ObjectEntry.init fuel (Some o) level ps = Ok e /\
    ObjectEntry.op e = o /\ ObjectEntry.name e = GetName o /\
    ObjectEntry.lvl e =
      (if (level <? 0)%Z then level + 1 + Z.of_nat (depth o) else level)%Z /\
    (level = (-1)%Z -> (Some o, ObjectEntry.lvl e) = with_level (-1) o) /\
    ObjectEntry.str e =
      (string_of_list_ascii (List.repeat " "%char (4 * Z.to_nat (ObjectEntry.lvl e))) ++
       GetName o)%string /\
    ((0 <= ObjectEntry.lvl e)%Z ->
     String.length (ObjectEntry.str e) =
     (4 * Z.to_nat (ObjectEntry.lvl e) + String.length (GetName o))%nat).
Proof.
  intros Hf. unfold ObjectEntry.init.
  assert (E : (if (level <? 0)%Z then level_loop fuel (Some o) level else Ok level) =
              Ok (if (level <? 0)%Z then level + 1 + Z.of_nat (depth o) else level)%Z).
  { destruct (level <? 0)%Z; [now apply level_loop_spec|reflexivity]. }
  rewrite E. cbn [bind]. eexists. split; [reflexivity|].
  cbn [ObjectEntry.op ObjectEntry.name ObjectEntry.lvl].
  repeat split.
  - intros ->. reflexivity.
  - unfold ObjectEntry.str, str_times. cbn [ObjectEntry.lvl ObjectEntry.name].
    now rewrite repeat_four_spaces.
  - intros _. unfold ObjectEntry.str, str_times.
    cbn [ObjectEntry.lvl ObjectEntry.name].
    rewrite string_length_append, length_repeat_string.
    change (String.length (repeat_string " " (Z.to_nat 4))) with 4%nat. lia.
Qed.

Lemma ObjectEntry_level_witness :
  exists e,
    ObjectEntry.init 10 (Some oA1) (-1) None = Ok e /\
    ObjectEntry.lvl e = 2%Z /\ ObjectEntry.str e = "        A1".
Proof.
  assert (Hf : (depth oA1 < 10)%nat) by (vm_compute; lia).
  destruct (ObjectEntry_level 10 oA1 (-1) None Hf) as (e & H1 & _ & _ & H4 & _ & H6 & _).
  exists e. split; [exact H1|]. split; [exact H4|].
  rewrite H6, H4. reflexivity.
Defined.

(** ** The greatest level and the type filter of a snapshot *)

Lemma fold_index_step_max fuel ft startlvl objs : forall h mx,
  (forall q, In q objs -> (depth q < fuel)%nat) ->
  fold_result (index_step fuel slash ft) (map (with_level startlvl) objs) (h, mx) =
  Ok (fold_left (fun h o => dict_append (path_key o) o h)
        (filter (type_passes ft) objs) h,
      fold_left Z.max (map (fun q => snd (with_level startlvl q)) objs) mx).
Proof.
  induction objs as [|o objs IH]; intros h mx H; cbn [map fold_result filter fold_left].
  - reflexivity.
  - unfold with_level at 1. rewrite index_step_spec by (apply H; now left).
    cbn [bind snd]. 
    replace (if (startlvl + 1 + Z.of_nat (depth o) >? mx)%Z
             then (startlvl + 1 + Z.of_nat (depth o))%Z else mx)
      with (Z.max mx (snd (with_level startlvl o)))
      by (cbn [with_level snd]; destruct (Z.gtb_spec (startlvl + 1 + Z.of_nat (depth o)) mx); lia).
    destruct (type_passes ft o); cbn [fold_left];
      apply IH; intros q Hq; apply H; now right.
Qed.

Lemma ObjectHierarchy_init_full fuel doc rootobj ft start :
  fst (snapshot_start doc rootobj) = Some start ->
  (doc_size start < fuel)%nat ->
  let objs := snapshot_objs start (snd (snapshot_start doc rootobj)) in
  ObjectHierarchy_init fuel doc rootobj ft =
  Ok (MkHierarchy (Some start)
        (fold_left Z.max (map (fun q => Z.of_nat (depth q)) objs) (-1)%Z)
        slash
        (file_all path_key (filter (type_passes ft) objs))).
Proof.
  intros Hs Hf objs. unfold ObjectHierarchy_init. subst objs.
  destruct (snapshot_start doc rootobj) as [r co]. cbn [fst snd] in *. subst r.
  pose proof (traverse_snapshot fuel start co Hf) as Ht. unfold traverse in Ht.
  destruct (ObjectIterator_init fuel (Some start) StopNone co (-1)) as [it|e| |];
    try discriminate Ht.
  cbn [bind] in *. unfold iterate in Ht.
  rewrite (for_each_iterate (index_step fuel slash ft) fuel fuel it _ _ Ht).
  rewrite fold_index_step_max
    by (intros q Hq; apply snapshot_objs_bound in Hq; lia).
  reflexivity.
Qed.

Lemma fold_max_ge l : forall m x,
  (m <= fold_left Z.max l m)%Z /\
  (In x l -> x <= fold_left Z.max l m)%Z.
Proof.
  induction l as [|a l IH]; intros m x; cbn [fold_left].
  - split; [lia|intros []].
  - destruct (IH (Z.max m a) x) as [H1 H2]. split; [lia|].
    intros [<-|Hx]; [lia|now apply H2].
Qed.

Lemma fold_max_attained l : forall m,
  fold_left Z.max l m = m \/ In (fold_left Z.max l m) l.
Proof.
  induction l as [|a l IH]; intros m; cbn [fold_left]; [now left|].
  destruct (IH (Z.max m a)) as [H|H]; [|right; now right].
  rewrite H. destruct (Z.max_spec m a) as [[_ E]|[_ E]]; rewrite E.
  - right. now left.
  - now left.
Qed.

(** X10.  The [maxlvl] of a snapshot is the greatest depth among the objects
    its traversal yields, whether or not they pass the type filter; it is
    [-1] when the traversal yields nothing. *)
Theorem maxlvl_is_greatest_depth
    (fuel : nat) (doc : document) (rootobj : option obj) (filtertype : option Z)
    (start : obj) :
  fst (snapshot_start doc rootobj) = Some start ->
  (doc_size start < fuel)%nat ->
  let objs := snapshot_objs start (snd (snapshot_start doc rootobj)) in
  exists h,
    ObjectHierarchy_init fuel doc rootobj filtertype = Ok h /\
    (forall q, In q objs -> (Z.of_nat (depth q) <= maxlvl h)%Z) /\
    (objs = [] -> maxlvl h = (-1)%Z) /\
    (objs <> [] -> exists q, In q objs /\ maxlvl h = Z.of_nat (depth q)).
Proof.
  intros Hs Hf objs. eexists.
  split; [exact (ObjectHierarchy_init_full fuel doc rootobj filtertype start Hs Hf)|].
  cbn [maxlvl]. fold objs. split; [|split].
  - intros q Hq. apply fold_max_ge. apply in_map_iff. now exists q.
  - intros ->. reflexivity.
  - intros Hne.
    destruct (fold_max_attained (map (fun q => Z.of_nat (depth q)) objs) (-1)%Z)
      as [E|E].
    + destruct objs as [|q objs']; [contradiction|].
      pose proof (proj2 (fold_max_ge (map (fun q => Z.of_nat (depth q)) (q :: objs'))
                           (-1)%Z (Z.of_nat (depth q))) (or_introl eq_refl)).
      lia.
    + apply in_map_iff in E. destruct E as (q & Eq & Hq). exists q. now split.
Qed.

Lemma maxlvl_is_greatest_depth_witness :
  exists h,
    ObjectHierarchy_init 10 sample_doc (Some oR) (Some 5100%Z) = Ok h /\
    (forall q, In q (snapshot_objs oR true) -> (Z.of_nat (depth q) <= maxlvl h)%Z).
Proof.
  assert (Hs : fst (snapshot_start sample_doc (Some oR)) = Some oR) by reflexivity.
  assert (Hf : (doc_size oR < 10)%nat) by (vm_compute; lia).
  destruct (maxlvl_is_greatest_depth 10 sample_doc (Some oR) (Some 5100%Z) oR Hs Hf)
    as (h & H1 & H2 & _).
  exists h. split; [exact H1|exact H2].
Defined.

(** X11.  With a type filter the index holds exactly the traversed objects
    of that type, each under its key; the filter value 0 indexes nothing. *)
Theorem type_filter_selects_indexed_objects
    (fuel : nat) (doc : document) (rootobj : option obj) (ft : Z) (start : obj) :
  fst (snapshot_start doc rootobj) = Some start ->
  (doc_size start < fuel)%nat ->
  let objs := snapshot_objs start (snd (snapshot_start doc rootobj)) in
  exists h,
    ObjectHierarchy_init fuel doc rootobj (Some ft) = Ok h /\
    (forall k o, In o (dict_get k (entries h)) <->
                 In o objs /\ GetType o = ft /\ ft <> 0%Z /\ k = path_key o) /\
    (ft = 0%Z -> entries h = []) /\
    total_filed (entries h) = List.length (filter (type_passes (Some ft)) objs).
Proof.
  intros Hs Hf objs. eexists.
  split; [exact (ObjectHierarchy_init_full fuel doc rootobj (Some ft) start Hs Hf)|].
  cbn [entries]. fold objs.
  destruct (file_onto_spec path_key (filter (type_passes (Some ft)) objs) [])
    as (H1 & H2 & _).
  split; [|split].
  - intros k o. unfold file_all. rewrite H1. cbn [dict_get app].
    rewrite !filter_In, String.eqb_eq. unfold type_passes.
    rewrite andb_true_iff, negb_true_iff, Z.eqb_eq, Z.eqb_neq. intuition congruence.
  - intros ->. unfold file_all.
    replace (filter (type_passes (Some 0%Z)) objs) with (@nil obj); [reflexivity|].
    clear. induction objs as [|o os IH]; [reflexivity|exact IH].
  - unfold file_all. rewrite H2. reflexivity.
Qed.

Lemma type_filter_selects_indexed_objects_witness :
  exists h,
    ObjectHierarchy_init 10 sample_doc None (Some 5100%Z) = Ok h /\
    (forall k o, In o (dict_get k (entries h)) <->
                 In o (snapshot_objs oR false) /\ GetType o = 5100%Z /\
                 5100%Z <> 0%Z /\ k = path_key o).
Proof.
  assert (Hs : fst (snapshot_start sample_doc None) = Some oR) by reflexivity.
  assert (Hf : (doc_size oR < 10)%nat) by (vm_compute; lia).
  destruct (type_filter_selects_indexed_objects 10 sample_doc None 5100%Z oR Hs Hf)
    as (h & H1 & H2 & _).
  exists h. split; [exact H1|exact H2].
Defined.

(** ** Queries without special characters *)

Lemma literal_plain e : literal e = true -> plain_wildcard e = true.
Proof.
  induction e as [|c e IH]; [reflexivity|]. cbn [literal plain_wildcard].
  intros H. apply andb_true_iff in H. destruct H as [Hc He].
  rewrite Hc, (IH He), orb_true_r. reflexivity.
Qed.

Lemma item_of_literal c : is_special c = false -> item_of c = Rep One true (Lit c).
Proof.
  intros H. unfold item_of.
  destruct (Ascii.eqb_spec c "?"%char) as [->|_]; [discriminate H|].
  destruct (Ascii.eqb_spec c "*"%char) as [->|_]; [discriminate H|]. reflexivity.
Qed.

Lemma match_items_literal e : forall pos key,
  literal e = true ->
  match_items (items_of e ++ [Eol]) pos key = is_key_or_newline e key.
Proof.
  unfold is_key_or_newline.
  induction e as [|c e IH]; intros pos key H.
  - cbn [items_of app match_items String.append].
    rewrite andb_true_r. destruct key as [|k [|k' key']]; cbn [at_end String.eqb];
      try reflexivity; destruct (Ascii.eqb k newline); reflexivity.
  - cbn [literal] in H. apply andb_true_iff in H. destruct H as [Hc He].
    apply negb_true_iff in Hc.
    cbn [items_of app String.append]. rewrite (item_of_literal c Hc).
    cbn [match_items in_charset]. destruct key as [|k key]; [reflexivity|].
    cbn [String.eqb]. rewrite (IH (S pos) key He).
    destruct (Ascii.eqb k c); reflexivity.
Qed.

Lemma re_match_literal e key :
  literal e = true ->
  re_match ("^" ++ wildcard_to_re e ++ "$") key = Ok (is_key_or_newline e key).
Proof.
  intros H. unfold re_match.
  rewrite (re_compile_wildcard e (literal_plain e H)). cbn [bind existsb match_items].
  rewrite orb_false_r. cbn [Nat.eqb andb]. f_equal. now apply match_items_literal.
Qed.

Lemma matching_keys_filter rematch pat f keys :
  (forall key, rematch pat key = Ok (f key)) ->
  matching_keys rematch pat keys = Ok (filter f keys).
Proof.
  intros H. induction keys as [|k keys IH]; [reflexivity|].
  cbn [matching_keys filter]. rewrite H, IH. reflexivity.
Qed.

Lemma get_literal h path c rest :
  resolved_path (sep h) path = String c rest ->
  sep h = slash ->
  Ascii.eqb c "!"%char = false ->
  literal (String c rest) = true ->
  get h path =
  Ok (flat_map (fun key => dict_get key (entries h))
        (filter (is_key_or_newline (String c rest)) (dict_keys (entries h)))).
Proof.
  intros Hr Hsep Hc Hl. unfold get, get_with. rewrite Hsep in *.
  rewrite (pattern_of_wildcard path c rest Hr Hc), Hr. cbn [bind].
  rewrite (matching_keys_filter _ _ (is_key_or_newline (String c rest)));
    [reflexivity|].
  intros key. now apply re_match_literal.
Qed.

Lemma dict_get_absent k h : ~ In k (dict_keys h) -> dict_get k h = [].
Proof.
  induction h as [|[k0 vs] h IH]; intros H; [reflexivity|].
  cbn [dict_get]. cbn [dict_keys map fst] in H.
  destruct (String.eqb_spec k0 k) as [->|Hn].
  - exfalso. apply H. now left.
  - apply IH. intros Hk. apply H. now right.
Qed.

Lemma filter_single_key e (keys : list string) :
  NoDup keys ->
  ~ In (e ++ String newline EmptyString)%string keys ->
  flat_map (fun key => [key]) (filter (is_key_or_newline e) keys) =
  if in_dec string_dec e keys then [e] else [].
Proof.
  unfold is_key_or_newline.
  induction keys as [|k keys IH]; intros Hn Hnl; [reflexivity|].
  inversion Hn as [|? ? Hk Hn']; subst. cbn [filter].
  assert (Hnl' : ~ In (e ++ String newline EmptyString)%string keys)
    by (intros Hx; apply Hnl; now right).
  specialize (IH Hn' Hnl').
  destruct (String.eqb_spec k (e ++ String newline EmptyString)) as [->|Hne].
  { exfalso. apply Hnl. now left. }
  rewrite orb_false_r.
  destruct (String.eqb_spec k e) as [->|Hke].
  - cbn [flat_map app]. rewrite IH.
    destruct (in_dec string_dec e keys) as [Hin|_]; [contradiction|].
    destruct (in_dec string_dec e (e :: keys)) as [_|Hnot]; [reflexivity|].
    exfalso. apply Hnot. now left.
  - rewrite IH.
    destruct (in_dec string_dec e keys) as [Hin|Hnin];
      destruct (in_dec string_dec e (k :: keys)) as [Hin'|Hnin']; try reflexivity.
    + exfalso. apply Hnin'. now right.
    + destruct Hin' as [->|Hin']; [congruence|contradiction].
Qed.

(** X12.  For a query that, trimmed and resolved, holds no character with a
    meaning of its own in regular expressions, no wildcard and no leading
    '!', [get] returns the objects filed under the keys equal to the query
    or to the query followed by a newline, in key order.  When the index has
    no repeated key and no key that is the query followed by a newline, the
    result is exactly the list filed under the query (empty when there is no
    such key). *)
Theorem get_plain_key_returns_its_entry
    (h : ObjectHierarchy) (path : string) (c : ascii) (rest : string) :
  sep h = slash ->
  resolved_path slash path = String c rest ->
  Ascii.eqb c "!"%char = false ->
  literal (String c rest) = true ->
  get h path =
    Ok (flat_map (fun key => dict_get key (entries h))
          (filter (is_key_or_newline (String c rest)) (dict_keys (entries h)))) /\
  (NoDup (dict_keys (entries h)) ->
   ~ In (String c rest ++ String newline EmptyString)%string (dict_keys (entries h)) ->
   get h path = Ok (dict_get (String c rest) (entries h))).
Proof.
  intros Hsep Hr Hc Hl.
  assert (E : get h path =
              Ok (flat_map (fun key => dict_get key (entries h))
                    (filter (is_key_or_newline (String c rest)) (dict_keys (entries h))))).
  { apply get_literal; [now rewrite Hsep|exact Hsep|exact Hc|exact Hl]. }
  split; [exact E|]. intros Hn Hnl. rewrite E. f_equal.
  pose proof (filter_single_key (String c rest) _ Hn Hnl) as Hf.
  assert (Hfm : forall l : list string,
            flat_map (fun key => [key]) l = l).
  { induction l as [|x l IH]; [reflexivity|]. cbn [flat_map app]. now rewrite IH. }
  rewrite Hfm in Hf. rewrite Hf.
  destruct (in_dec string_dec (String c rest) (dict_keys (entries h))) as [Hin|Hnin].
  - cbn [flat_map]. apply app_nil_r.
  - cbn [flat_map]. symmetry. now apply dict_get_absent.
Qed.

Lemma get_plain_key_returns_its_entry_witness :
  exists h,
    ObjectHierarchy_init 10 sample_doc (Some oR) None = Ok h /\
    get h " R/A " = Ok [oA1].
Proof.
  eexists. split; [reflexivity|].
  set (h := MkHierarchy (Some oR) _ slash _).
  assert (Hr : resolved_path slash " R/A " = String "R"%char "/A") by reflexivity.
  destruct (get_plain_key_returns_its_entry h " R/A " "R"%char "/A"
              eq_refl Hr eq_refl eq_refl) as [_ H].
  rewrite H; [reflexivity| |].
  - repeat constructor; cbn; intuition discriminate.
  - cbn. intuition discriminate.
Defined.

(** ** Querying an object's own path *)

Lemma re_parse_self e : forall rest cur done,
  self_matching e = true ->
  re_parse (wildcard_to_re e ++ rest) cur done =
  re_parse rest (rev (re_items_of e) ++ cur) done.
Proof.
  induction e as [|c e IH]; intros rest cur done H; [reflexivity|].
  cbn [self_matching] in H. apply andb_true_iff in H. destruct H as [Hc He].
  rewrite wildcard_to_re_cons. cbn [re_items_of rev]. rewrite <- app_assoc.
  unfold re_item_of, item_of, matches_itself in *.
  destruct (Ascii.eqb_spec c "."%char) as [->|Hd].
  - cbn [Ascii.eqb Bool.eqb String.append].
    change (re_parse (String "."%char ?s) ?c ?d)
      with (re_parse s (Rep One true AnyButNewline :: c) d).
    exact (IH _ _ _ He).
  - destruct (Ascii.eqb_spec c "?"%char) as [->|Hq].
    + cbn [String.append]. change (re_parse (String "."%char ?s) ?c ?d)
        with (re_parse s (Rep One true AnyButNewline :: c) d).
      exact (IH _ _ _ He).
    + destruct (Ascii.eqb_spec c "*"%char) as [->|Hs].
      * change (re_parse (".*?" ++ ?s) ?c ?d)
          with (re_parse s (Rep Star false AnyButNewline :: c) d).
        exact (IH _ _ _ He).
      * cbn [String.append]. cbn [orb] in Hc. apply negb_true_iff in Hc.
        rewrite re_parse_plain by assumption. exact (IH _ _ _ He).
Qed.

Lemma re_match_self e key :
  self_matching e = true ->
  re_match ("^" ++ wildcard_to_re e ++ "$") key =
  Ok (match_items (re_items_of e ++ [Eol]) 0 key).
Proof.
  intros He. unfold re_match, re_compile.
  change (re_parse ("^" ++ ?s) [] []) with (re_parse s [Bol] []).
  rewrite re_parse_self by assumption.
  change (re_parse "$" ?c ?d) with (Ok (rev (rev (Eol :: c) :: d))).
  cbn [bind rev app]. rewrite rev_app_distr, rev_involutive.
  cbn [rev app existsb match_items Nat.eqb andb]. now rewrite orb_false_r.
Qed.

Lemma match_items_self e : forall pos,
  self_matching e = true ->
  match_items (re_items_of e ++ [Eol]) pos e = true.
Proof.
  induction e as [|c e IH]; intros pos H; [reflexivity|].
  cbn [self_matching] in H. apply andb_true_iff in H. destruct H as [Hc He].
  cbn [re_items_of app]. unfold re_item_of, item_of.
  destruct (Ascii.eqb_spec c "."%char) as [->|Hd].
  - cbn [match_items in_charset]. now rewrite IH.
  - destruct (Ascii.eqb_spec c "?"%char) as [->|Hq].
    + cbn [match_items in_charset]. now rewrite IH.
    + destruct (Ascii.eqb_spec c "*"%char) as [->|Hs].
      * cbn [match_items match_star in_charset].
        replace (match_star AnyButNewline (match_items (re_items_of e ++ [Eol]))
                   (S pos) e) with true; [apply orb_true_r|].
        symmetry. destruct e; cbn [match_star]; now rewrite (IH (S pos) He).
      * cbn [match_items in_charset]. now rewrite Ascii.eqb_refl, IH.
Qed.

Lemma dict_get_in_keys k h o : In o (dict_get k h) -> In k (dict_keys h).
Proof.
  intros H. destruct (in_dec string_dec k (dict_keys h)) as [Hin|Hnin]; [exact Hin|].
  rewrite (dict_get_absent k h Hnin) in H. destruct H.
Qed.

Lemma get_own_key h k c rest o :
  sep h = slash ->
  k = String c rest ->
  Ascii.eqb c "!"%char = false ->
  self_matching k = true ->
  strip k = k ->
  contains ".." k = false ->
  In o (dict_get k (entries h)) ->
  exists res, get h k = Ok res /\ In o res.
Proof.
  intros Hsep Hk Hc Hself Hstrip Hdd Ho.
  assert (Hr : resolved_path slash k = k).
  { unfold resolved_path. cbv zeta. now rewrite Hstrip, Hdd. }
  unfold get, get_with. rewrite Hsep.
  assert (Hr' : resolved_path slash k = String c rest) by congruence.
  rewrite (pattern_of_wildcard k c rest Hr' Hc), Hr. cbn [bind].
  rewrite (matching_keys_filter _ _
             (fun key => match_items (re_items_of k ++ [Eol]) 0 key))
    by (intros key; now apply re_match_self).
  cbn [bind]. eexists. split; [reflexivity|].
  apply in_flat_map. exists k. split; [|exact Ho].
  apply filter_In. split; [now apply dict_get_in_keys with o|].
  now apply match_items_self.
Qed.

(** X13.  An object of the index is found by querying its own key: when the
    key is not empty, consists of ['.'], ['?'], ['*'] and characters without
    a meaning in regular expressions, has no white space at either end, no
    '..' and no leading '!', [get] on the key returns a list that holds the
    object. *)
Theorem indexed_object_found_by_its_own_path
    (fuel : nat) (doc : document) (rootobj : option obj) (ft : option Z)
    (start o : obj) (c : ascii) (rest : string) :
  fst (snapshot_start doc rootobj) = Some start ->
  (doc_size start < fuel)%nat ->
  In o (snapshot_objs start (snd (snapshot_start doc rootobj))) ->
  type_passes ft o = true ->
  path_key o = String c rest ->
  Ascii.eqb c "!"%char = false ->
  self_matching (path_key o) = true ->
  strip (path_key o) = path_key o ->
  contains ".." (path_key o) = false ->
  exists h res,
    ObjectHierarchy_init fuel doc rootobj ft = Ok h /\
    get h (path_key o) = Ok res /\ In o res.
Proof.
  intros Hs Hf Ho Hty Hk Hc Hself Hstrip Hdd.
  eexists. 
  assert (Hin : In o (dict_get (path_key o)
                  (file_all path_key
                     (filter (type_passes ft)
                        (snapshot_objs start (snd (snapshot_start doc rootobj))))))).
  { unfold file_all.
    destruct (file_onto_spec path_key
                (filter (type_passes ft)
                   (snapshot_objs start (snd (snapshot_start doc rootobj)))) [])
      as (H1 & _). rewrite H1. cbn [dict_get app].
    apply filter_In. split; [|apply String.eqb_refl].
    apply filter_In. now split. }
  destruct (get_own_key
              (MkHierarchy (Some start)
                 (fold_left Z.max
                    (map (fun q => Z.of_nat (depth q))
                       (snapshot_objs start (snd (snapshot_start doc rootobj))))
                    (-1)%Z)
                 slash
                 (file_all path_key
                    (filter (type_passes ft)
                       (snapshot_objs start (snd (snapshot_start doc rootobj))))))
              (path_key o) c rest o eq_refl Hk Hc Hself Hstrip Hdd Hin)
    as (res & Hg & Hres).
  exists res. split; [|split; [exact Hg|exact Hres]].
  exact (ObjectHierarchy_init_full fuel doc rootobj ft start Hs Hf).
Qed.

Lemma indexed_object_found_by_its_own_path_witness :
  exists h res,
    ObjectHierarchy_init 10 sample_doc None None = Ok h /\
    get h (path_key oA1) = Ok res /\ In oA1 res.
Proof.
  apply (indexed_object_found_by_its_own_path 10 sample_doc None None oR oA1
           "R"%char "/A").
  - reflexivity.
  - vm_compute; lia.
  - vm_compute. right. right. now left.
  - reflexivity.
  - reflexivity.
  - reflexivity.
  - reflexivity.
  - reflexivity.
  - reflexivity.
Defined.

(** ** Expressions with '..' inside a longer segment *)

Lemma split_not_nil sp s : split sp s <> [].
Proof.
  destruct s as [|c s]; cbn [split]; [discriminate|].
  destruct (Ascii.eqb c sp); [discriminate|].
  destruct (split sp s); discriminate.
Qed.

Lemma join_split sp s : join (sep_string sp) (split sp s) = s.
Proof.
  unfold join, sep_string. induction s as [|c s IH]; [reflexivity|].
  cbn [split]. destruct (Ascii.eqb_spec c sp) as [->|Hn].
  - pose proof (split_not_nil sp s) as Hnn.
    destruct (split sp s) as [|w ws] eqn:E; [congruence|].
    cbn [String.concat String.append] in *. now rewrite IH.
  - destruct (split sp s) as [|w ws] eqn:E; [now destruct (split_not_nil sp s)|].
    destruct ws as [|w' ws]; cbn [String.concat String.append] in *; now rewrite IH.
Qed.

Lemma drop_dotdot_id comps :
  Forall (fun comp => comp <> "..") comps -> drop_dotdot comps = comps.
Proof.
  induction 1 as [|comp comps Hc Hcs IH]; [reflexivity|].
  rewrite drop_dotdot_cons, IH.
  replace (String.eqb comp "..") with false
    by (symmetry; now apply String.eqb_neq).
  destruct Hcs as [|d comps' Hd _]; [reflexivity|].
  cbn [starts_with_dotdot orb].
  replace (String.eqb d "..") with false
    by (symmetry; now apply String.eqb_neq).
  reflexivity.
Qed.

(** X14.  The '..' step changes an expression only when one of its segments
    is '..' itself: an expression whose segments all differ from '..', also
    one with '..' inside a longer segment such as ['a..b'] or ['...'], goes
    on trimmed and otherwise unchanged. *)
Theorem dotdot_inside_segment_is_kept (path : string) :
  Forall (fun comp => comp <> "..") (split slash (strip path)) ->
  resolved_path slash path = strip path.
Proof.
  intros H. unfold resolved_path. cbv zeta.
  destruct (contains ".." (strip path)); [|reflexivity].
  rewrite resolve_dotdot_spec, (drop_dotdot_id _ H). apply join_split.
Qed.

Lemma dotdot_inside_segment_is_kept_witness :
  resolved_path slash " R/a..b/... " = "R/a..b/...".
Proof.
  apply (dotdot_inside_segment_is_kept " R/a..b/... ").
  repeat constructor; discriminate.
Defined.

(** ** The loops over [getNextObject] find nothing *)

(** X15.  [findObjects] and [getActiveObjects] never return an object: on a
    document without objects they return the empty list, on every other
    document the first call of [getNextObject] without stop objects raises
    [TypeError], whether or not the first object has children. *)
Theorem findObjects_never_returns_an_object
    (fuel : nat) (doc : document) (name : string) (active : obj -> bool) :
  findObjects (S fuel) (Some doc) name =
    match doc with
    | [] => Ok (Some [])
    | _ :: _ => Raise TypeError
    end /\
  getActiveObjects (S fuel) active doc =
    match doc with
    | [] => Ok []
    | _ :: _ => Raise TypeError
    end /\
  (forall n r, findObjects n (Some doc) name = Ok (Some r) -> r = []) /\
  (forall n r, getActiveObjects n active doc = Ok r -> r = []).
Proof.
  destruct doc as [|t ts].
  - repeat split; try reflexivity.
    + intros n r H. cbn in H. congruence.
    + intros [|n] r H; cbn in H; congruence.
  - unfold findObjects, getActiveObjects. cbn [GetFirstObject].
    repeat split.
    + cbn [findObjects_loop]. now rewrite getNextObject_no_stop_raises.
    + cbn [getActiveObjects_loop]. now rewrite getNextObject_no_stop_raises.
    + intros [|n] r H; cbn [findObjects_loop bind] in H; [discriminate|].
      rewrite getNextObject_no_stop_raises in H. discriminate.
    + intros [|n] r H; cbn [getActiveObjects_loop bind] in H; [discriminate|].
      rewrite getNextObject_no_stop_raises in H. discriminate.
Qed.

(** ** ObjectHierarchy.pprint *)





(** ** recurseBranch *)

Lemma recurseBranch_spec t : forall fuel l r ab,
  (tree_size t <= fuel)%nat ->
  recurseBranch fuel (Some (Obj l t r ab)) =
  if second_children_end_childless t then Ok tt else Raise AttributeError.
Proof.
  induction t as [n y cs IH] using tree_ind. intros fuel l r ab Hf.
  destruct cs as [|c [|c2 cs']].
  - destruct fuel; reflexivity.
  - destruct fuel as [|[|fuel]]; [cbn in Hf; lia|reflexivity|reflexivity].
  - destruct fuel as [|fuel]; [cbn in Hf; lia|].
    cbn [recurseBranch GetDown focus GetNext rights lefts above
         second_children_end_childless].
    inversion IH as [|? ? _ IH']; subst. inversion IH' as [|? ? IH2 _]; subst.
    apply IH2. cbn [tree_size] in Hf. lia.
Qed.

(** X17.  [recurseBranch] looks at nothing but the chain of second children
    below its argument: it returns [None] when that chain ends at an object
    without children and raises [AttributeError] when it ends at an object
    with exactly one child; so it raises for every object with a single
    child. *)
Theorem recurseBranch_follows_second_children (fuel : nat) (o : obj) :
  (tree_size (focus o) <= fuel)%nat ->
  recurseBranch fuel (Some o) =
    (if second_children_end_childless (focus o) then Ok tt
     else Raise AttributeError) /\
  (forall child, GetDown o = Some child -> GetNext child = None ->
                 recurseBranch fuel (Some o) = Raise AttributeError).
Proof.
  intros Hf. destruct o as [l t r ab]. cbn [focus] in *.
  split; [now apply recurseBranch_spec|].
  intros child Hd Hn. rewrite (recurseBranch_spec t fuel l r ab Hf).
  destruct t as [n y [|c [|c2 cs']]]; cbn [GetDown focus] in Hd.
  - discriminate Hd.
  - reflexivity.
  - injection Hd as <-. discriminate Hn.
Qed.

Lemma recurseBranch_follows_second_children_witness :
  recurseBranch 5 (Some oR) = Ok tt /\
  recurseBranch 5 (Some oA) = Raise AttributeError.
Proof.
  assert (HR : (tree_size (focus oR) <= 5)%nat) by (vm_compute; lia).
  assert (HA : (tree_size (focus oA) <= 5)%nat) by (vm_compute; lia).
  split.
  - exact (proj1 (recurseBranch_follows_second_children 5 oR HR)).
  - exact (proj2 (recurseBranch_follows_second_children 5 oA HA) oA1 eq_refl eq_refl).
Defined.

(** ** ObjectHierarchy._strxform *)

Lemma string_app_assoc (a b c : string) : ((a ++ b) ++ c = a ++ (b ++ c))%string.
Proof. induction a as [|x a IH]; [reflexivity|]. cbn [String.append]. now rewrite IH. Qed.

Lemma substring_app_length (s t : string) :
  substring 0 (String.length s) (s ++ t) = s.
Proof.
  induction s as [|x s IH]; cbn [String.append String.length substring].
  - now destruct t.
  - now rewrite IH.
Qed.

Lemma chop2_app (s : string) (a b : ascii) :
  chop2 (s ++ String a (String b EmptyString)) = s.
Proof.
  unfold chop2. rewrite string_length_append. cbn [String.length].
  replace (String.length s + 2 - 2)%nat with (String.length s) by lia.
  apply substring_app_length.
Qed.

Lemma fold_left_sep {A : Type} (g : A -> string) (l : list A) : forall x res,
  fold_left (fun res x => (res ++ g x ++ ", ")%string) (x :: l) res =
  ((res ++ join ", " (map g (x :: l))) ++ ", ")%string.
Proof.
  unfold join. induction l as [|y l IH]; intros x res.
  - cbn [fold_left map String.concat]. now rewrite string_app_assoc.
  - change (fold_left ?f (x :: y :: l) res)
      with (fold_left f (y :: l) (res ++ g x ++ ", ")%string).
    rewrite IH. cbn [map String.concat]. now rewrite !string_app_assoc.
Qed.

Lemma strxform_entry_spec repr res e :
  snd e <> [] ->
  strxform_entry repr res e = (res ++ entry_text repr e ++ ", ")%string.
Proof.
  destruct e as [k [|o v]]; cbn [fst snd]; [congruence|]. intros _.
  unfold strxform_entry, strxform_names, entry_text. cbn [fst snd].
  rewrite (fold_left_sep (fun o => repr (GetName o))), chop2_app.
  now rewrite !string_app_assoc.
Qed.

Lemma fold_strxform_entry repr es : forall res,
  Forall (fun e => snd e <> []) es ->
  fold_left (strxform_entry repr) es res =
  fold_left (fun res e => (res ++ entry_text repr e ++ ", ")%string) es res.
Proof.
  induction es as [|e es IH]; intros res H; [reflexivity|].
  inversion H as [|? ? He Hes]; subst. cbn [fold_left].
  rewrite (strxform_entry_spec repr res e He). now apply IH.
Qed.

Lemma strxform_spec repr h :
  Forall (fun e => snd e <> []) (entries h) ->
  _strxform repr h =
  match entries h with
  | [] => "}"
  | _ :: _ => ("{" ++ join ", " (map (entry_text repr) (entries h)) ++ "}")%string
  end.
Proof.
  intros H. unfold _strxform. rewrite (fold_strxform_entry repr _ _ H).
  destruct (entries h) as [|e es]; [reflexivity|].
  rewrite (fold_left_sep (entry_text repr)), chop2_app.
  now rewrite string_app_assoc.
Qed.

Lemma dict_append_nonempty k v h :
  Forall (fun e : string * list obj => snd e <> []) h ->
  Forall (fun e : string * list obj => snd e <> []) (dict_append k v h).
Proof.
  induction 1 as [|[k' vs] h Hv Hh IH]; cbn [dict_append].
  - constructor; [discriminate|constructor].
  - destruct (String.eqb k' k); constructor; cbn [snd] in *; auto.
    now destruct vs.
Qed.

Lemma file_all_nonempty (key : obj -> string) os :
  Forall (fun e : string * list obj => snd e <> []) (file_all key os).
Proof.
  unfold file_all.
  assert (H : forall h, Forall (fun e : string * list obj => snd e <> []) h ->
            Forall (fun e : string * list obj => snd e <> [])
                   (fold_left (fun h o => dict_append (key o) o h) os h)).
  { induction os as [|o os IH]; intros h Hh; [exact Hh|].
    cbn [fold_left]. apply IH. now apply dict_append_nonempty. }
  apply H. constructor.
Qed.

(** X18.  [str()] of a snapshot writes the index like a dictionary display:
    each key with the names filed under it as a list, entries and names
    separated by ', ', all within braces; for a snapshot with an empty index
    the opening brace is cut off and the text is ['}'] alone. *)
Theorem strxform_of_snapshot
    (repr : string -> string)
    (fuel : nat) (doc : document) (rootobj : option obj) (ft : option Z) (start : obj) :
  fst (snapshot_start doc rootobj) = Some start ->
  (doc_size start < fuel)%nat ->
  exists h,
    ObjectHierarchy_init fuel doc rootobj ft = Ok h /\
    _strxform repr h =
    match entries h with
    | [] => "}"
    | _ :: _ => ("{" ++ join ", " (map (entry_text repr) (entries h)) ++ "}")%string
    end.
Proof.
  intros Hs Hf. eexists.
  split; [exact (ObjectHierarchy_init_full fuel doc rootobj ft start Hs Hf)|].
  apply strxform_spec. cbn [entries]. apply file_all_nonempty.
Qed.

Lemma strxform_of_snapshot_witness :
  exists h,
    ObjectHierarchy_init 10 sample_doc (Some oR) None = Ok h /\
    _strxform (fun s => "'" ++ s ++ "'")%string h = "{'R': ['A', 'B'], 'R/A': ['A1']}".
Proof.
  assert (Hs : fst (snapshot_start sample_doc (Some oR)) = Some oR) by reflexivity.
  assert (Hf : (doc_size oR < 10)%nat) by (vm_compute; lia).
  destruct (strxform_of_snapshot (fun s => "'" ++ s ++ "'")%string
              10 sample_doc (Some oR) None oR Hs Hf) as (h & Hi & Hx).
  exists h. split; [exact Hi|]. rewrite Hx.
  vm_compute in Hi. injection Hi as <-. reflexivity.
Defined.

(** ** What a query can return *)

Lemma matching_keys_sub rematch pat keys : forall ks,
  matching_keys rematch pat keys = Ok ks ->
  NoDup keys -> NoDup ks /\ incl ks keys.
Proof.
  induction keys as [|k keys IH]; intros ks H Hn; cbn [matching_keys] in H.
  - injection H as <-. split; [constructor|apply incl_refl].
  - destruct (rematch pat k) as [b|e| |]; try discriminate H. cbn [bind] in H.
    destruct (matching_keys rematch pat keys) as [rest|e| |]; try discriminate H.
    cbn [bind] in H. injection H as <-.
    inversion Hn as [|? ? Hk Hn']; subst.
    destruct (IH rest eq_refl Hn') as [Hr Hi].
    destruct b.
    + split; [constructor; [intros Hx; apply Hk, Hi, Hx|exact Hr]|].
      intros x [<-|Hx]; [now left|right; now apply Hi].
    + split; [exact Hr|]. intros x Hx. right. now apply Hi.
Qed.

Lemma NoDup_flat_map_filter (key : obj -> string) (os : list obj) (ks : list string) :
  NoDup os -> NoDup ks ->
  NoDup (flat_map (fun k => filter (fun o => String.eqb (key o) k) os) ks).
Proof.
  intros Ho. induction 1 as [|k ks Hk Hks IH]; [constructor|].
  cbn [flat_map]. apply NoDup_app.
  - now apply NoDup_filter.
  - exact IH.
  - intros o Hin Hin'. apply Hk.
    apply filter_In in Hin. destruct Hin as [_ E]. apply String.eqb_eq in E.
    apply in_flat_map in Hin'. destruct Hin' as (k' & Hk' & Ho').
    apply filter_In in Ho'. destruct Ho' as [_ E']. apply String.eqb_eq in E'.
    congruence.
Qed.

(** X19.  Whatever the expression and whatever [re.match] answers (it is any
    function [rematch] here, so the pattern may use all of the syntax of
    [re]), when [get] returns, it returns objects of the snapshot only, none
    of them twice: each one was yielded by the traversal and passed the type
    filter. *)
Theorem get_returns_indexed_objects_once
    (fuel : nat) (doc : document) (rootobj : option obj) (ft : option Z) (start : obj) :
  fst (snapshot_start doc rootobj) = Some start ->
  (doc_size start < fuel)%nat ->
  exists h,
    ObjectHierarchy_init fuel doc rootobj ft = Ok h /\
    forall rematch path res,
      get_with rematch h path = Ok res ->
      NoDup res /\
      forall o, In o res ->
        In o (snapshot_objs start (snd (snapshot_start doc rootobj))) /\
        type_passes ft o = true.
Proof.
  intros Hs Hf. eexists.
  split; [exact (ObjectHierarchy_init_full fuel doc rootobj ft start Hs Hf)|].
  intros rematch path res Hg. unfold get_with in Hg. cbn [entries sep] in Hg.
  set (objs := filter (type_passes ft)
                 (snapshot_objs start (snd (snapshot_start doc rootobj)))) in *.
  destruct (pattern_of slash path) as [pat|e| |]; try discriminate Hg.
  cbn [bind] in Hg.
  destruct (matching_keys rematch pat (dict_keys (file_all path_key objs)))
    as [ks|e| |] eqn:Ek; try discriminate Hg.
  cbn [bind] in Hg. injection Hg as <-.
  destruct (file_onto_spec path_key objs []) as (H1 & _ & H3).
  fold (file_all path_key objs) in H1, H3.
  destruct (matching_keys_sub rematch pat _ ks Ek (H3 (NoDup_nil _))) as [Hn _].
  assert (E : flat_map (fun k => dict_get k (file_all path_key objs)) ks =
              flat_map (fun k => filter (fun o => String.eqb (path_key o) k) objs) ks).
  { apply flat_map_ext. intros k. now rewrite H1. }
  rewrite E. split.
  - apply NoDup_flat_map_filter; [|exact Hn].
    apply NoDup_filter, NoDup_snapshot_objs.
  - intros o Ho. apply in_flat_map in Ho. destruct Ho as (k & _ & Ho).
    apply filter_In in Ho. destruct Ho as [Ho _]. unfold objs in Ho.
    now apply filter_In in Ho.
Qed.

Lemma get_returns_indexed_objects_once_witness :
  exists h,
    ObjectHierarchy_init 10 sample_doc None (Some 5100%Z) = Ok h /\
    get h "R*" = Ok [oA1; oB] /\ NoDup [oA1; oB].
Proof.
  assert (Hs : fst (snapshot_start sample_doc None) = Some oR) by reflexivity.
  assert (Hf : (doc_size oR < 10)%nat) by (vm_compute; lia).
  destruct (get_returns_indexed_objects_once 10 sample_doc None (Some 5100%Z) oR Hs Hf)
    as (h & Hi & Hg).
  exists h. split; [exact Hi|].
  assert (E : get h "R*" = Ok [oA1; oB]).
  { vm_compute in Hi. injection Hi as <-. reflexivity. }
  split; [exact E|exact (proj1 (Hg re_match "R*" [oA1; oB] E))].
Defined.
